(** * Digital Director: the note-level interpreter, its conductor and the
      expression-curve anchor points

    A shallow embedding of the Python sources
      - conductor/voice_analyzer.py      (NoteProperties, MusicalVoice)
      - conductor/rule_base.py           (InterpretationContext, RuleManager)
      - conductor/melody_rules.py, bass_rules.py, inner_voice_rules.py
      - conductor/orchestral_conductor.py (OrchestralConductor)
      - conductor/note_manipulator.py    (NoteLevelInterpreter)
      - dynamics.py                      (extract_dynamic_points_baroque)

    Python [int] is [Z].  Python [float] is an abstract type [F] with the
    operations the sources use (class [PyFloat]); it is instantiated by
    IEEE-754 binary64 (Rocq's primitive floats: what CPython computes), by
    exact rationals [Q] and by the reals [R] (for [numpy.sin]).  Results
    that do not depend on rounding are proved for every instance. *)

From Stdlib Require Import ZArith QArith Qround Qabs Qminmax Reals Psatz Lia Bool.
From Stdlib Require Import Floats Uint63 Sorted Permutation.
From stdpp Require Import base option list fin_maps gmap strings.

Close Scope Q_scope.
Close Scope R_scope.
Open Scope Z_scope.

(* ================================================================== *)
(** ** Python numbers *)
(* ================================================================== *)

Module Py.

  (** The float operations the sources rely on.  [ffloor] is [math.floor];
      [of_int] is the implicit int-to-float conversion of mixed
      arithmetic. *)
Class PyFloat (F : Type) := {
    of_int : Z -> F;
    fadd : F -> F -> F;
    fsub : F -> F -> F;
    fmul : F -> F -> F;
    fdiv : F -> F -> F;
    fopp : F -> F;
    fltb : F -> F -> bool;
    fleb : F -> F -> bool;
    feqb : F -> F -> bool;
    ffloor : F -> Z
  }.

(** Infix notations for the model, in the style of OCaml's float
    operators; they are imported by the sections of the model only. *)
Module Notations.
Declare Scope py_scope.
Delimit Scope py_scope with py.
Infix "+." := fadd (at level 50, left associativity) : py_scope.
Infix "-." := fsub (at level 50, left associativity) : py_scope.
Infix "*." := fmul (at level 40, left associativity) : py_scope.
Infix "/." := fdiv (at level 40, left associativity) : py_scope.
Infix "<." := fltb (at level 70, no associativity) : py_scope.
Infix "<=." := fleb (at level 70, no associativity) : py_scope.
Infix "==." := feqb (at level 70, no associativity) : py_scope.
End Notations.

Section Derived.
Context {F : Type} `{PyFloat F}.
Import Notations.
Local Open Scope py_scope.

    (** A decimal literal [p/q] (0.9 is [lit 9 10]): the correctly rounded
        quotient of two exactly representable integers, which is the value
        the Python parser gives the literal. *)
Definition lit (p q : Z) : F := of_int p /. of_int q.

    (** [x > y] and [x >= y]. *)
Definition fgtb (x y : F) : bool := y <. x.
Definition fgeb (x y : F) : bool := y <=. x.

    (** [abs(x)] on floats. *)
Definition fabs (x : F) : F := if x <. of_int 0 then fopp x else x.

    (** [min(a, b)] and [max(a, b)]: Python returns the first argument
        unless the second is strictly smaller (resp. larger). *)
Definition fmin (a b : F) : F := if b <. a then b else a.
Definition fmax (a b : F) : F := if a <. b then b else a.

    (** [int(x)]: truncation toward zero. *)
Definition py_int (x : F) : Z :=
      if x <. of_int 0 then - ffloor (fopp x) else ffloor x.

    (** [round(x)] with one argument: to the nearest integer, ties to the
        even one. *)
Definition py_round (x : F) : Z :=
      let f := ffloor x in
      let d := x -. of_int f in
      if d <. lit 1 2 then f
      else if lit 1 2 <. d then f + 1
      else if Z.even f then f else f + 1.
End Derived.

  (** *** IEEE-754 binary64 *)

Definition float_of_int (z : Z) : float :=
    if 0 <=? z then PrimFloat.of_uint63 (Uint63.of_Z z)
    else PrimFloat.opp (PrimFloat.of_uint63 (Uint63.of_Z (- z))).

Definition float_floor (x : float) : Z :=
    match Prim2SF x with
    | S754_finite s m e =>
        let n := if s then Z.neg m else Z.pos m in
        if 0 <=? e then n * 2 ^ e else n / 2 ^ (- e)
    | _ => 0
    end.

#[export] Instance float_PyFloat : PyFloat float := {|
    of_int := float_of_int;
    fadd := PrimFloat.add; fsub := PrimFloat.sub;
    fmul := PrimFloat.mul; fdiv := PrimFloat.div;
    fopp := PrimFloat.opp;
    fltb := PrimFloat.ltb; fleb := PrimFloat.leb; feqb := PrimFloat.eqb;
    ffloor := float_floor
  |}.

  (** *** Exact rationals *)

#[export] Instance Q_PyFloat : PyFloat Q := {|
    of_int := inject_Z;
    fadd := Qplus; fsub := Qminus; fmul := Qmult; fdiv := Qdiv;
    fopp := Qopp;
    fltb := fun x y => negb (Qle_bool y x);
    fleb := Qle_bool;
    feqb := Qeq_bool;
    ffloor := Qfloor
  |}.

  (** *** Reals *)

Definition Rltb (x y : R) : bool := if Rlt_dec x y then true else false.
Definition Rleb (x y : R) : bool := if Rle_dec x y then true else false.
Definition Reqb (x y : R) : bool := if Req_dec_T x y then true else false.

#[export] Instance R_PyFloat : PyFloat R := {|
    of_int := IZR;
    fadd := Rplus; fsub := Rminus; fmul := Rmult; fdiv := Rdiv;
    fopp := Ropp;
    fltb := Rltb; fleb := Rleb; feqb := Reqb;
    ffloor := Int_part
  |}.

End Py.
Import Py.


(* ================================================================== *)
(** ** Python containers and builtins *)
(* ================================================================== *)

Module PyList.
Section Sorting.
Context {A : Type} (le : A -> A -> bool).

    (** [list.sort(key=...)] / [sorted(..., key=...)] are stable: the
        result is the one sorted arrangement that keeps equal keys in
        their original order.  [le x y] reads [key x <= key y]. *)
Fixpoint insert_sorted (x : A) (l : list A) : list A :=
      match l with
      | [] => [x]
      | y :: l' => if le x y then x :: l else y :: insert_sorted x l'
      end.

Definition sorted (l : list A) : list A := foldr insert_sorted [] l.
End Sorting.

  (** [range(start, stop, step)] for a positive step, by fuel. *)
Fixpoint range_fuel (fuel : nat) (start stop step : Z) : list Z :=
    match fuel with
    | O => []
    | S fuel' =>
        if start <? stop then start :: range_fuel fuel' (start + step) stop step
        else []
    end.

Definition range (start stop step : Z) : list Z :=
    range_fuel (Z.to_nat (stop - start)) start stop step.

  (** [sum(l)] over ints. *)
Definition sum (l : list Z) : Z := foldr Z.add 0 l.
End PyList.

(** A [dict] whose iteration order (insertion order) is observable: an
    association list with unique keys; assignment to an existing key keeps
    its position. *)
Module PyDict.
Section Dict.
Context {V : Type}.

Fixpoint get (k : Z) (d : list (Z * V)) : option V :=
      match d with
      | [] => None
      | (k', v) :: d' => if k =? k' then Some v else get k d'
      end.

Fixpoint set (k : Z) (v : V) (d : list (Z * V)) : list (Z * V) :=
      match d with
      | [] => [(k, v)]
      | (k', v') :: d' =>
          if k =? k' then (k, v) :: d' else (k', v') :: set k v d'
      end.

Definition mem (k : Z) (d : list (Z * V)) : bool :=
      match get k d with Some _ => true | None => false end.
End Dict.
End PyDict.

(* ================================================================== *)
(** ** conductor/voice_analyzer.py *)
(* ================================================================== *)

Module NoteProperties.
Section Note.
Context {F : Type}.

    (** The attributes of a [NoteProperties] object.  [next_note] and
        [prev_note] are references to other notes of the same voice; they
        are modelled as positions in [voice.notes], the list that owns the
        objects.  [articulation] (always [None]) is left out. *)
Record t := mk {
      pitch : Z;
      velocity : Z;
      start_time : Z;
      duration : Z;
      original_start_time : Z;
      original_duration : Z;
      track : Z;
      channel : Z;
      adjusted_start_time : Z;
      adjusted_duration : Z;
      adjusted_velocity : Z;
      is_melody : bool;
      is_bass : bool;
      is_inner_voice : bool;
      metric_position : F;
      phrase_position : F;
      harmonic_importance : F;
      is_downbeat : bool;
      next_note : option nat;
      prev_note : option nat;
      interval_to_next : Z;
      interval_to_prev : Z
    }.

    (** Attribute assignments [note.x = v]. *)
Definition set_adjusted_start_time (v : Z) (n : t) : t :=
      mk (pitch n) (velocity n) (start_time n) (duration n)
         (original_start_time n) (original_duration n) (track n) (channel n)
         v (adjusted_duration n) (adjusted_velocity n)
         (is_melody n) (is_bass n) (is_inner_voice n)
         (metric_position n) (phrase_position n) (harmonic_importance n)
         (is_downbeat n) (next_note n) (prev_note n)
         (interval_to_next n) (interval_to_prev n).

Definition set_adjusted_duration (v : Z) (n : t) : t :=
      mk (pitch n) (velocity n) (start_time n) (duration n)
         (original_start_time n) (original_duration n) (track n) (channel n)
         (adjusted_start_time n) v (adjusted_velocity n)
         (is_melody n) (is_bass n) (is_inner_voice n)
         (metric_position n) (phrase_position n) (harmonic_importance n)
         (is_downbeat n) (next_note n) (prev_note n)
         (interval_to_next n) (interval_to_prev n).

Definition set_adjusted_velocity (v : Z) (n : t) : t :=
      mk (pitch n) (velocity n) (start_time n) (duration n)
         (original_start_time n) (original_duration n) (track n) (channel n)
         (adjusted_start_time n) (adjusted_duration n) v
         (is_melody n) (is_bass n) (is_inner_voice n)
         (metric_position n) (phrase_position n) (harmonic_importance n)
         (is_downbeat n) (next_note n) (prev_note n)
         (interval_to_next n) (interval_to_prev n).

Definition set_role_flags (m b i : bool) (n : t) : t :=
      mk (pitch n) (velocity n) (start_time n) (duration n)
         (original_start_time n) (original_duration n) (track n) (channel n)
         (adjusted_start_time n) (adjusted_duration n) (adjusted_velocity n)
         m b i
         (metric_position n) (phrase_position n) (harmonic_importance n)
         (is_downbeat n) (next_note n) (prev_note n)
         (interval_to_next n) (interval_to_prev n).

Definition set_metric (pos : F) (down : bool) (n : t) : t :=
      mk (pitch n) (velocity n) (start_time n) (duration n)
         (original_start_time n) (original_duration n) (track n) (channel n)
         (adjusted_start_time n) (adjusted_duration n) (adjusted_velocity n)
         (is_melody n) (is_bass n) (is_inner_voice n)
         pos (phrase_position n) (harmonic_importance n)
         down (next_note n) (prev_note n)
         (interval_to_next n) (interval_to_prev n).

Definition set_phrase_position (pos : F) (n : t) : t :=
      mk (pitch n) (velocity n) (start_time n) (duration n)
         (original_start_time n) (original_duration n) (track n) (channel n)
         (adjusted_start_time n) (adjusted_duration n) (adjusted_velocity n)
         (is_melody n) (is_bass n) (is_inner_voice n)
         (metric_position n) pos (harmonic_importance n)
         (is_downbeat n) (next_note n) (prev_note n)
         (interval_to_next n) (interval_to_prev n).

Definition set_next_note (l : option nat) (n : t) : t :=
      mk (pitch n) (velocity n) (start_time n) (duration n)
         (original_start_time n) (original_duration n) (track n) (channel n)
         (adjusted_start_time n) (adjusted_duration n) (adjusted_velocity n)
         (is_melody n) (is_bass n) (is_inner_voice n)
         (metric_position n) (phrase_position n) (harmonic_importance n)
         (is_downbeat n) l (prev_note n)
         (interval_to_next n) (interval_to_prev n).

Definition set_prev_note (l : option nat) (n : t) : t :=
      mk (pitch n) (velocity n) (start_time n) (duration n)
         (original_start_time n) (original_duration n) (track n) (channel n)
         (adjusted_start_time n) (adjusted_duration n) (adjusted_velocity n)
         (is_melody n) (is_bass n) (is_inner_voice n)
         (metric_position n) (phrase_position n) (harmonic_importance n)
         (is_downbeat n) (next_note n) l
         (interval_to_next n) (interval_to_prev n).

Definition set_interval_to_next (v : Z) (n : t) : t :=
      mk (pitch n) (velocity n) (start_time n) (duration n)
         (original_start_time n) (original_duration n) (track n) (channel n)
         (adjusted_start_time n) (adjusted_duration n) (adjusted_velocity n)
         (is_melody n) (is_bass n) (is_inner_voice n)
         (metric_position n) (phrase_position n) (harmonic_importance n)
         (is_downbeat n) (next_note n) (prev_note n)
         v (interval_to_prev n).

Definition set_interval_to_prev (v : Z) (n : t) : t :=
      mk (pitch n) (velocity n) (start_time n) (duration n)
         (original_start_time n) (original_duration n) (track n) (channel n)
         (adjusted_start_time n) (adjusted_duration n) (adjusted_velocity n)
         (is_melody n) (is_bass n) (is_inner_voice n)
         (metric_position n) (phrase_position n) (harmonic_importance n)
         (is_downbeat n) (next_note n) (prev_note n)
         (interval_to_next n) v.

    (** [note.next_note] / [note.prev_note] followed into the voice. *)
Definition deref (notes : list t) (link : option nat) : option t :=
      match link with
      | Some j => notes !! j
      | None => None
      end.

    (** [calculate_intervals], for the note at position [i]. *)
Definition calculate_intervals (notes : list t) (i : nat) : list t :=
      match notes !! i with
      | None => notes
      | Some self =>
          let self :=
            match deref notes (next_note self) with
            | Some nx => set_interval_to_next (pitch nx - pitch self) self
            | None => self
            end in
          let self :=
            match deref notes (prev_note self) with
            | Some pv => set_interval_to_prev (pitch self - pitch pv) self
            | None => self
            end in
          <[i := self]> notes
      end.
End Note.
Arguments t : clear implicits.

Section Init.
Context {F : Type} `{!PyFloat F}.

    (** [NoteProperties.__init__]. *)
Definition __init__ (pitch velocity start_time duration track channel : Z)
      : t F :=
      mk pitch velocity start_time duration start_time duration track channel
         start_time duration velocity
         false false false
         (of_int 0) (of_int 0) (of_int 0)
         false None None 0 0.
End Init.
End NoteProperties.

Module MusicalVoice.
Import NoteProperties.

Section Voice.
Context {F : Type} `{!PyFloat F}.
Import Py.Notations.
Local Open Scope py_scope.

(** A phrase [(start_idx, end_idx, type)]. *)
Definition phrase : Type := nat * nat * string.

Record t := mk {
  track_index : Z;
  channel : Z;
  notes : list (NoteProperties.t F);
  role : string;
  instrument_type : string;
  avg_pitch : F;
  pitch_range : Z * Z;
  rhythmic_density : F;
  phrases : list phrase
}.

(** [MusicalVoice.__init__]. *)
Definition __init__ (track_index channel : Z) : t :=
  mk track_index channel [] "unknown" "unknown" (of_int 0) (0, 0) (of_int 0) [].

Definition set_notes (ns : list (NoteProperties.t F)) (v : t) : t :=
  mk (track_index v) (channel v) ns (role v) (instrument_type v)
     (avg_pitch v) (pitch_range v) (rhythmic_density v) (phrases v).

Definition set_phrases (ps : list phrase) (v : t) : t :=
  mk (track_index v) (channel v) (notes v) (role v) (instrument_type v)
     (avg_pitch v) (pitch_range v) (rhythmic_density v) ps.

Definition set_role (r : string) (v : t) : t :=
  mk (track_index v) (channel v) (notes v) r (instrument_type v)
     (avg_pitch v) (pitch_range v) (rhythmic_density v) (phrases v).

Definition set_pitch_stats (avg : F) (range : Z * Z) (v : t) : t :=
  mk (track_index v) (channel v) (notes v) (role v) (instrument_type v)
     avg range (rhythmic_density v) (phrases v).

Definition set_rhythmic_density (d : F) (v : t) : t :=
  mk (track_index v) (channel v) (notes v) (role v) (instrument_type v)
     (avg_pitch v) (pitch_range v) d (phrases v).

(** The sort key [lambda n: n.original_start_time]. *)
Definition by_start (a b : NoteProperties.t F) : bool :=
  original_start_time a <=? original_start_time b.

(** The three end-of-phrase criteria of [_detect_phrases], for the note
    [cur] at position [i] and its predecessor [prev] at [i-1]. *)
Definition is_gap (ticks_per_beat : Z) (prev cur : NoteProperties.t F) : bool :=
  let prev_end := original_start_time prev + original_duration prev in
  let current_start := original_start_time cur in
  let gap := current_start - prev_end in
  ticks_per_beat <? gap.

Definition is_long_note (ticks_per_beat : Z) (prev : NoteProperties.t F) : bool :=
  ticks_per_beat * 2 <? original_duration prev.

Definition is_large_interval (prev cur : NoteProperties.t F) : bool :=
  7 <? Z.abs (pitch cur - pitch prev).

Definition phrase_ends_before (ticks_per_beat : Z)
    (prev cur : NoteProperties.t F) : bool :=
  is_gap ticks_per_beat prev cur || is_long_note ticks_per_beat prev
  || is_large_interval prev cur.

(** The loop [for i in range(1, len(sorted_notes))]: [prev] is
    [sorted_notes[i-1]], [rest] is [sorted_notes[i:]]; the state is
    [(current_phrase_start, self.phrases)]. *)
Fixpoint detect_loop (ticks_per_beat : Z) (prev : NoteProperties.t F)
    (rest : list (NoteProperties.t F)) (i : nat)
    (current_phrase_start : nat) (phrases : list phrase)
  : nat * list phrase :=
  match rest with
  | [] => (current_phrase_start, phrases)
  | cur :: rest' =>
      if phrase_ends_before ticks_per_beat prev cur then
        let phrases :=
          if 2 <? Z.of_nat i - Z.of_nat current_phrase_start
          then phrases ++ [(current_phrase_start, (i - 1)%nat, "standard")]
          else phrases in
        detect_loop ticks_per_beat cur rest' (S i) i phrases
      else
        detect_loop ticks_per_beat cur rest' (S i) current_phrase_start phrases
  end.

(** [_detect_phrases] on a list of notes, appending to [phrases0]. *)
Definition detect_phrases_of (ticks_per_beat : Z)
    (notes : list (NoteProperties.t F)) (phrases0 : list phrase)
  : list phrase :=
  match PyList.sorted by_start notes with
  | [] => phrases0
  | first :: rest =>
      let sorted_len := S (length rest) in
      let '(current_phrase_start, phrases) :=
        detect_loop ticks_per_beat first rest 1 0 phrases0 in
      if 2 <? Z.of_nat sorted_len - Z.of_nat current_phrase_start
      then phrases ++ [(current_phrase_start, (sorted_len - 1)%nat, "final")]
      else phrases
  end.

Definition _detect_phrases (ticks_per_beat : Z) (self : t) : t :=
  set_phrases (detect_phrases_of ticks_per_beat (notes self) (phrases self)) self.

(** [_calculate_metric_positions]; the caller has excluded
    [ticks_per_beat = 0]. *)
Definition metric_of (ticks_per_beat : Z) (note : NoteProperties.t F)
  : NoteProperties.t F :=
  let ticks_per_measure := 4 * ticks_per_beat in
  let pos := of_int (original_start_time note mod ticks_per_measure)
             /. of_int ticks_per_measure in
  let beat_in_measure :=
    of_int (original_start_time note mod ticks_per_measure)
    /. of_int ticks_per_beat in
  let down := (beat_in_measure <. lit 1 10)
              || (fabs (beat_in_measure -. of_int 2) <. lit 1 10) in
  set_metric pos down note.

Definition _calculate_metric_positions (ticks_per_beat : Z) (self : t) : t :=
  set_notes (map (metric_of ticks_per_beat) (notes self)) self.

(** [_assign_phrase_positions]: [note_to_phrase] maps a note index to the
    last phrase that covers it. *)
Definition note_to_phrase (n_notes : nat) (phrases : list phrase)
  : gmap nat (nat * nat) :=
  foldl (fun m '(start_idx, end_idx, _) =>
           foldl (fun m note_idx =>
                    if bool_decide (note_idx < n_notes)%nat
                    then <[note_idx := (start_idx, end_idx)]> m else m)
                 m (seq start_idx (S end_idx - start_idx)))
        ∅ phrases.

Definition _assign_phrase_positions (self : t) : t :=
  match phrases self with
  | [] => self
  | _ =>
      let m := note_to_phrase (length (notes self)) (phrases self) in
      set_notes
        (imap (fun i note =>
                 match m !! i with
                 | Some (start_idx, end_idx) =>
                     let phrase_length :=
                       Z.of_nat end_idx - Z.of_nat start_idx + 1 in
                     set_phrase_position
                       (of_int (Z.of_nat i - Z.of_nat start_idx)
                        /. of_int (Z.max 1 phrase_length)) note
                 | None => note
                 end) (notes self))
        self
  end.

(** The linking loop [for i in range(len(self.notes) - 1)]. *)
Definition link_notes (ns : list (NoteProperties.t F))
  : list (NoteProperties.t F) :=
  foldl (fun ns i =>
           alter (set_prev_note (Some i)) (S i)
             (alter (set_next_note (Some (S i))) i ns))
        ns (seq 0 (length ns - 1)).

Definition min_pitch (ps : list Z) : Z :=
  match ps with [] => 0 | p :: ps' => foldl Z.min p ps' end.
Definition max_pitch (ps : list Z) : Z :=
  match ps with [] => 0 | p :: ps' => foldl Z.max p ps' end.

(** [analyze].  With [ticks_per_beat = 0] the rhythmic-density division
    raises [ZeroDivisionError]: the steps before it have happened, the
    later ones have not (the caller logs the error and goes on). *)
Definition analyze (ticks_per_beat : Z) (self : t) : t :=
  match notes self with
  | [] => self
  | _ =>
      let ns := PyList.sorted by_start (notes self) in
      let ns := link_notes ns in
      let ns := foldl calculate_intervals ns (seq 0 (length ns)) in
      let pitches := map pitch ns in
      let avg := of_int (PyList.sum pitches) /. of_int (Z.of_nat (length pitches)) in
      let self := set_notes ns self in
      let self := set_pitch_stats avg (min_pitch pitches, max_pitch pitches) self in
      let self :=
        if of_int 70 <. avg then set_role "melody" self
        else if avg <. of_int 50 then set_role "bass" self
        else set_role "inner_voice" self in
      let flag := fun note =>
        if String.eqb (role self) "melody" then
          set_role_flags true (is_bass note) (is_inner_voice note) note
        else if String.eqb (role self) "bass" then
          set_role_flags (is_melody note) true (is_inner_voice note) note
        else set_role_flags (is_melody note) (is_bass note) true note in
      let self := set_notes (map flag (notes self)) self in
      if ticks_per_beat =? 0 then self
      else
        let first_time :=
          match head (notes self) with
          | Some n => original_start_time n | None => 0 end in
        let last_time :=
          match last (notes self) with
          | Some n => original_start_time n + original_duration n
          | None => 0 end in
        let duration_in_beats :=
          of_int (last_time - first_time) /. of_int ticks_per_beat in
        let self :=
          if of_int 0 <. duration_in_beats
          then set_rhythmic_density
                 (of_int (Z.of_nat (length (notes self))) /. duration_in_beats)
                 self
          else self in
        let self := _detect_phrases ticks_per_beat self in
        let self := _calculate_metric_positions ticks_per_beat self in
        _assign_phrase_positions self
  end.

End Voice.
Arguments t : clear implicits.
End MusicalVoice.

(* ================================================================== *)
(** ** conductor/rule_base.py: InterpretationContext *)
(* ================================================================== *)

Module InterpretationContext.
Section Ctx.
Context {F : Type} `{!PyFloat F}.
Import Py.Notations.
Local Open Scope py_scope.

Record t := mk {
  ticks_per_beat : Z;
  expressiveness : F;
  rubato_strength : F;
  articulation_strength : F;
  dynamics_strength : F;
  timing_direction_bias : F;
  max_timing_change : Z;
  max_velocity_change : Z;
  max_acceleration : Z;
  max_delay : Z
}.

(** [InterpretationContext.__init__]. *)
Definition __init__ (ticks_per_beat : Z)
    (expressiveness rubato_strength articulation_strength dynamics_strength
     timing_direction_bias : F) : t :=
  let max_timing_change :=
    py_int (of_int ticks_per_beat *. lit 1 10 *. rubato_strength) in
  let max_velocity_change := py_int (dynamics_strength *. of_int 15) in
  let max_acceleration :=
    py_int (of_int ticks_per_beat *. lit 1 10 *. rubato_strength *. of_int (-1)) in
  let max_delay :=
    py_int (of_int ticks_per_beat *. lit 1 10 *. rubato_strength) in
  let max_acceleration :=
    if negb (timing_direction_bias ==. of_int 0)
       && (of_int 0 <. timing_direction_bias)
    then py_int (of_int max_acceleration *. (of_int 1 -. timing_direction_bias))
    else max_acceleration in
  let max_delay :=
    if negb (timing_direction_bias ==. of_int 0)
       && (timing_direction_bias <. of_int 0)
    then py_int (of_int max_delay *. (of_int 1 +. timing_direction_bias))
    else max_delay in
  mk ticks_per_beat expressiveness rubato_strength articulation_strength
     dynamics_strength timing_direction_bias
     max_timing_change max_velocity_change max_acceleration max_delay.

(** The defaults of the constructor's keyword arguments. *)
Definition default_ticks_per_beat : Z := 480.
Definition default_expressiveness : F := lit 5 10.
Definition default_rubato_strength : F := lit 6 10.
Definition default_articulation_strength : F := lit 7 10.
Definition default_dynamics_strength : F := lit 7 10.
Definition default_timing_direction_bias : F := of_int 0.

Definition get_timing_adjustment (self : t) (factor : F) : Z :=
  if factor <. of_int 0
  then py_int (of_int (max_acceleration self) *. (factor /. of_int (-1)))
  else py_int (of_int (max_delay self) *. factor).

End Ctx.
Arguments t : clear implicits.
End InterpretationContext.

(* ================================================================== *)
(** ** conductor/melody_rules.py *)
(* ================================================================== *)

(** Every rule's [apply(note, voice, context)] is a function of the
    position [i] of [note] in [voice.notes], of that list (the store that
    owns the note objects, so that writes through [note.next_note] land on
    the neighbour) and of the context; it returns the updated list and the
    boolean result.  Rule parameters ([self.params], the class defaults
    updated by the configuration) are records. *)

Module Rules.
Import NoteProperties.

Section RuleClasses.
Context {F : Type} `{!PyFloat F}.
Import Py.Notations.
Local Open Scope py_scope.
Local Abbreviation note_t := (NoteProperties.t F).
Local Abbreviation ctx_t := (InterpretationContext.t F).
Local Abbreviation mtc := InterpretationContext.max_timing_change.
Local Abbreviation art := InterpretationContext.articulation_strength.
Local Abbreviation dyn := InterpretationContext.dynamics_strength.
Local Abbreviation tpb := InterpretationContext.ticks_per_beat.

(** [bool(note.prev_note)], [bool(note.next_note)]. *)
Definition has_prev (notes : list note_t) (note : note_t) : bool :=
  bool_decide (is_Some (deref notes (prev_note note))).
Definition has_next (notes : list note_t) (note : note_t) : bool :=
  bool_decide (is_Some (deref notes (next_note note))).

(** [note.prev_note.pitch], [note.next_note.pitch] (0 when absent; only
    read under [has_prev] / [has_next]). *)
Definition prev_pitch (notes : list note_t) (note : note_t) : Z :=
  match deref notes (prev_note note) with Some p => pitch p | None => 0 end.
Definition next_pitch (notes : list note_t) (note : note_t) : Z :=
  match deref notes (next_note note) with Some p => pitch p | None => 0 end.

(** *** PhraseStartRule *)
Record PhraseStartParams := {
  ps_first_note_timing_factor : F;
  ps_second_note_timing_factor : F;
  ps_velocity_increase_factor : F;
  ps_min_duration : Z;
  ps_phrase_position_threshold : F
}.
Definition PhraseStart_defaults : PhraseStartParams :=
  {| ps_first_note_timing_factor := lit 7 10;
     ps_second_note_timing_factor := lit (-3) 10;
     ps_velocity_increase_factor := lit 7 100;
     ps_min_duration := 3;
     ps_phrase_position_threshold := lit 1 10 |}.

Definition PhraseStartRule_apply (p : PhraseStartParams) (i : nat)
    (notes : list note_t) (context : ctx_t) : list note_t * bool :=
  match notes !! i with
  | None => (notes, false)
  | Some note =>
      let threshold := ps_phrase_position_threshold p in
      if phrase_position note <. threshold then
        let delay_factor := ps_first_note_timing_factor p in
        let velocity_factor := ps_velocity_increase_factor p in
        let min_duration := ps_min_duration p in
        let delay := py_int (of_int (mtc context) *. delay_factor) in
        let note := set_adjusted_start_time (adjusted_start_time note + delay) note in
        let note := set_adjusted_duration
                      (Z.max min_duration (adjusted_duration note - delay)) note in
        let note := set_adjusted_velocity
                      (Z.min 127 (py_int (of_int (velocity note)
                                          *. (of_int 1 +. velocity_factor)))) note in
        (<[i := note]> notes, true)
      else if (phrase_position note <. threshold *. of_int 2)
              && has_prev notes note then
        let accel_factor := ps_second_note_timing_factor p in
        let accel := py_int (of_int (mtc context) *. accel_factor) in
        let note := set_adjusted_start_time (adjusted_start_time note + accel) note in
        let note := set_adjusted_velocity
                      (Z.min 127 (py_int (of_int (adjusted_velocity note)
                                          *. lit 103 100))) note in
        (<[i := note]> notes, true)
      else (notes, false)
  end.

(** *** PhraseEndRule *)
Record PhraseEndParams := {
  pe_timing_delay_factor : F;
  pe_velocity_decrease_factor : F;
  pe_length_increase_factor : F;
  pe_length_increase_threshold : Z
}.
Definition PhraseEnd_defaults : PhraseEndParams :=
  {| pe_timing_delay_factor := lit 8 10;
     pe_velocity_decrease_factor := lit 5 100;
     pe_length_increase_factor := lit 1 10;
     pe_length_increase_threshold := 480 |}.

Definition PhraseEndRule_apply (p : PhraseEndParams) (i : nat)
    (notes : list note_t) (context : ctx_t) : list note_t * bool :=
  match notes !! i with
  | None => (notes, false)
  | Some note =>
      if lit 9 10 <. phrase_position note then
        let delay_factor := pe_timing_delay_factor p in
        let velocity_factor := pe_velocity_decrease_factor p in
        let length_factor := pe_length_increase_factor p in
        let length_threshold := pe_length_increase_threshold p in
        let delay := py_int (of_int (mtc context) *. delay_factor) in
        let note := set_adjusted_start_time (adjusted_start_time note + delay) note in
        let note :=
          if length_threshold <? original_duration note then
            let length_increase := of_int 1 +. length_factor *. art context in
            set_adjusted_duration
              (py_int (of_int (adjusted_duration note) *. length_increase)) note
          else note in
        let note := set_adjusted_velocity
                      (Z.max 1 (py_int (of_int (velocity note)
                          *. (of_int 1 -. velocity_factor *. dyn context)))) note in
        (<[i := note]> notes, true)
      else (notes, false)
  end.

(** *** PreLeapRule *)
Record PreLeapParams := {
  pl_up_acceleration_factor : F;
  pl_down_delay_factor : F;
  pl_reduction_factor : F;
  pl_interval_threshold : Z;
  pl_min_duration : Z
}.
Definition PreLeap_defaults : PreLeapParams :=
  {| pl_up_acceleration_factor := lit (-12) 100;
     pl_down_delay_factor := lit 15 100;
     pl_reduction_factor := lit 12 100;
     pl_interval_threshold := 4;
     pl_min_duration := 3 |}.

Definition PreLeapRule_apply (p : PreLeapParams) (i : nat)
    (notes : list note_t) (context : ctx_t) : list note_t * bool :=
  match notes !! i with
  | None => (notes, false)
  | Some note =>
      let interval := interval_to_next note in
      let threshold := pl_interval_threshold p in
      if (threshold <? Z.abs interval) && has_next notes note then
        let reduction_factor := pl_reduction_factor p in
        let min_duration := pl_min_duration p in
        let timing_factor :=
          if 0 <? interval then pl_up_acceleration_factor p
          else pl_down_delay_factor p in
        let timing_change := py_int (of_int (mtc context) *. timing_factor) in
        let note := set_adjusted_start_time
                      (adjusted_start_time note + timing_change) note in
        let factor := of_int 1 -. reduction_factor *. art context in
        let note := set_adjusted_duration
                      (Z.max min_duration
                         (py_int (of_int (adjusted_duration note) *. factor))) note in
        let notes := <[i := note]> notes in
        let notes :=
          match next_note note with
          | Some j =>
              match notes !! j with
              | Some nx =>
                  <[j := set_adjusted_velocity
                           (Z.min 127 (py_int (of_int (velocity nx)
                              *. (of_int 1 +. lit 12 100 *. dyn context)))) nx]> notes
              | None => notes
              end
          | None => notes
          end in
        (notes, true)
      else (notes, false)
  end.

(** *** LocalPeakRule and DownbeatRule *)
Record DelayAccentParams := {
  da_timing_delay_factor : F;
  da_velocity_increase_factor : F
}.
Definition LocalPeak_defaults : DelayAccentParams :=
  {| da_timing_delay_factor := lit 9 10;
     da_velocity_increase_factor := lit 15 100 |}.
Definition Downbeat_defaults : DelayAccentParams :=
  {| da_timing_delay_factor := lit 5 10;
     da_velocity_increase_factor := lit 1 10 |}.

(** The common body: delay the note and raise its velocity. *)
Definition delay_and_accent (p : DelayAccentParams) (context : ctx_t)
    (note : note_t) : note_t :=
  let delay_factor := da_timing_delay_factor p in
  let velocity_factor := da_velocity_increase_factor p in
  let delay := py_int (of_int (mtc context) *. delay_factor) in
  let note := set_adjusted_start_time (adjusted_start_time note + delay) note in
  set_adjusted_velocity
    (Z.min 127 (py_int (of_int (velocity note)
                        *. (of_int 1 +. velocity_factor *. dyn context)))) note.

Definition LocalPeakRule_apply (p : DelayAccentParams) (i : nat)
    (notes : list note_t) (context : ctx_t) : list note_t * bool :=
  match notes !! i with
  | None => (notes, false)
  | Some note =>
      if has_prev notes note && has_next notes note
         && (prev_pitch notes note <? pitch note)
         && (next_pitch notes note <? pitch note)
      then (<[i := delay_and_accent p context note]> notes, true)
      else (notes, false)
  end.

Definition DownbeatRule_apply (p : DelayAccentParams) (i : nat)
    (notes : list note_t) (context : ctx_t) : list note_t * bool :=
  match notes !! i with
  | None => (notes, false)
  | Some note =>
      if is_downbeat note
      then (<[i := delay_and_accent p context note]> notes, true)
      else (notes, false)
  end.

(** *** ShortNoteRule *)
Record ShortNoteParams := {
  sn_very_short_reduction : F;
  sn_short_reduction : F;
  sn_velocity_increase : F;
  sn_very_short_threshold : F;
  sn_short_threshold : F
}.
Definition ShortNote_defaults : ShortNoteParams :=
  {| sn_very_short_reduction := lit 5 100;
     sn_short_reduction := lit 8 100;
     sn_velocity_increase := lit 6 100;
     sn_very_short_threshold := lit 625 10000;
     sn_short_threshold := lit 125 1000 |}.

(** The [if/elif/else] that picks [reduction_factor]. *)
Definition ShortNoteRule_reduction_factor (p : ShortNoteParams)
    (context : ctx_t) (relative_duration : F) : F :=
  if relative_duration <=. sn_very_short_threshold p then
    of_int 1 -. sn_very_short_reduction p *. art context
  else if relative_duration <=. sn_short_threshold p then
    of_int 1 -. sn_short_reduction p *. art context
  else
    of_int 1 -. (sn_short_reduction p *. lit 75 100) *. art context.

(** [None]: the first statement raised [ZeroDivisionError]
    ([context.ticks_per_beat] is 0) before anything was written. *)
Definition ShortNoteRule_apply (p : ShortNoteParams) (i : nat)
    (notes : list note_t) (context : ctx_t) : option (list note_t * bool) :=
  match notes !! i with
  | None => Some (notes, false)
  | Some note =>
      if tpb context =? 0 then None
      else
        let relative_duration :=
          of_int (original_duration note) /. of_int (tpb context) in
        if relative_duration <. lit 25 100 then
          let velocity_increase := sn_velocity_increase p in
          let reduction_factor :=
            ShortNoteRule_reduction_factor p context relative_duration in
          let min_duration :=
            Z.max 2 (py_int (of_int (tpb context) *. relative_duration *. lit 5 10)) in
          let note := set_adjusted_duration
                        (Z.max min_duration
                           (py_int (of_int (adjusted_duration note)
                                    *. reduction_factor))) note in
          let note := set_adjusted_velocity
                        (Z.min 127 (py_int (of_int (velocity note)
                           *. (of_int 1 +. velocity_increase *. dyn context)))) note in
          Some (<[i := note]> notes, true)
        else Some (notes, false)
  end.

(** *** LongNoteRule *)
Record LongNoteParams := {
  ln_velocity_increase : F;
  ln_threshold : F
}.
Definition LongNote_defaults : LongNoteParams :=
  {| ln_velocity_increase := lit 5 100; ln_threshold := of_int 1 |}.

Definition LongNoteRule_apply (p : LongNoteParams) (i : nat)
    (notes : list note_t) (context : ctx_t) : list note_t * bool :=
  match notes !! i with
  | None => (notes, false)
  | Some note =>
      let threshold_ticks := py_int (of_int (tpb context) *. ln_threshold p) in
      if threshold_ticks <? original_duration note then
        let velocity_increase := ln_velocity_increase p in
        let note := set_adjusted_velocity
                      (Z.min 127 (py_int (of_int (velocity note)
                         *. (of_int 1 +. velocity_increase *. dyn context)))) note in
        (<[i := note]> notes, true)
      else (notes, false)
  end.

(** *** AccelerandoRule *)
Record AccelerandoParams := {
  ac_timing_acceleration_factor : F;
  ac_min_notes_sequence : Z;
  ac_interval_threshold : Z
}.
Definition Accelerando_defaults : AccelerandoParams :=
  {| ac_timing_acceleration_factor := lit (-7) 10;
     ac_min_notes_sequence := 3;
     ac_interval_threshold := 2 |}.

Definition AccelerandoRule_apply (p : AccelerandoParams) (i : nat)
    (notes : list note_t) (context : ctx_t) : list note_t * bool :=
  match notes !! i with
  | None => (notes, false)
  | Some note =>
      if negb (has_prev notes note && has_next notes note) then (notes, false)
      else
        let is_ascending :=
          (prev_pitch notes note <? pitch note)
          && (pitch note <? next_pitch notes note) in
        let interval_threshold := ac_interval_threshold p in
        let interval_size :=
          (pitch note - prev_pitch notes note)
          + (next_pitch notes note - pitch note) in
        if is_ascending && (interval_threshold <=? interval_size) then
          let accel_factor := ac_timing_acceleration_factor p in
          let timing_change := py_int (of_int (mtc context) *. accel_factor) in
          let note := set_adjusted_start_time
                        (adjusted_start_time note + timing_change) note in
          let dynamic_boost := lit 5 100 *. dyn context in
          let note := set_adjusted_velocity
                        (Z.min 127 (py_int (of_int (adjusted_velocity note)
                                            *. (of_int 1 +. dynamic_boost)))) note in
          (<[i := note]> notes, true)
        else (notes, false)
  end.

(** *** SequenceAccelerationRule *)
Record SequenceAccelParams := {
  sa_acceleration_factor : F;
  sa_pattern_detection_window : Z;
  sa_max_acceleration : F;
  sa_dynamic_increase : F
}.
Definition SequenceAccel_defaults : SequenceAccelParams :=
  {| sa_acceleration_factor := lit (-6) 10;
     sa_pattern_detection_window := 5;
     sa_max_acceleration := lit (-9) 10;
     sa_dynamic_increase := lit 5 100 |}.

(** The rule object's own attributes. *)
Record SequenceAccelState := {
  current_sequence : list Z;
  sequence_positions : gmap (Z * Z * Z * Z) Z
}.
Definition SequenceAccel_initial : SequenceAccelState :=
  {| current_sequence := []; sequence_positions := ∅ |}.

(** [len(set(l[-i:])) == 1]. *)
Definition last_all_equal (i : nat) (l : list Z) : bool :=
  match drop (length l - i) l with
  | [] => false
  | x :: r => forallb (Z.eqb x) r
  end.

(** [for i in range(3, len(cs) + 1): ... else: break]. *)
Fixpoint count_equal_run (fuel : nat) (i : nat) (cs : list Z) (pos : Z) : Z :=
  match fuel with
  | O => pos
  | S fuel' =>
      if last_all_equal i cs
      then count_equal_run fuel' (S i) cs (Z.of_nat i - 1)
      else pos
  end.

Definition SequenceAccelerationRule_apply (p : SequenceAccelParams)
    (st : SequenceAccelState) (i : nat)
    (notes : list note_t) (context : ctx_t)
  : SequenceAccelState * list note_t * bool :=
  match notes !! i with
  | None => (st, notes, false)
  | Some note =>
      if negb (has_prev notes note) then (st, notes, false)
      else
        let note_id := (track note, channel note,
                        original_start_time note, pitch note) in
        let cs := current_sequence st ++ [interval_to_prev note] in
        let window := sa_pattern_detection_window p in
        let cs := if window <? Z.of_nat (length cs) then drop 1 cs else cs in
        let sequence_detected :=
          (3 <=? Z.of_nat (length cs))
          && bool_decide (last cs = last (removelast cs)) in
        let sequence_position :=
          if sequence_detected
          then count_equal_run (length cs - 2) 3 cs 0 else 0 in
        if sequence_detected then
          let st := {| current_sequence := cs;
                       sequence_positions :=
                         <[note_id := sequence_position]> (sequence_positions st) |} in
          let accel_factor :=
            sa_acceleration_factor p
            *. (of_int 1 +. of_int sequence_position *. lit 1 10) in
          let accel_factor := fmax accel_factor (sa_max_acceleration p) in
          let timing_change := py_int (of_int (mtc context) *. accel_factor) in
          let note := set_adjusted_start_time
                        (adjusted_start_time note + timing_change) note in
          let dynamic_increase :=
            sa_dynamic_increase p *. of_int sequence_position in
          let note := set_adjusted_velocity
                        (Z.min 127 (py_int (of_int (adjusted_velocity note)
                                            *. (of_int 1 +. dynamic_increase)))) note in
          (st, <[i := note]> notes, true)
        else
          ({| current_sequence := cs;
              sequence_positions := sequence_positions st |}, notes, false)
  end.

(** *** DirectionalRule *)
Record DirectionalParams := {
  dr_up_acceleration_factor : F;
  dr_down_delay_factor : F;
  dr_interval_threshold : Z;
  dr_velocity_adjustment : F
}.
Definition Directional_defaults : DirectionalParams :=
  {| dr_up_acceleration_factor := lit (-5) 10;
     dr_down_delay_factor := lit 4 10;
     dr_interval_threshold := 2;
     dr_velocity_adjustment := lit 4 100 |}.

Definition DirectionalRule_apply (p : DirectionalParams) (i : nat)
    (notes : list note_t) (context : ctx_t) : list note_t * bool :=
  match notes !! i with
  | None => (notes, false)
  | Some note =>
      let interval := interval_to_prev note in
      let interval_threshold := dr_interval_threshold p in
      if Z.abs interval <? interval_threshold then (notes, false)
      else
        let timing_factor :=
          if 0 <? interval then dr_up_acceleration_factor p
          else dr_down_delay_factor p in
        let velocity_adjustment :=
          if 0 <? interval then dr_velocity_adjustment p
          else fopp (dr_velocity_adjustment p) in
        let strength_multiplier :=
          fmin (lit 15 10) (of_int (Z.abs interval) /. of_int 7) in
        let adjusted_factor := timing_factor *. strength_multiplier in
        let timing_change :=
          InterpretationContext.get_timing_adjustment context adjusted_factor in
        let note := set_adjusted_start_time
                      (adjusted_start_time note + timing_change) note in
        let dynamic_change :=
          velocity_adjustment *. strength_multiplier *. dyn context in
        let current_velocity := adjusted_velocity note in
        let note := set_adjusted_velocity
                      (Z.min 127 (Z.max 1 (py_int (of_int current_velocity
                                      *. (of_int 1 +. dynamic_change))))) note in
        (<[i := note]> notes, true)
  end.

(* ================================================================== *)
(** ** conductor/bass_rules.py and conductor/inner_voice_rules.py *)
(* ================================================================== *)

(** The values [random.random()] returns, in call order; [rng] counts the
    calls made so far. *)
Variable random_random : nat -> F.

(** [random.uniform(a, b)] is [a + (b - a) * random()]. *)
Definition random_uniform (a b : F) (rng : nat) : F * nat :=
  (a +. (b -. a) *. random_random rng, S rng).
Definition random_uniform_int (a b : Z) (rng : nat) : F * nat :=
  (of_int a +. of_int (b - a) *. random_random rng, S rng).

(** *** BassDownbeatRule *)
Definition BassDownbeat_defaults : DelayAccentParams :=
  {| da_timing_delay_factor := lit 3 10;
     da_velocity_increase_factor := lit 8 100 |}.

Definition BassDownbeatRule_apply (p : DelayAccentParams) (i : nat)
    (notes : list note_t) (context : ctx_t) : list note_t * bool :=
  match notes !! i with
  | None => (notes, false)
  | Some note =>
      if is_downbeat note
      then (<[i := delay_and_accent p context note]> notes, true)
      else (notes, false)
  end.

(** *** BassShortNoteRule *)
Record BassShortParams := {
  bs_very_short_reduction : F;
  bs_short_reduction : F;
  bs_min_duration_factor : F;
  bs_min_duration_absolute : Z
}.
Definition BassShort_defaults : BassShortParams :=
  {| bs_very_short_reduction := lit 6 100;
     bs_short_reduction := lit 8 100;
     bs_min_duration_factor := lit 12 100;
     bs_min_duration_absolute := 4 |}.

Definition BassShortNoteRule_apply (p : BassShortParams) (i : nat)
    (notes : list note_t) (context : ctx_t) : list note_t * bool :=
  match notes !! i with
  | None => (notes, false)
  | Some note =>
      if of_int (original_duration note) <. of_int (tpb context) /. of_int 2 then
        let min_duration :=
          Z.max (bs_min_duration_absolute p)
                (py_int (of_int (original_duration note)
                         *. bs_min_duration_factor p)) in
        let reduction_factor :=
          if of_int (original_duration note) <. of_int (tpb context) /. of_int 4
          then of_int 1 -. bs_very_short_reduction p *. art context
          else of_int 1 -. bs_short_reduction p *. art context in
        let note := set_adjusted_duration
                      (Z.max min_duration
                         (py_int (of_int (adjusted_duration note)
                                  *. reduction_factor))) note in
        (<[i := note]> notes, true)
      else (notes, false)
  end.

(** *** BassRepeatedNotesRule *)
Record BassRepeatedParams := {
  br_velocity_variation : F;
  br_duration_variation : F;
  br_min_duration_factor : F;
  br_min_duration_absolute : Z;
  br_acceleration_factor : F;
  br_max_acceleration : F;
  br_repetition_threshold : Z
}.
Definition BassRepeated_defaults : BassRepeatedParams :=
  {| br_velocity_variation := lit 5 100;
     br_duration_variation := lit 3 100;
     br_min_duration_factor := lit 15 100;
     br_min_duration_absolute := 4;
     br_acceleration_factor := lit (-4) 100;
     br_max_acceleration := lit (-2) 10;
     br_repetition_threshold := 3 |}.

(** [self.current_repetitions]: [(track, channel, pitch) -> count]. *)
Definition repetitions : Type := gmap (Z * Z * Z) Z.

Definition BassRepeatedNotesRule_apply (p : BassRepeatedParams)
    (current_repetitions : repetitions) (i : nat)
    (notes : list note_t) (context : ctx_t) (rng : nat)
  : repetitions * list note_t * nat * bool :=
  match notes !! i with
  | None => (current_repetitions, notes, rng, false)
  | Some note =>
      let repetition_key := (track note, channel note, pitch note) in
      if has_prev notes note && (pitch note =? prev_pitch notes note) then
        let velocity_variation := br_velocity_variation p in
        let duration_variation := br_duration_variation p in
        let current_repetitions :=
          match current_repetitions !! repetition_key with
          | None => <[repetition_key := 1]> current_repetitions
          | Some c => <[repetition_key := c + 1]> current_repetitions
          end in
        let repetition_count :=
          default 0 (current_repetitions !! repetition_key) in
        let min_duration :=
          Z.max (br_min_duration_absolute p)
                (py_int (of_int (original_duration note)
                         *. br_min_duration_factor p)) in
        let '(u, rng) :=
          random_uniform (fopp velocity_variation) velocity_variation rng in
        let random_vel_factor := u *. dyn context in
        let note := set_adjusted_velocity
                      (Z.min 127 (Z.max 1 (py_int (of_int (velocity note)
                                   *. (of_int 1 +. random_vel_factor))))) note in
        let repetition_threshold := br_repetition_threshold p in
        let note :=
          if repetition_threshold <=? repetition_count then
            let accel_base := br_acceleration_factor p in
            let repetition_factor :=
              fmin (of_int 1)
                   (of_int (repetition_count - repetition_threshold + 1)
                    *. lit 2 10) in
            let acceleration :=
              accel_base *. repetition_factor
              *. InterpretationContext.rubato_strength context in
            let max_accel := br_max_acceleration p in
            let acceleration := fmax acceleration max_accel in
            let time_change := py_int (of_int (mtc context) *. acceleration) in
            let note := set_adjusted_start_time
                          (adjusted_start_time note + time_change) note in
            if repetition_threshold + 1 <? repetition_count then
              let dynamic_boost :=
                fmin (lit 15 100)
                     (lit 3 100 *. of_int (repetition_count - repetition_threshold)) in
              let current_velocity := adjusted_velocity note in
              set_adjusted_velocity
                (Z.min 127 (py_int (of_int current_velocity
                                    *. (of_int 1 +. dynamic_boost)))) note
            else note
          else note in
        let '(note, rng) :=
          if of_int (tpb context) /. of_int 4 <. of_int (original_duration note)
          then
            let '(u, rng) :=
              random_uniform (fopp duration_variation) duration_variation rng in
            let random_dur_factor := u *. art context in
            let variation_factor := of_int 1 +. random_dur_factor in
            (set_adjusted_duration
               (Z.max min_duration
                  (py_int (of_int (adjusted_duration note) *. variation_factor)))
               note, rng)
          else (note, rng) in
        (current_repetitions, <[i := note]> notes, rng, true)
      else
        (delete repetition_key current_repetitions, notes, rng, false)
  end.

(** *** BassPhraseEndRule *)
Record BassPhraseEndParams := {
  bp_length_increase_factor : F;
  bp_min_duration_threshold : F
}.
Definition BassPhraseEnd_defaults : BassPhraseEndParams :=
  {| bp_length_increase_factor := lit 15 100;
     bp_min_duration_threshold := of_int 1 |}.

Definition BassPhraseEndRule_apply (p : BassPhraseEndParams) (i : nat)
    (notes : list note_t) (context : ctx_t) : list note_t * bool :=
  match notes !! i with
  | None => (notes, false)
  | Some note =>
      if lit 9 10 <. phrase_position note then
        let length_increase_factor := bp_length_increase_factor p in
        let min_duration_ticks :=
          py_int (of_int (tpb context) *. bp_min_duration_threshold p) in
        if min_duration_ticks <? original_duration note then
          let note := set_adjusted_duration
                        (py_int (of_int (adjusted_duration note)
                           *. (of_int 1 +. length_increase_factor *. art context)))
                        note in
          (<[i := note]> notes, true)
        else (notes, false)
      else (notes, false)
  end.

(** *** InnerVoiceBaseVelocityRule *)
Record InnerBaseParams := { ib_velocity_decrease_factor : F }.
Definition InnerBase_defaults : InnerBaseParams :=
  {| ib_velocity_decrease_factor := lit 5 100 |}.

Definition InnerVoiceBaseVelocityRule_apply (p : InnerBaseParams) (i : nat)
    (notes : list note_t) (context : ctx_t) : list note_t * bool :=
  match notes !! i with
  | None => (notes, false)
  | Some note =>
      let velocity_factor := ib_velocity_decrease_factor p in
      let note := set_adjusted_velocity
                    (Z.max 1 (py_int (of_int (velocity note)
                       *. (of_int 1 -. velocity_factor *. dyn context)))) note in
      (<[i := note]> notes, true)
  end.

(** *** InnerContourRule *)
Record InnerContourParams := { ic_velocity_increase_factor : F }.
Definition InnerContour_defaults : InnerContourParams :=
  {| ic_velocity_increase_factor := lit 8 100 |}.

Definition InnerContourRule_apply (p : InnerContourParams) (i : nat)
    (notes : list note_t) (context : ctx_t) : list note_t * bool :=
  match notes !! i with
  | None => (notes, false)
  | Some note =>
      if has_prev notes note && has_next notes note then
        let is_peak := (prev_pitch notes note <? pitch note)
                       && (next_pitch notes note <? pitch note) in
        let is_valley := (pitch note <? prev_pitch notes note)
                         && (pitch note <? next_pitch notes note) in
        if is_peak || is_valley then
          let velocity_factor := ic_velocity_increase_factor p in
          let note := set_adjusted_velocity
                        (Z.min 127 (py_int (of_int (adjusted_velocity note)
                           *. (of_int 1 +. velocity_factor *. dyn context)))) note in
          (<[i := note]> notes, true)
        else (notes, false)
      else (notes, false)
  end.

(** *** InnerConsonantRule *)
Record InnerConsonantParams := {
  in_length_increase_factor : F;
  in_consonant_intervals : list Z
}.
Definition InnerConsonant_defaults : InnerConsonantParams :=
  {| in_length_increase_factor := lit 5 100;
     in_consonant_intervals := [3; 4; 7; 8; 9] |}.

Definition InnerConsonantRule_apply (p : InnerConsonantParams) (i : nat)
    (notes : list note_t) (context : ctx_t) : list note_t * bool :=
  match notes !! i with
  | None => (notes, false)
  | Some note =>
      if has_prev notes note then
        let interval := Z.abs (pitch note - prev_pitch notes note) mod 12 in
        let consonant_intervals := in_consonant_intervals p in
        if existsb (Z.eqb interval) consonant_intervals then
          let length_factor := in_length_increase_factor p in
          let note := set_adjusted_duration
                        (py_int (of_int (adjusted_duration note)
                           *. (of_int 1 +. length_factor *. art context))) note in
          (<[i := note]> notes, true)
        else (notes, false)
      else (notes, false)
  end.

(** *** InnerFlowTimingRule *)
Record InnerFlowParams := { if_max_variation_factor : F }.
Definition InnerFlow_defaults : InnerFlowParams :=
  {| if_max_variation_factor := lit 5 10 |}.

Definition InnerFlowTimingRule_apply (p : InnerFlowParams) (i : nat)
    (notes : list note_t) (context : ctx_t) (rng : nat)
  : list note_t * nat * bool :=
  match notes !! i with
  | None => (notes, rng, false)
  | Some note =>
      let variation_factor := if_max_variation_factor p in
      let max_effect := py_int (of_int (mtc context) *. variation_factor) in
      let '(u, rng) := random_uniform_int (- max_effect) max_effect rng in
      let timing_variation := py_int u in
      let note := set_adjusted_start_time
                    (adjusted_start_time note + timing_variation) note in
      (<[i := note]> notes, rng, 0 <? Z.abs timing_variation)
  end.

(** *** InnerShortNoteRule *)
Record InnerShortParams := {
  is_very_short_reduction : F;
  is_short_reduction : F;
  is_min_duration_factor : F;
  is_min_duration : Z
}.
Definition InnerShort_defaults : InnerShortParams :=
  {| is_very_short_reduction := lit 2 100;
     is_short_reduction := lit 5 100;
     is_min_duration_factor := lit 15 100;
     is_min_duration := 5 |}.

Definition InnerShortNoteRule_apply (p : InnerShortParams) (i : nat)
    (notes : list note_t) (context : ctx_t) : list note_t * bool :=
  match notes !! i with
  | None => (notes, false)
  | Some note =>
      if of_int (original_duration note) <. of_int (tpb context) /. of_int 4 then
        let calculated_min :=
          Z.max (is_min_duration p)
                (py_int (of_int (original_duration note)
                         *. is_min_duration_factor p)) in
        let reduction_factor :=
          if of_int (original_duration note) <. of_int (tpb context) /. of_int 8
          then of_int 1 -. is_very_short_reduction p *. art context
          else of_int 1 -. is_short_reduction p *. art context in
        let note := set_adjusted_duration
                      (Z.max calculated_min
                         (py_int (of_int (adjusted_duration note)
                                  *. reduction_factor))) note in
        (<[i := note]> notes, true)
      else (notes, false)
  end.

(* ================================================================== *)
(** ** conductor/rule_base.py: InterpretationRule and RuleManager *)
(* ================================================================== *)

(** The rule classes, each with its parameters and (for the two stateful
    classes) its own attributes. *)
Inductive rule_class :=
| PhraseStartRule (p : PhraseStartParams)
| PhraseEndRule (p : PhraseEndParams)
| PreLeapRule (p : PreLeapParams)
| LocalPeakRule (p : DelayAccentParams)
| DownbeatRule (p : DelayAccentParams)
| ShortNoteRule (p : ShortNoteParams)
| LongNoteRule (p : LongNoteParams)
| AccelerandoRule (p : AccelerandoParams)
| SequenceAccelerationRule (p : SequenceAccelParams) (st : SequenceAccelState)
| DirectionalRule (p : DirectionalParams)
| BassDownbeatRule (p : DelayAccentParams)
| BassShortNoteRule (p : BassShortParams)
| BassRepeatedNotesRule (p : BassRepeatedParams) (st : repetitions)
| BassPhraseEndRule (p : BassPhraseEndParams)
| InnerVoiceBaseVelocityRule (p : InnerBaseParams)
| InnerContourRule (p : InnerContourParams)
| InnerConsonantRule (p : InnerConsonantParams)
| InnerFlowTimingRule (p : InnerFlowParams)
| InnerShortNoteRule (p : InnerShortParams).

Record InterpretationRule := mk_rule {
  name : string;
  enabled : bool;
  impl : rule_class
}.

(** The outcome of one call of [rule.apply]: the rule object, the notes
    and the random-number count after the call, and the returned boolean;
    [None] when the call raised. *)
Definition outcome : Type :=
  option (InterpretationRule * list note_t * nat * bool).

Definition stateless (self : InterpretationRule) (rng : nat)
    (r : list note_t * bool) : outcome :=
  Some (self, r.1, rng, r.2).

(** Dynamic dispatch of [rule.apply(note, voice, context)]. *)
Definition apply (self : InterpretationRule) (i : nat)
    (notes : list note_t) (context : ctx_t) (rng : nat) : outcome :=
  match impl self with
  | PhraseStartRule p => stateless self rng (PhraseStartRule_apply p i notes context)
  | PhraseEndRule p => stateless self rng (PhraseEndRule_apply p i notes context)
  | PreLeapRule p => stateless self rng (PreLeapRule_apply p i notes context)
  | LocalPeakRule p => stateless self rng (LocalPeakRule_apply p i notes context)
  | DownbeatRule p => stateless self rng (DownbeatRule_apply p i notes context)
  | ShortNoteRule p =>
      match ShortNoteRule_apply p i notes context with
      | Some r => stateless self rng r
      | None => None
      end
  | LongNoteRule p => stateless self rng (LongNoteRule_apply p i notes context)
  | AccelerandoRule p => stateless self rng (AccelerandoRule_apply p i notes context)
  | SequenceAccelerationRule p st =>
      let '(st, notes, b) := SequenceAccelerationRule_apply p st i notes context in
      Some (mk_rule (name self) (enabled self) (SequenceAccelerationRule p st),
            notes, rng, b)
  | DirectionalRule p => stateless self rng (DirectionalRule_apply p i notes context)
  | BassDownbeatRule p => stateless self rng (BassDownbeatRule_apply p i notes context)
  | BassShortNoteRule p => stateless self rng (BassShortNoteRule_apply p i notes context)
  | BassRepeatedNotesRule p st =>
      let '(st, notes, rng, b) :=
        BassRepeatedNotesRule_apply p st i notes context rng in
      Some (mk_rule (name self) (enabled self) (BassRepeatedNotesRule p st),
            notes, rng, b)
  | BassPhraseEndRule p => stateless self rng (BassPhraseEndRule_apply p i notes context)
  | InnerVoiceBaseVelocityRule p =>
      stateless self rng (InnerVoiceBaseVelocityRule_apply p i notes context)
  | InnerContourRule p => stateless self rng (InnerContourRule_apply p i notes context)
  | InnerConsonantRule p => stateless self rng (InnerConsonantRule_apply p i notes context)
  | InnerFlowTimingRule p =>
      let '(notes, rng, b) := InnerFlowTimingRule_apply p i notes context rng in
      Some (self, notes, rng, b)
  | InnerShortNoteRule p => stateless self rng (InnerShortNoteRule_apply p i notes context)
  end.

End RuleClasses.
End Rules.

Module RuleManager.
Import NoteProperties Rules.

Section Manager.
Context {F : Type} `{!PyFloat F}.
Variable random_random : nat -> F.
Local Abbreviation rule_t := (@InterpretationRule F).
Local Abbreviation note_t := (NoteProperties.t F).

Record t := mk {
  rule_sets : gmap string (list rule_t);
  stats : gmap string (gmap string Z)
}.

(** [RuleManager.__init__]. *)
Definition __init__ : t :=
  mk (<["melody" := []]> (<["bass" := []]> (<["inner" := []]> ∅)))
     (<["melody" := ∅]> (<["bass" := ∅]> (<["inner" := ∅]> ∅))).

Definition register_rule (voice_type : string) (rule : rule_t) (self : t) : t :=
  match rule_sets self !! voice_type with
  | Some rules => mk (<[voice_type := rules ++ [rule]]> (rule_sets self)) (stats self)
  | None => self
  end.

(** The choice of [voice_type] from [voice.role], as written both in
    [RuleManager.apply_rules] and in
    [NoteLevelInterpreter._interpret_voice]. *)
Definition voice_type_of (role : string) : string :=
  if String.eqb role "bass" then "bass"
  else if String.eqb role "inner_voice" then "inner"
  else "melody".

(** [stats[voice_type][rule.name] += 1] (or [= 1]). *)
Definition count_application (voice_type rule_name : string)
    (stats : gmap string (gmap string Z)) : gmap string (gmap string Z) :=
  let per_type := default ∅ (stats !! voice_type) in
  let n := match per_type !! rule_name with Some n => n + 1 | None => 1 end in
  <[voice_type := <[rule_name := n]> per_type]> stats.

(** The loop [for rule in self.rule_sets[voice_type]] for the note at
    position [i]: disabled rules are skipped, a rule that raises is logged
    and skipped.  Returns the rule objects, the notes, the random-number
    count, the statistics and the number of rules that returned [True]. *)
Fixpoint apply_rules_to_note (voice_type : string) (rules : list rule_t)
    (i : nat) (notes : list note_t) (context : InterpretationContext.t F)
    (rng : nat) (stats : gmap string (gmap string Z))
  : list rule_t * list note_t * nat * gmap string (gmap string Z) * Z :=
  match rules with
  | [] => ([], notes, rng, stats, 0)
  | rule :: rest =>
      if enabled rule then
        match apply random_random rule i notes context rng with
        | Some (rule', notes', rng', applied) =>
            let stats' :=
              if applied then count_application voice_type (name rule) stats
              else stats in
            let '(rest', notes'', rng'', stats'', n) :=
              apply_rules_to_note voice_type rest i notes' context rng' stats' in
            (rule' :: rest', notes'', rng'', stats'',
             if applied then n + 1 else n)
        | None =>
            let '(rest', notes'', rng'', stats'', n) :=
              apply_rules_to_note voice_type rest i notes context rng stats in
            (rule :: rest', notes'', rng'', stats'', n)
        end
      else
        let '(rest', notes'', rng'', stats'', n) :=
          apply_rules_to_note voice_type rest i notes context rng stats in
        (rule :: rest', notes'', rng'', stats'', n)
  end.

(** [apply_rules(voice, context)]: returns the manager, the voice, the
    random-number count and [applied_count]. *)
Definition apply_rules (self : t) (voice : MusicalVoice.t F)
    (context : InterpretationContext.t F) (rng : nat)
  : t * MusicalVoice.t F * nat * Z :=
  let voice_type := voice_type_of (MusicalVoice.role voice) in
  match rule_sets self !! voice_type with
  | None => (self, voice, rng, 0)
  | Some _ =>
      let '(self, notes, rng, count) :=
        foldl (fun '(self, notes, rng, count) i =>
                 let rules := default [] (rule_sets self !! voice_type) in
                 let '(rules, notes, rng, stats, n) :=
                   apply_rules_to_note voice_type rules i notes context rng
                     (stats self) in
                 (mk (<[voice_type := rules]> (rule_sets self)) stats,
                  notes, rng, count + n))
              (self, MusicalVoice.notes voice, rng, 0)
              (seq 0 (length (MusicalVoice.notes voice))) in
      (self, MusicalVoice.set_notes notes voice, rng, count)
  end.

End Manager.
Arguments t : clear implicits.
End RuleManager.

(* ================================================================== *)
(** ** conductor/orchestral_conductor.py *)
(* ================================================================== *)

Module OrchestralConductor.
Import NoteProperties.

Section Conductor.
Context {F : Type} `{!PyFloat F}.
Import Py.Notations.
Local Open Scope py_scope.
Local Abbreviation note_t := (NoteProperties.t F).
Local Abbreviation voice_t := (MusicalVoice.t F).

(** [numpy.sin], [numpy.pi]. *)
Variable np_sin : F -> F.
Variable np_pi : F.

(** [self.stats]. *)
Record stats_t := mk_stats {
  phrase_count : Z;
  cadence_count : Z;
  measure_count : Z;
  avg_wave_amplitude : F;
  max_acceleration : F;
  max_delay : F
}.

Record t := mk {
  expressiveness : F;
  wave_strength : F;
  wave_complexity : F;
  agogic_map : list (Z * F);
  phrase_boundaries : list (Z * Z);
  cadences : list Z;
  gravity_centers : list (Z * F);
  stats : stats_t
}.

(** [OrchestralConductor.__init__]. *)
Definition __init__ (expressiveness wave_strength wave_complexity : F) : t :=
  mk expressiveness wave_strength wave_complexity [] [] [] []
     (mk_stats 0 0 0 (of_int 0) (of_int 0) (of_int 0)).

Definition default_expressiveness : F := lit 7 10.
Definition default_wave_strength : F := lit 8 10.
Definition default_wave_complexity : F := of_int 1.

Definition set_structure (pb : list (Z * Z)) (cs : list Z)
    (gc : list (Z * F)) (pc cc mc : Z) (self : t) : t :=
  mk (expressiveness self) (wave_strength self) (wave_complexity self)
     (agogic_map self) pb cs gc
     (mk_stats pc cc mc (avg_wave_amplitude (stats self))
        (max_acceleration (stats self)) (max_delay (stats self))).

Definition set_measure_count (mc : Z) (self : t) : t :=
  set_structure (phrase_boundaries self) (cadences self) (gravity_centers self)
    (phrase_count (stats self)) (cadence_count (stats self)) mc self.

Definition set_agogic_map (m : list (Z * F)) (avg acc del : F) (self : t) : t :=
  mk (expressiveness self) (wave_strength self) (wave_complexity self)
     m (phrase_boundaries self) (cadences self) (gravity_centers self)
     (mk_stats (phrase_count (stats self)) (cadence_count (stats self))
        (measure_count (stats self)) avg acc del).

(** [_estimate_measure_number]: notes carry no [measure_number]
    attribute, so the estimate from the start time is taken. *)
Definition _estimate_measure_number (note : note_t) : Z :=
  let ticks_per_measure := 1920 in
  original_start_time note / ticks_per_measure.

Definition _get_measure_from_note_index (voice : voice_t) (note_index : nat)
  : option Z :=
  match MusicalVoice.notes voice !! note_index with
  | Some note => Some (_estimate_measure_number note)
  | None => None
  end.

(** The body of [for i in range(0, n, 8)] shared by the two default
    structures; [last] is the largest admissible phrase end. *)
Definition default_phrase (last : Z)
    (acc : list (Z * Z) * list Z * list (Z * F)) (i : Z)
  : list (Z * Z) * list Z * list (Z * F) :=
  let '(pb, cs, gc) := acc in
  let end_ := Z.min (i + 7) last in
  let pb := pb ++ [(i, end_)] in
  let cs := cs ++ [end_] in
  let gc := PyDict.set end_ (lit 6 10) gc in
  let mid := i + 4 in
  let gc := if mid <? end_ then PyDict.set mid (lit 3 10) gc else gc in
  (pb, cs, gc).

(** [_create_default_structure(measure_count)]. *)
Definition _create_default_structure (measure_count : Z) (self : t) : t :=
  let measure_count := if measure_count <=? 0 then 16 else measure_count in
  let '(pb, cs, gc) :=
    foldl (default_phrase (measure_count - 1)) ([], [], [])
          (PyList.range 0 measure_count 8) in
  set_structure pb cs gc (Z.of_nat (length pb)) (Z.of_nat (length cs))
    measure_count self.

(** [_create_default_structure_from_voices(voices, max_measure)]. *)
Definition _create_default_structure_from_voices (voices : list voice_t)
    (max_measure : Z) (self : t) : t :=
  let max_measure :=
    if max_measure <=? 0 then
      foldl (fun mm voice =>
               match last (MusicalVoice.notes voice) with
               | Some last_note => Z.max mm (_estimate_measure_number last_note)
               | None => mm
               end) 0 voices
    else max_measure in
  let max_measure := Z.max 16 max_measure in
  let '(pb, cs, gc) :=
    foldl (default_phrase max_measure) ([], [], [])
          (PyList.range 0 max_measure 8) in
  set_structure pb cs gc (Z.of_nat (length pb)) (Z.of_nat (length cs))
    (max_measure + 1) self.

(** An entry of [all_phrase_boundaries]:
    [(start_measure, end_measure, voice_idx, phrase_type)]. *)
Definition boundary : Type := Z * Z * nat * string.
Definition b_start (b : boundary) : Z := b.1.1.1.
Definition b_end (b : boundary) : Z := b.1.1.2.

(** The collection phase, for one voice. *)
Definition collect_voice (voice_idx : nat) (voice : voice_t)
  : list boundary :=
  omap (fun '(phrase_start, phrase_end, phrase_type) =>
          match _get_measure_from_note_index voice phrase_start,
                _get_measure_from_note_index voice phrase_end with
          | Some start_measure, Some end_measure =>
              Some (start_measure, end_measure, voice_idx, phrase_type)
          | _, _ => None
          end)
       (MusicalVoice.phrases voice).

Definition collect_boundaries (voices : list voice_t) : list boundary :=
  concat (imap collect_voice voices).

Definition max_measure_found (voices : list voice_t) : Z :=
  foldl (fun mm voice =>
           foldl (fun mm note => Z.max mm (_estimate_measure_number note))
                 mm (MusicalVoice.notes voice))
        0 voices.

(** The grouping loop: the state is [(current_group, grouped_boundaries)]. *)
Fixpoint group_loop (bs : list boundary) (current_group : list boundary)
    (grouped_boundaries : list (list boundary)) : list (list boundary) :=
  match bs with
  | [] =>
      match current_group with
      | [] => grouped_boundaries
      | _ => grouped_boundaries ++ [current_group]
      end
  | b :: bs' =>
      match last current_group with
      | None => group_loop bs' (current_group ++ [b]) grouped_boundaries
      | Some prev =>
          if Z.abs (b_start b - b_start prev) <=? 1
          then group_loop bs' (current_group ++ [b]) grouped_boundaries
          else group_loop bs' [b] (grouped_boundaries ++ [current_group])
      end
  end.

Definition group_boundaries (all_phrase_boundaries : list boundary)
  : list (list boundary) :=
  group_loop all_phrase_boundaries [] [].

(** [len(group) >= max(1, len(voices) // 3)]. *)
Definition group_promoted (n_voices : nat) (group : list boundary) : bool :=
  Z.max 1 (Z.of_nat n_voices / 3) <=? Z.of_nat (length group).

(** [cadence_likelihood = len(group) / len(voices)]. *)
Definition cadence_likelihood (n_voices : nat) (group : list boundary) : F :=
  of_int (Z.of_nat (length group)) /. of_int (Z.of_nat n_voices).

(** [cadence_likelihood >= 0.5]. *)
Definition is_cadence (n_voices : nat) (group : list boundary) : bool :=
  lit 5 10 <=. cadence_likelihood n_voices group.

(** [min(1.0, 0.7 + cadence_likelihood * 0.3)]. *)
Definition cadence_gravity (n_voices : nat) (group : list boundary) : F :=
  fmin (of_int 1) (lit 7 10 +. cadence_likelihood n_voices group *. lit 3 10).

Definition group_phrase (group : list boundary) : Z * Z :=
  let avg_start := of_int (PyList.sum (map b_start group))
                   /. of_int (Z.of_nat (length group)) in
  let avg_end := of_int (PyList.sum (map b_end group))
                 /. of_int (Z.of_nat (length group)) in
  (py_round avg_start, py_round avg_end).

(** The body of [for group in grouped_boundaries]; the state is
    [(self.phrase_boundaries, self.cadences, self.gravity_centers)]. *)
Definition process_group (n_voices : nat)
    (acc : list (Z * Z) * list Z * list (Z * F)) (group : list boundary)
  : list (Z * Z) * list Z * list (Z * F) :=
  let '(pb, cs, gc) := acc in
  if group_promoted n_voices group then
    let '(phrase_start, phrase_end) := group_phrase group in
    let pb := pb ++ [(phrase_start, phrase_end)] in
    if is_cadence n_voices group then
      (pb, cs ++ [phrase_end],
       PyDict.set phrase_end (cadence_gravity n_voices group) gc)
    else (pb, cs, gc)
  else (pb, cs, gc).

Definition by_start_measure (a b : boundary) : bool := b_start a <=? b_start b.

(** [analyze_structure(voices)]. *)
Definition analyze_structure (voices : list voice_t) (self : t) : t :=
  match voices with
  | [] => _create_default_structure 16 self
  | _ =>
      let all_phrase_boundaries := collect_boundaries voices in
      let max_measure_found := max_measure_found voices in
      match all_phrase_boundaries with
      | [] => _create_default_structure_from_voices voices max_measure_found self
      | b0 :: _ =>
          let all_phrase_boundaries :=
            PyList.sorted by_start_measure all_phrase_boundaries in
          let max_measure :=
            foldl Z.max (b_end b0) (map b_end all_phrase_boundaries) in
          let measure_count := Z.max (max_measure + 1) (max_measure_found + 1) in
          let grouped_boundaries := group_boundaries all_phrase_boundaries in
          let '(pb, cs, gc) :=
            foldl (process_group (length voices))
                  ([], cadences self, gravity_centers self)
                  grouped_boundaries in
          set_structure pb cs gc (Z.of_nat (length pb)) (Z.of_nat (length cs))
            measure_count self
      end
  end.

(** *** Wave functions *)

(** [numpy.linspace(start, stop, num)] for [num >= 1]. *)
Definition np_linspace (start stop : F) (num : nat) : list F :=
  match num with
  | 1%nat => [start]
  | _ =>
      let step := (stop -. start) /. of_int (Z.of_nat num - 1) in
      map (fun i : nat => if (S i =? num)%nat then stop
                    else of_int (Z.of_nat i) *. step +. start)
          (seq 0 num)
  end.

(** [numpy.max], [numpy.min] of a one-dimensional array. *)
Definition np_max (l : list F) : F :=
  match l with [] => of_int 0 | x :: r => foldl fmax x r end.
Definition np_min (l : list F) : F :=
  match l with [] => of_int 0 | x :: r => foldl fmin x r end.

(** [_generate_simple_wave(length, amplitude)]; [raises] tells whether the
    [try] block raised, in which case the alternating values are
    returned. *)
Definition _generate_simple_wave (raises : bool) (length : Z) (amplitude : F)
  : list F :=
  let length := if length <=? 0 then 16 else length in
  let amplitude := if amplitude <=. of_int 0 then lit 5 10 else amplitude in
  if raises then
    map (fun i : nat => amplitude *. (if Z.of_nat i mod 2 =? 0 then lit 5 10
                                else lit (-5) 10))
        (seq 0 (Z.to_nat length))
  else
    map (fun i : nat => amplitude *. np_sin (of_int 2 *. np_pi *. of_int (Z.of_nat i)
                                       /. of_int 8))
        (seq 0 (Z.to_nat length)).

(** What can go wrong inside [create_agogic_map]: each flag says that the
    corresponding [try] block raised. *)
Record faults := mk_faults {
  complex_wave_raises : bool;
  simple_wave_raises : bool;
  map_construction_raises : bool;
  fallback_wave_raises : bool
}.
Definition no_fault : faults := mk_faults false false false false.

(** [_generate_wave_function(length, amplitude, frequency, complexity)];
    [r1], [r2], [r3] are the three values of [numpy.random.rand()]. *)
Definition _generate_wave_function (fl : faults) (r1 r2 r3 : F)
    (length : Z) (amplitude frequency complexity : F) : list F :=
  let length := if length <=? 0 then 16 else length in
  let amplitude := if amplitude <=. of_int 0 then lit 5 10 else amplitude in
  let frequency := if frequency <=. of_int 0 then lit 2 10 else frequency in
  let complexity :=
    if (complexity <. of_int 0) || (of_int 1 <. complexity)
    then lit 5 10 else complexity in
  if complex_wave_raises fl then
    _generate_simple_wave (simple_wave_raises fl) length amplitude
  else
    let x := np_linspace (of_int 0)
               (of_int 2 *. np_pi *. frequency *. of_int length)
               (Z.to_nat length) in
    let wave := map (fun xi => amplitude *. np_sin xi) x in
    let combined_wave :=
      if of_int 0 <. complexity then
        map (fun xi =>
               let short_waves := lit 3 10 *. amplitude *. complexity
                                  *. np_sin (xi *. lit 31 10 +. r1 *. np_pi) in
               let medium_waves := lit 2 10 *. amplitude *. complexity
                                   *. np_sin (xi *. lit 17 10 +. r2 *. np_pi) in
               let long_waves := lit 1 10 *. amplitude *. complexity
                                 *. np_sin (xi *. lit 5 10 +. r3 *. np_pi) in
               amplitude *. np_sin xi +. short_waves +. medium_waves +. long_waves)
            x
      else wave in
    let max_val := fmax (fabs (np_max combined_wave)) (fabs (np_min combined_wave)) in
    if of_int 0 <. max_val
    then map (fun c => c /. max_val *. amplitude) combined_wave
    else combined_wave.

(** [modified_wave[k]] and [modified_wave[k] = v] for an index the source
    has tested to lie in [0, measure_count). *)
Definition wave_get (w : list F) (k : Z) : F :=
  default (of_int 0) (w !! Z.to_nat k).
Definition wave_set (w : list F) (k : Z) (v : F) : list F :=
  <[Z.to_nat k := v]> w.

(** Loop A: phrase boundaries. *)
Definition emphasize_phrase (self : t) (measure_count : Z)
    (w : list F) (se : Z * Z) : list F :=
  let '(start, end_) := se in
  let w :=
    if (0 <=? end_) && (end_ <? measure_count) then
      let phrase_end_factor :=
        fmin (of_int 1) (lit 6 10 +. expressiveness self *. lit 4 10) in
      if (0 <? end_) && (end_ <? measure_count - 1) then
        let w := wave_set w (end_ - 1)
                   (fmin (wave_get w (end_ - 1) +. lit 3 10 *. phrase_end_factor)
                         (of_int 1)) in
        wave_set w end_
          (fmin (wave_get w end_ +. lit 6 10 *. phrase_end_factor) (of_int 1))
      else w
    else w in
  if (0 <=? start) && (start <? measure_count) then
    if start + 1 <? measure_count then
      wave_set w (start + 1)
        (fmax (wave_get w (start + 1) -. lit 25 100 *. expressiveness self)
              (of_int (-1)))
    else w
  else w.

(** Loop B: cadences. *)
Definition emphasize_cadence (self : t) (measure_count : Z)
    (w : list F) (cadence : Z) : list F :=
  if (0 <=? cadence) && (cadence <? measure_count) then
    let cadence_factor :=
      fmin (of_int 1) (lit 8 10 +. expressiveness self *. lit 2 10) in
    let w := wave_set w cadence
               (fmin (wave_get w cadence +. lit 8 10 *. cadence_factor) (of_int 1)) in
    if 0 <? cadence then
      wave_set w (cadence - 1)
        (fmin (wave_get w (cadence - 1) +. lit 5 10 *. cadence_factor) (of_int 1))
    else w
  else w.

(** Loop C: gravity centers. *)
Definition reinforce_gravity (self : t) (measure_count : Z)
    (w : list F) (ms : Z * F) : list F :=
  let '(measure, strength) := ms in
  if (0 <=? measure) && (measure <? measure_count) then
    let gravity_effect := strength *. expressiveness self *. lit 4 10 in
    if of_int 0 <. wave_get w measure then
      wave_set w measure (fmin (wave_get w measure +. gravity_effect) (of_int 1))
    else if wave_get w measure <. of_int 0 then
      wave_set w measure (fmax (wave_get w measure -. gravity_effect) (of_int (-1)))
    else w
  else w.

(** [{i: wave[i] for i in range(measure_count)}]. *)
Definition map_of_wave (measure_count : Z) (w : list F) : list (Z * F) :=
  map (fun i : nat => (Z.of_nat i, wave_get w (Z.of_nat i)))
      (seq 0 (Z.to_nat measure_count)).

Definition wave_avg (measure_count : Z) (w : list F) : F :=
  foldl (fun s v => s +. fabs v) (of_int 0) w /. of_int measure_count.
Definition wave_max_acceleration (w : list F) : F :=
  if np_min w <. of_int 0 then fabs (np_min w) else of_int 0.
Definition wave_max_delay (w : list F) : F :=
  if of_int 0 <. np_max w then np_max w else of_int 0.

(** [_create_fallback_agogic_map]. *)
Definition _create_fallback_agogic_map (raises : bool) (self : t) : t :=
  let measure_count := measure_count (stats self) in
  let measure_count := if measure_count <=? 0 then 16 else measure_count in
  let simple_wave :=
    _generate_simple_wave raises measure_count (wave_strength self *. lit 7 10) in
  set_agogic_map (map_of_wave measure_count simple_wave)
    (wave_avg measure_count simple_wave)
    (wave_max_acceleration simple_wave) (wave_max_delay simple_wave) self.

(** [create_agogic_map]. *)
Definition create_agogic_map (fl : faults) (r1 r2 r3 : F) (self : t) : t :=
  let measure_count := measure_count (stats self) in
  let self := if measure_count <=? 0 then set_measure_count 16 self else self in
  let measure_count := if measure_count <=? 0 then 16 else measure_count in
  if map_construction_raises fl then
    _create_fallback_agogic_map (fallback_wave_raises fl) self
  else
    let base_wave :=
      _generate_wave_function fl r1 r2 r3 measure_count (wave_strength self)
        (lit 15 100) (wave_complexity self) in
    let modified_wave := base_wave in
    let modified_wave :=
      foldl (emphasize_phrase self measure_count) modified_wave
            (phrase_boundaries self) in
    let modified_wave :=
      foldl (emphasize_cadence self measure_count) modified_wave (cadences self) in
    let modified_wave :=
      foldl (reinforce_gravity self measure_count) modified_wave
            (gravity_centers self) in
    set_agogic_map (map_of_wave measure_count modified_wave)
      (wave_avg measure_count modified_wave)
      (wave_max_acceleration modified_wave) (wave_max_delay modified_wave) self.

(** [get_timing_direction(measure_number, beat_position)]; the
    interpreter always passes a beat position. *)
Definition get_timing_direction (self : t) (measure_number : Z)
    (beat_position : F) : F :=
  match agogic_map self with
  | [] => of_int 0
  | (k0, _) :: rest =>
      let max_measure := foldl Z.max k0 (map fst rest) in
      let measure_number := Z.max 0 (Z.min measure_number max_measure) in
      let base_direction :=
        default (of_int 0) (PyDict.get measure_number (agogic_map self)) in
      let beat_position :=
        if (beat_position <. of_int 0) || (of_int 1 <. beat_position)
        then lit 5 10 else beat_position in
      if (existsb (Z.eqb measure_number) (cadences self)
          || existsb (fun '(_, end_) => end_ =? measure_number)
                     (phrase_boundaries self))
         && (lit 5 10 <. beat_position)
      then
        let enhancement := (beat_position -. lit 5 10) *. of_int 2 *. lit 3 10 in
        fmin (base_direction +. enhancement) (of_int 1)
      else if PyDict.mem measure_number (gravity_centers self) then
        let center_distance := fabs (beat_position -. lit 5 10) in
        let center_effect :=
          (lit 5 10 -. center_distance) *. of_int 2 *. lit 2 10 in
        if of_int 0 <. base_direction
        then fmin (base_direction +. center_effect) (of_int 1)
        else if base_direction <. of_int 0
        then fmax (base_direction -. center_effect) (of_int (-1))
        else base_direction
      else base_direction
  end.

End Conductor.
Arguments t : clear implicits.
End OrchestralConductor.

(* ================================================================== *)
(** ** conductor/note_manipulator.py *)
(* ================================================================== *)

Module NoteLevelInterpreter.
Import NoteProperties Rules.

Section Interpreter.
Context {F : Type} `{!PyFloat F}.
Import Py.Notations.
Local Open Scope py_scope.
Local Abbreviation note_t := (NoteProperties.t F).
Local Abbreviation voice_t := (MusicalVoice.t F).
Local Abbreviation rule_t := (@InterpretationRule F).

Variable np_sin : F -> F.
Variable np_pi : F.
Variable random_random : nat -> F.

(** The counters of [self.stats] (its averages and extrema, computed for
    the log and the report only, are left out). *)
Record stats_t := mk_stats {
  adjusted_notes : Z;
  corrected_durations : Z;
  critical_corrections : Z
}.

(** The interpreter object; [rng] counts the calls of [random.random()]
    made so far by the rules. *)
Record t := mk {
  expressiveness : F;
  rubato_strength : F;
  articulation_strength : F;
  dynamics_strength : F;
  voices : list voice_t;
  ticks_per_beat : Z;
  rule_manager : RuleManager.t F;
  orchestral_conductor : OrchestralConductor.t F;
  stats : stats_t;
  rng : nat
}.

(** [_load_default_rules]: every rule class with its default parameters,
    in registration order. *)
Definition _load_default_rules (rm : RuleManager.t F) : RuleManager.t F :=
  let reg := RuleManager.register_rule in
  let rm := reg "melody" (mk_rule "phrase_start" true (PhraseStartRule PhraseStart_defaults)) rm in
  let rm := reg "melody" (mk_rule "phrase_end" true (PhraseEndRule PhraseEnd_defaults)) rm in
  let rm := reg "melody" (mk_rule "pre_leap" true (PreLeapRule PreLeap_defaults)) rm in
  let rm := reg "melody" (mk_rule "local_peak" true (LocalPeakRule LocalPeak_defaults)) rm in
  let rm := reg "melody" (mk_rule "downbeat" true (DownbeatRule Downbeat_defaults)) rm in
  let rm := reg "melody" (mk_rule "short_note" true (ShortNoteRule ShortNote_defaults)) rm in
  let rm := reg "melody" (mk_rule "long_note" true (LongNoteRule LongNote_defaults)) rm in
  let rm := reg "melody" (mk_rule "accelerando" true (AccelerandoRule Accelerando_defaults)) rm in
  let rm := reg "melody" (mk_rule "sequence_accel" true
              (SequenceAccelerationRule SequenceAccel_defaults SequenceAccel_initial)) rm in
  let rm := reg "melody" (mk_rule "directional_timing" true (DirectionalRule Directional_defaults)) rm in
  let rm := reg "bass" (mk_rule "bass_downbeat" true (BassDownbeatRule BassDownbeat_defaults)) rm in
  let rm := reg "bass" (mk_rule "bass_short" true (BassShortNoteRule BassShort_defaults)) rm in
  let rm := reg "bass" (mk_rule "bass_repeated" true
              (BassRepeatedNotesRule BassRepeated_defaults ∅)) rm in
  let rm := reg "bass" (mk_rule "bass_phrase_end" true (BassPhraseEndRule BassPhraseEnd_defaults)) rm in
  let rm := reg "inner" (mk_rule "inner_base_velocity" true (InnerVoiceBaseVelocityRule InnerBase_defaults)) rm in
  let rm := reg "inner" (mk_rule "inner_contour" true (InnerContourRule InnerContour_defaults)) rm in
  let rm := reg "inner" (mk_rule "inner_consonant" true (InnerConsonantRule InnerConsonant_defaults)) rm in
  let rm := reg "inner" (mk_rule "inner_timing_flow" true (InnerFlowTimingRule InnerFlow_defaults)) rm in
  reg "inner" (mk_rule "inner_short_note" true (InnerShortNoteRule InnerShort_defaults)) rm.

(** [NoteLevelInterpreter.__init__] (without a rule configuration file). *)
Definition __init__ (expressiveness rubato_strength articulation_strength
                     dynamics_strength : F) : t :=
  mk expressiveness rubato_strength articulation_strength dynamics_strength
     [] 480 (_load_default_rules RuleManager.__init__)
     (OrchestralConductor.__init__ expressiveness
        (rubato_strength *. lit 9 10) (lit 8 10))
     (mk_stats 0 0 0) 0.

Definition set_voices (vs : list voice_t) (self : t) : t :=
  mk (expressiveness self) (rubato_strength self) (articulation_strength self)
     (dynamics_strength self) vs (ticks_per_beat self) (rule_manager self)
     (orchestral_conductor self) (stats self) (rng self).

Definition set_orchestral_conductor (oc : OrchestralConductor.t F) (self : t) : t :=
  mk (expressiveness self) (rubato_strength self) (articulation_strength self)
     (dynamics_strength self) (voices self) (ticks_per_beat self)
     (rule_manager self) oc (stats self) (rng self).

Definition set_rules (rm : RuleManager.t F) (k : nat) (adjusted : Z) (self : t) : t :=
  mk (expressiveness self) (rubato_strength self) (articulation_strength self)
     (dynamics_strength self) (voices self) (ticks_per_beat self)
     rm (orchestral_conductor self)
     (mk_stats adjusted (corrected_durations (stats self))
        (critical_corrections (stats self))) k.

Definition set_corrections (corrected critical : Z) (self : t) : t :=
  mk (expressiveness self) (rubato_strength self) (articulation_strength self)
     (dynamics_strength self) (voices self) (ticks_per_beat self)
     (rule_manager self) (orchestral_conductor self)
     (mk_stats (adjusted_notes (stats self)) corrected critical) (rng self).

(** [_get_measure_number]: the [ZeroDivisionError] of a zero
    [ticks_per_beat] is caught and answered by 0. *)
Definition _get_measure_number (self : t) (note : note_t) : Z :=
  let ticks_per_measure := ticks_per_beat self * 4 in
  if ticks_per_measure =? 0 then 0
  else original_start_time note / ticks_per_measure.

(** [_get_beat_position]. *)
Definition _get_beat_position (self : t) (note : note_t) : F :=
  metric_position note.

(** The body of [for note_idx, note in enumerate(voice.notes)] in
    [_interpret_voice]; the state is the interpreter (rule objects,
    statistics, random numbers), the voice's notes and
    [timing_direction_cache]. *)
Definition interpret_note (role : string)
    (st : t * list note_t * list (Z * F)) (note_idx : nat)
  : t * list note_t * list (Z * F) :=
  let '(self, notes, timing_direction_cache) := st in
  match notes !! note_idx with
  | None => st
  | Some note =>
      let measure := _get_measure_number self note in
      let '(timing_direction_bias, timing_direction_cache) :=
        match PyDict.get measure timing_direction_cache with
        | Some bias => (bias, timing_direction_cache)
        | None =>
            let beat_position := _get_beat_position self note in
            let bias := OrchestralConductor.get_timing_direction
                          (orchestral_conductor self) measure beat_position in
            (bias, PyDict.set measure bias timing_direction_cache)
        end in
      let context :=
        InterpretationContext.__init__ (ticks_per_beat self)
          (expressiveness self) (rubato_strength self)
          (articulation_strength self) (dynamics_strength self)
          timing_direction_bias in
      let voice_type := RuleManager.voice_type_of role in
      let rm := rule_manager self in
      let '(rm, notes, k) :=
        match RuleManager.rule_sets rm !! voice_type with
        | Some rules =>
            let '(rules, notes, k, rule_stats, _) :=
              RuleManager.apply_rules_to_note random_random voice_type rules
                note_idx notes context (rng self) (RuleManager.stats rm) in
            (RuleManager.mk (<[voice_type := rules]> (RuleManager.rule_sets rm))
               rule_stats, notes, k)
        | None => (rm, notes, rng self)
        end in
      let is_adjusted :=
        match notes !! note_idx with
        | Some note =>
            negb (adjusted_start_time note =? original_start_time note)
            || negb (adjusted_duration note =? original_duration note)
            || negb (adjusted_velocity note =? velocity note)
        | None => false
        end in
      let adjusted :=
        if is_adjusted then adjusted_notes (stats self) + 1
        else adjusted_notes (stats self) in
      (set_rules rm k adjusted self, notes, timing_direction_cache)
  end.

(** [_interpret_voice(voice)]. *)
Definition _interpret_voice (self : t) (voice : voice_t) : t * voice_t :=
  let '(self, notes, _) :=
    foldl (interpret_note (MusicalVoice.role voice))
          (self, MusicalVoice.notes voice, [])
          (seq 0 (length (MusicalVoice.notes voice))) in
  (self, MusicalVoice.set_notes notes voice).

(** *** The safety pass *)

(** [min_percent], by the tier of the original relative duration.  The
    function is only called under [relative_duration <= 0.25]. *)
Definition min_percent (relative_duration : F) : F :=
  if relative_duration <=. lit 625 10000 then lit 9 10
  else if relative_duration <=. lit 125 1000 then lit 8 10
  else if relative_duration <=. lit 25 100 then lit 7 10
  else lit 6 10.

(** [absolute_min = max(2, int(ticks_per_beat * relative_duration * 0.5))]. *)
Definition absolute_min (ticks_per_beat : Z) (relative_duration : F) : Z :=
  Z.max 2 (py_int (of_int ticks_per_beat *. relative_duration *. lit 5 10)).

(** [min_duration], the floor of the note. *)
Definition min_duration (ticks_per_beat : Z) (note : note_t) : Z :=
  let relative_duration :=
    of_int (original_duration note) /. of_int ticks_per_beat in
  Z.max (absolute_min ticks_per_beat relative_duration)
        (py_int (of_int (original_duration note) *. min_percent relative_duration)).

(** The outer test [relative_duration <= 0.25]: whether the pass looks at
    the note at all.  With [ticks_per_beat = 0] the division raises and
    the note is skipped. *)
Definition is_checked (ticks_per_beat : Z) (note : note_t) : bool :=
  negb (ticks_per_beat =? 0)
  && (of_int (original_duration note) /. of_int ticks_per_beat <=. lit 25 100).

(** What the pass does to one note. *)
Inductive correction := Unchanged | Corrected | CriticallyCorrected.

Definition validate_note (ticks_per_beat : Z) (note : note_t)
  : note_t * correction :=
  if is_checked ticks_per_beat note then
    let min_duration := min_duration ticks_per_beat note in
    if adjusted_duration note <? min_duration then
      let old_duration := adjusted_duration note in
      (set_adjusted_duration min_duration note,
       if of_int old_duration <. of_int min_duration *. lit 5 10
       then CriticallyCorrected else Corrected)
    else (note, Unchanged)
  else (note, Unchanged).

Definition is_correction (c : correction) : bool :=
  match c with Unchanged => false | _ => true end.
Definition is_critical (c : correction) : bool :=
  match c with CriticallyCorrected => true | _ => false end.

Definition count (f : correction -> bool) (cs : list correction) : Z :=
  Z.of_nat (length (filter (fun c => f c = true) cs)).

Definition validate_voice (ticks_per_beat : Z) (voice : voice_t)
  : voice_t * list correction :=
  let r := map (validate_note ticks_per_beat) (MusicalVoice.notes voice) in
  (MusicalVoice.set_notes (map fst r) voice, map snd r).

(** [_validate_and_fix_note_durations]. *)
Definition _validate_and_fix_note_durations (self : t) : t :=
  let r := map (validate_voice (ticks_per_beat self)) (voices self) in
  let corrections := concat (map snd r) in
  let corrected_notes := count is_correction corrections in
  let critical_notes := count is_critical corrections in
  let self := set_voices (map fst r) self in
  if 0 <? corrected_notes
  then set_corrections corrected_notes critical_notes self
  else self.

(** The rule-application loop of [interpret]:
    [for voice_idx, voice in enumerate(self.voices)]. *)
Definition interpret_voices (self : t) : t :=
  let '(self, vs) :=
    foldl (fun '(self, done) voice =>
             let '(self, voice) := _interpret_voice self voice in
             (self, done ++ [voice]))
          (self, []) (voices self) in
  set_voices vs self.

(** [interpret]: structure analysis and agogic map, rule application over
    all voices, then the safety pass. *)
Definition interpret (fl : OrchestralConductor.faults) (r1 r2 r3 : F)
    (self : t) : t :=
  let oc := OrchestralConductor.analyze_structure (voices self)
              (orchestral_conductor self) in
  let oc := OrchestralConductor.create_agogic_map np_sin np_pi fl r1 r2 r3 oc in
  let self := set_orchestral_conductor oc self in
  let self := interpret_voices self in
  _validate_and_fix_note_durations self.

End Interpreter.
Arguments t : clear implicits.
End NoteLevelInterpreter.

(* ================================================================== *)
(** ** dynamics.py: the anchor points of the score-phrase-based curve *)
(* ================================================================== *)

Module Dynamics.
Section Points.
Context {F : Type} `{!PyFloat F}.
Import Py.Notations.
Local Open Scope py_scope.

(** A dynamic point [(offset, dynamic_value)]: an offset in quarter
    notes and an integer controller value. *)
Definition point : Type := F * Z.

(** The sort key [lambda x: x[0]]. *)
Definition by_offset (a b : point) : bool := a.1 <=. b.1.

(** The filter of points that lie too close together (the loop over
    [voice_dynamics[idx]] after its sort): the state is
    [(filtered_points, last_time)], with [None] for [-inf]. *)
Definition min_time_distance : F := of_int 1.

Definition filter_step (st : list point * option F) (p : point)
  : list point * option F :=
  let '(filtered_points, last_time) := st in
  let '(time, value) := p in
  let far :=
    match last_time with
    | None => true
    | Some lt => min_time_distance <=. time -. lt
    end in
  if far then (filtered_points ++ [(time, value)], Some time)
  else
    match last filtered_points with
    | Some (_, last_value) =>
        if 10 <? Z.abs (last_value - value)
        then (removelast filtered_points ++ [(time, value)], Some time)
        else st
    | None => st
    end.

Definition filter_points (points : list point) : list point :=
  (foldl filter_step ([], None) (PyList.sorted by_offset points)).1.

(** The point put between two neighbours that lie more than 8 quarter
    notes apart. *)
Definition wide_gap (prev curr : point) : bool :=
  of_int 8 <. curr.1 -. prev.1.

Definition mid_point (prev curr : point) : point :=
  let '(prev_offset, prev_value) := prev in
  let '(curr_offset, curr_value) := curr in
  let mid_offset := prev_offset +. (curr_offset -. prev_offset) /. of_int 2 in
  let mid_value :=
    py_int (of_int prev_value +. of_int (curr_value - prev_value) /. of_int 2) in
  (mid_offset, mid_value).

(** The loop [for i in range(1, len(voice_dynamics[idx]))] that collects
    [interpolated_points]. *)
Fixpoint interpolated_points (points : list point) : list point :=
  match points with
  | [] => []
  | prev :: rest =>
      match rest with
      | [] => []
      | curr :: _ =>
          (if wide_gap prev curr then [mid_point prev curr] else [])
          ++ interpolated_points rest
      end
  end.

(** Step 4: sort, collect the midpoints, extend, sort again. *)
Definition add_contour_points (points : list point) : list point :=
  let points := PyList.sorted by_offset points in
  PyList.sorted by_offset (points ++ interpolated_points points).

(** The end of [extract_dynamic_points_baroque] for one voice: from the
    anchor points collected in steps 1 to 3 to the returned list. *)
Definition finish_voice (points : list point) : list point :=
  add_contour_points (filter_points points).

(** The claim's reading of step 4, written directly: walk along the
    list and put exactly one midpoint between two neighbours that lie
    more than 8 quarter notes apart. *)
Fixpoint with_one_midpoint_per_wide_gap (points : list point) : list point :=
  match points with
  | [] => []
  | prev :: rest =>
      prev ::
      match rest with
      | [] => []
      | curr :: _ =>
          (if wide_gap prev curr then [mid_point prev curr] else [])
          ++ with_one_midpoint_per_wide_gap rest
      end
  end.

End Points.
End Dynamics.

(* ================================================================== *)
(** ** Vocabulary of the properties *)
(* ================================================================== *)

Section Vocabulary.
Context {F : Type} `{!PyFloat F}.
Import Py.Notations.
Local Open Scope py_scope.
Import NoteProperties.

(** The fields captured by [NoteProperties.__init__] that the
    interpretation must leave alone. *)
Definition same_original (a b : NoteProperties.t F) : Prop :=
  pitch a = pitch b /\ velocity a = velocity b
  /\ original_start_time a = original_start_time b
  /\ original_duration a = original_duration b
  /\ track a = track b /\ channel a = channel b.

Definition notes_frame (l l' : list (NoteProperties.t F)) : Prop :=
  Forall2 same_original l l'.

Definition voices_frame (vs vs' : list (MusicalVoice.t F)) : Prop :=
  Forall2 (fun v v' => notes_frame (MusicalVoice.notes v) (MusicalVoice.notes v'))
          vs vs'.

(** The rule managers a program can build: [RuleManager()] followed by
    any number of [register_rule] calls. *)
Inductive manager_built : RuleManager.t F -> Prop :=
| built_init : manager_built RuleManager.__init__
| built_register voice_type rule rm :
    manager_built rm ->
    manager_built (RuleManager.register_rule voice_type rule rm).

(** Scenario B: a note of 60 ticks, and [InterpretationContext] with
    [ticks_per_beat = 480], [articulation_strength = 1.0] and the
    defaults otherwise. *)
Definition scenario_B_note (pitch velocity start track channel : Z)
  : NoteProperties.t F :=
  NoteProperties.__init__ pitch velocity start 60 track channel.

Definition scenario_B_context : InterpretationContext.t F :=
  InterpretationContext.__init__ 480
    InterpretationContext.default_expressiveness
    InterpretationContext.default_rubato_strength
    (of_int 1)
    InterpretationContext.default_dynamics_strength
    InterpretationContext.default_timing_direction_bias.

(** The end-of-phrase test as the specification words it: the three
    criteria of the source and, in addition, "the current phrase already
    has at least 4 notes and the note lands on a downbeat" (the downbeat
    test is the one of [_calculate_metric_positions]). *)
Definition claimed_phrase_ends_before (ticks_per_beat : Z)
    (notes_in_phrase : Z) (prev cur : NoteProperties.t F) : bool :=
  MusicalVoice.phrase_ends_before ticks_per_beat prev cur
  || ((4 <=? notes_in_phrase)
      && is_downbeat (MusicalVoice.metric_of ticks_per_beat cur)).

Fixpoint claimed_detect_loop (ticks_per_beat : Z) (prev : NoteProperties.t F)
    (rest : list (NoteProperties.t F)) (i : nat)
    (current_phrase_start : nat) (phrases : list MusicalVoice.phrase)
  : nat * list MusicalVoice.phrase :=
  match rest with
  | [] => (current_phrase_start, phrases)
  | cur :: rest' =>
      if claimed_phrase_ends_before ticks_per_beat
           (Z.of_nat i - Z.of_nat current_phrase_start) prev cur then
        let phrases :=
          if 2 <? Z.of_nat i - Z.of_nat current_phrase_start
          then phrases ++ [(current_phrase_start, (i - 1)%nat, "standard")]
          else phrases in
        claimed_detect_loop ticks_per_beat cur rest' (S i) i phrases
      else
        claimed_detect_loop ticks_per_beat cur rest' (S i)
          current_phrase_start phrases
  end.

Definition claimed_detect_phrases (ticks_per_beat : Z)
    (notes : list (NoteProperties.t F)) : list MusicalVoice.phrase :=
  match PyList.sorted MusicalVoice.by_start notes with
  | [] => []
  | first :: rest =>
      let sorted_len := S (length rest) in
      let '(current_phrase_start, phrases) :=
        claimed_detect_loop ticks_per_beat first rest 1 0 [] in
      if 2 <? Z.of_nat sorted_len - Z.of_nat current_phrase_start
      then phrases ++ [(current_phrase_start, (sorted_len - 1)%nat, "final")]
      else phrases
  end.

(** A plain note, as the loader builds it. *)
Definition plain_note (pitch start duration : Z) : NoteProperties.t F :=
  NoteProperties.__init__ pitch 80 start duration 0 0.

(** Five quarter notes on one pitch, back to back from tick 0 (480 ticks
    per beat): the fifth starts measure 2. *)
Definition five_quarters : list (NoteProperties.t F) :=
  [plain_note 60 0 480; plain_note 60 480 480; plain_note 60 960 480;
   plain_note 60 1440 480; plain_note 60 1920 480].

(** A voice holding the given notes, analyzed. *)
Definition analyzed_voice (track : Z) (notes : list (NoteProperties.t F))
  : MusicalVoice.t F :=
  MusicalVoice.analyze 480
    (MusicalVoice.set_notes notes (MusicalVoice.__init__ track 0)).

(** Four voices: one with a three-note phrase in measure 0, three with a
    single note each (and so without any phrase). *)
Definition four_voices : list (MusicalVoice.t F) :=
  [analyzed_voice 0 [plain_note 60 0 480; plain_note 62 480 480;
                     plain_note 64 960 480];
   analyzed_voice 1 [plain_note 55 0 480];
   analyzed_voice 2 [plain_note 52 0 480];
   analyzed_voice 3 [plain_note 40 0 480]].

(** A fresh conductor with the constructor's defaults. *)
Definition default_conductor : OrchestralConductor.t F :=
  OrchestralConductor.__init__ OrchestralConductor.default_expressiveness
    OrchestralConductor.default_wave_strength
    OrchestralConductor.default_wave_complexity.

(** A whole note (480 ticks at 480 ticks per beat) that some rule
    configuration has cut to 100 ticks. *)
Definition shortened_long_note : NoteProperties.t F :=
  set_adjusted_duration 100 (plain_note 60 0 480).

(** A sixteenth of a beat (30 ticks) cut to 5 ticks. *)
Definition shortened_short_note : NoteProperties.t F :=
  set_adjusted_duration 5 (plain_note 60 0 30).

Definition interpreter_with (notes : list (NoteProperties.t F))
  : NoteLevelInterpreter.t F :=
  NoteLevelInterpreter.set_voices
    [MusicalVoice.set_notes notes (MusicalVoice.__init__ 0 0)]
    (NoteLevelInterpreter.__init__ (lit 5 10) (lit 6 10) (lit 7 10) (lit 7 10)).

(** "The phrase ends before note [j]": one of the three criteria of the
    source holds between the notes at positions [j-1] and [j] of the
    sorted list. *)
Definition ends_before (ticks_per_beat : Z)
    (sorted_notes : list (NoteProperties.t F)) (j : nat) : Prop :=
  exists prev cur,
    (0 < j)%nat /\ sorted_notes !! (j - 1)%nat = Some prev
    /\ sorted_notes !! j = Some cur
    /\ (ticks_per_beat
          < original_start_time cur
            - (original_start_time prev + original_duration prev)
        \/ ticks_per_beat * 2 < original_duration prev
        \/ 7 < Z.abs (pitch cur - pitch prev)).

(** The same test as a function of the position. *)
Definition ends_before_b (ticks_per_beat : Z)
    (sorted_notes : list (NoteProperties.t F)) (j : nat) : bool :=
  match j with
  | O => false
  | S j' =>
      match sorted_notes !! j', sorted_notes !! j with
      | Some prev, Some cur =>
          MusicalVoice.phrase_ends_before ticks_per_beat prev cur
      | _, _ => false
      end
  end.

(** The scan of [_detect_phrases] over positions [i, i + m), given the
    end-of-phrase test as a function of the position. *)
Fixpoint scan_positions (brk : nat -> bool) (m i : nat)
    (current_phrase_start : nat) (phrases : list MusicalVoice.phrase)
  : nat * list MusicalVoice.phrase :=
  match m with
  | O => (current_phrase_start, phrases)
  | S m' =>
      if brk i then
        let phrases :=
          if 2 <? Z.of_nat i - Z.of_nat current_phrase_start
          then phrases ++ [(current_phrase_start, (i - 1)%nat, "standard")]
          else phrases in
        scan_positions brk m' (S i) i phrases
      else scan_positions brk m' (S i) current_phrase_start phrases
  end.

(** A bias value of the agogic map lies in [-1, 1]. *)
Definition in_unit (v : R) : Prop := (-1 <= v <= 1)%R.

(** A group of phrase boundaries in which every start lies within one
    measure of the start before it. *)
Definition chained (g : list OrchestralConductor.boundary) : Prop :=
  forall i a b,
    g !! i = Some a -> g !! S i = Some b ->
    Z.abs (OrchestralConductor.b_start b - OrchestralConductor.b_start a) <= 1.

(** Consecutive groups are more than one measure apart. *)
Definition separated (gs : list (list OrchestralConductor.boundary)) : Prop :=
  forall i g1 g2 a b,
    gs !! i = Some g1 -> gs !! S i = Some g2 ->
    last g1 = Some a -> head g2 = Some b ->
    1 < Z.abs (OrchestralConductor.b_start b - OrchestralConductor.b_start a).

(** The promotion test as the specification words it: at least
    ceil(voices / 3) members. *)
Definition claimed_group_promoted (n_voices : nat)
    (group : list OrchestralConductor.boundary) : bool :=
  (Z.of_nat n_voices + 2) / 3 <=? Z.of_nat (length group).

(** The groups that become cadences: promoted, and at least half of the
    voices. *)
Definition cadence_group (n_voices : nat)
    (group : list OrchestralConductor.boundary) : bool :=
  OrchestralConductor.group_promoted n_voices group
  && OrchestralConductor.is_cadence n_voices group.

(** What the analysis of a voice leaves alone in a note: everything the
    constructor captured and the adjusted values. *)
Definition analysis_only (a b : NoteProperties.t F) : Prop :=
  same_original a b
  /\ start_time a = start_time b /\ duration a = duration b
  /\ adjusted_start_time a = adjusted_start_time b
  /\ adjusted_duration a = adjusted_duration b
  /\ adjusted_velocity a = adjusted_velocity b.

(** Two notes that differ at most in the marks the analysis puts on
    them (role flags, metric position, downbeat flag, phrase position). *)
Definition same_but_marks (a b : NoteProperties.t F) : Prop :=
  analysis_only a b
  /\ next_note a = next_note b /\ prev_note a = prev_note b
  /\ interval_to_next a = interval_to_next b
  /\ interval_to_prev a = interval_to_prev b.

(** The notes of a voice once sorted, linked and given their intervals
    (the first three steps of [analyze]). *)
Definition linked_notes (notes : list (NoteProperties.t F))
  : list (NoteProperties.t F) :=
  let ns := MusicalVoice.link_notes (PyList.sorted MusicalVoice.by_start notes) in
  foldl calculate_intervals ns (seq 0 (length ns)).

End Vocabulary.

(* ================================================================== *)
(** ** Properties *)
(* ================================================================== *)

Import NoteProperties.

(** *** Scenario B (C3) *)

(** C3, as stated, fails: with [original_duration = 60] at 480 ticks per
    beat the relative duration is exactly 0.125, which the test
    [relative_duration <= short_threshold] sends to the sixteenth-note
    branch; in binary64 arithmetic the rule leaves
    [adjusted_duration = 55], not 56, and the reduction factor is not that
    of the eighth-note branch. *)
Lemma scenario_B_is_not_56 :
  exists notes',
    Rules.ShortNoteRule_apply (F := float) Rules.ShortNote_defaults 0
      [scenario_B_note 60 80 0 0 0] scenario_B_context = Some (notes', true)
    /\ map adjusted_duration notes' <> [56]
    /\ Rules.ShortNoteRule_reduction_factor (F := float) Rules.ShortNote_defaults
         scenario_B_context (fdiv (of_int 60) (of_int 480))
       <> fsub (of_int 1) (fmul (fmul (lit 8 100) (lit 75 100)) (of_int 1)).
Proof.
  eexists. split; [vm_compute; reflexivity|].
  split; [vm_compute; discriminate|].
  intros E.
  apply (f_equal (fun x : float =>
           PrimFloat.eqb x
             (fsub (of_int 1) (fmul (fmul (lit 8 100) (lit 75 100)) (of_int 1)))))
    in E.
  vm_compute in E. discriminate.
Qed.

(** C3, amended: for a freshly captured note of 60 ticks (whatever its
    pitch, velocity, start, track and channel) at 480 ticks per beat,
    [ShortNoteRule] with [articulation_strength = 1.0] and default
    parameters applies, takes the sixteenth-note branch
    ([relative_duration <= short_threshold], factor [1 - 0.08 * 1.0]) and
    sets [adjusted_duration] to [int(60 * 0.92) = 55]; this holds in
    binary64 arithmetic and in exact arithmetic alike. *)
Theorem scenario_B_short_note_rule (pitch velocity start track channel : Z) :
  (exists notes',
     Rules.ShortNoteRule_apply (F := float) Rules.ShortNote_defaults 0
       [scenario_B_note pitch velocity start track channel] scenario_B_context
     = Some (notes', true)
     /\ map adjusted_duration notes' = [55])
  /\ (exists notes',
     Rules.ShortNoteRule_apply (F := Q) Rules.ShortNote_defaults 0
       [scenario_B_note pitch velocity start track channel] scenario_B_context
     = Some (notes', true)
     /\ map adjusted_duration notes' = [55])
  /\ Rules.ShortNoteRule_reduction_factor (F := float) Rules.ShortNote_defaults
       scenario_B_context (fdiv (of_int 60) (of_int 480))
     = fsub (of_int 1) (fmul (lit 8 100) (of_int 1))
  /\ fleb (fdiv (of_int 60) (of_int 480))
          (Rules.sn_short_threshold (F := float) Rules.ShortNote_defaults) = true
  /\ fleb (fdiv (of_int 60) (of_int 480))
          (Rules.sn_very_short_threshold (F := float) Rules.ShortNote_defaults)
     = false.
Proof.
  split; [|split; [|split; [|split]]].
  - eexists. split; [reflexivity|]. vm_compute. reflexivity.
  - eexists. split; [reflexivity|]. vm_compute. reflexivity.
  - vm_compute. reflexivity.
  - vm_compute. reflexivity.
  - vm_compute. reflexivity.
Qed.

(** *** Scenario C (C4) *)

(** C4, as stated, fails: the default structure built for zero voices
    has no gravity center at measures 3 and 11. *)
Lemma scenario_C_no_gravity_at_3_and_11 :
  let oc := OrchestralConductor.analyze_structure (F := float) []
              default_conductor in
  PyDict.get 3 (OrchestralConductor.gravity_centers oc) = None
  /\ PyDict.get 11 (OrchestralConductor.gravity_centers oc) = None.
Proof. vm_compute. split; reflexivity. Qed.

(** C4, amended: with zero voices, [analyze_structure] builds, on any
    conductor, a structure of 16 measures with phrase boundaries (0,7) and
    (8,15), cadences at measures 7 and 15 with gravity 0.6 each, and the
    weaker gravity centers (0.3) at measures 4 and 12 ([mid = i + 4]);
    these four are all the gravity centers. *)
Theorem scenario_C_default_structure {F : Type} `{!PyFloat F}
    (oc : OrchestralConductor.t F) :
  let oc' := OrchestralConductor.analyze_structure [] oc in
  OrchestralConductor.measure_count (OrchestralConductor.stats oc') = 16
  /\ OrchestralConductor.phrase_boundaries oc' = [(0, 7); (8, 15)]
  /\ OrchestralConductor.cadences oc' = [7; 15]
  /\ OrchestralConductor.gravity_centers oc'
     = [(7, lit 6 10); (4, lit 3 10); (15, lit 6 10); (12, lit 3 10)]
  /\ PyDict.get 7 (OrchestralConductor.gravity_centers oc') = Some (lit 6 10)
  /\ PyDict.get 15 (OrchestralConductor.gravity_centers oc') = Some (lit 6 10)
  /\ PyDict.get 4 (OrchestralConductor.gravity_centers oc') = Some (lit 3 10)
  /\ PyDict.get 12 (OrchestralConductor.gravity_centers oc') = Some (lit 3 10).
Proof. cbv zeta. repeat split. Qed.

(** *** Dispatch on the voice role (C10) *)

Section Dispatch.
Context {F : Type} `{!PyFloat F}.

Lemma voice_type_of_other (role : string) :
  role <> "bass" -> role <> "inner_voice" ->
  RuleManager.voice_type_of role = "melody".
Proof.
  intros Hb Hi. unfold RuleManager.voice_type_of.
  apply String.eqb_neq in Hb, Hi. rewrite Hb, Hi. reflexivity.
Qed.

Lemma voice_type_of_cases (role : string) :
  RuleManager.voice_type_of role = "melody"
  \/ RuleManager.voice_type_of role = "bass"
  \/ RuleManager.voice_type_of role = "inner".
Proof.
  unfold RuleManager.voice_type_of.
  destruct (String.eqb role "bass"); [auto|].
  destruct (String.eqb role "inner_voice"); auto.
Qed.

(** The key set of [rule_sets] never changes. *)
Lemma manager_built_keys (rm : RuleManager.t F) (k : string) :
  manager_built rm ->
  is_Some (RuleManager.rule_sets rm !! k)
  <-> k = "melody" \/ k = "bass" \/ k = "inner".
Proof.
  induction 1 as [|vt rule rm Hrm IH].
  - cbn. rewrite !lookup_insert_is_Some, lookup_empty.
    split.
    + intros [<-|[_ [<-|[_ [<-|[_ Hn]]]]]]; auto. destruct Hn; discriminate.
    + intros [->|[->| ->]]; [left; reflexivity| |].
      * right. split; [discriminate|]. left. reflexivity.
      * right. split; [discriminate|]. right. split; [discriminate|].
        left. reflexivity.
  - unfold RuleManager.register_rule.
    destruct (RuleManager.rule_sets rm !! vt) as [rules|] eqn:E; [|exact IH].
    cbn. rewrite lookup_insert_is_Some, <- IH.
    split; [intros [->|[_ ?]]; eauto|].
    intros Hk. destruct (decide (vt = k)); auto.
Qed.

Lemma interpret_note_role (random_random : nat -> F) (role role' : string)
    (st : NoteLevelInterpreter.t F * list (NoteProperties.t F) * list (Z * F))
    (i : nat) :
  RuleManager.voice_type_of role = RuleManager.voice_type_of role' ->
  NoteLevelInterpreter.interpret_note random_random role st i
  = NoteLevelInterpreter.interpret_note random_random role' st i.
Proof.
  intros E. unfold NoteLevelInterpreter.interpret_note.
  destruct st as [[self notes] cache].
  destruct (notes !! i); [|reflexivity].
  rewrite E. reflexivity.
Qed.

Lemma foldl_pointwise {A B : Type} (f g : A -> B -> A) (l : list B) (a : A) :
  (forall a b, f a b = g a b) -> foldl f a l = foldl g a l.
Proof.
  intros E. revert a. induction l as [|b l IH]; intros a; cbn; [reflexivity|].
  rewrite E. apply IH.
Qed.

End Dispatch.

(** C10: a voice whose role is neither "bass" nor "inner_voice" (the
    initial "unknown" included) is given the voice type "melody"; on
    every rule manager built by registrations that key is present, the
    key "unknown" is not, and no role at all lacks a rule set; so
    [_interpret_voice] and [RuleManager.apply_rules] treat the voice
    exactly as they treat the same voice with role "melody". *)
Theorem other_roles_use_the_melody_rules {F : Type} `{!PyFloat F}
    (random_random : nat -> F) (self : NoteLevelInterpreter.t F)
    (rm : RuleManager.t F) (voice : MusicalVoice.t F)
    (context : InterpretationContext.t F) (k : nat) :
  manager_built rm ->
  MusicalVoice.role voice <> "bass" ->
  MusicalVoice.role voice <> "inner_voice" ->
  RuleManager.voice_type_of (MusicalVoice.role voice) = "melody"
  /\ is_Some (RuleManager.rule_sets rm !! "melody")
  /\ RuleManager.rule_sets rm !! "unknown" = None
  /\ (forall role, is_Some (RuleManager.rule_sets rm
                              !! RuleManager.voice_type_of role))
  /\ NoteLevelInterpreter._interpret_voice random_random self voice
     = (let '(self', voice') :=
          NoteLevelInterpreter._interpret_voice random_random self
            (MusicalVoice.set_role "melody" voice) in
        (self', MusicalVoice.set_role (MusicalVoice.role voice) voice'))
  /\ RuleManager.apply_rules random_random rm voice context k
     = (let '(rm', voice', k', n) :=
          RuleManager.apply_rules random_random rm
            (MusicalVoice.set_role "melody" voice) context k in
        (rm', MusicalVoice.set_role (MusicalVoice.role voice) voice', k', n)).
Proof.
  intros Hrm Hb Hi.
  pose proof (voice_type_of_other _ Hb Hi) as Hvt.
  split; [exact Hvt|].
  split; [apply (manager_built_keys rm "melody" Hrm); auto|].
  split.
  { destruct (RuleManager.rule_sets rm !! "unknown") eqn:E; [|reflexivity].
    assert (is_Some (RuleManager.rule_sets rm !! "unknown")) as Hs by eauto.
    apply (manager_built_keys rm "unknown" Hrm) in Hs.
    destruct Hs as [?|[?|?]]; discriminate. }
  split.
  { intros role. apply (manager_built_keys rm _ Hrm).
    apply voice_type_of_cases. }
  split.
  - unfold NoteLevelInterpreter._interpret_voice. destruct voice; cbn in *.
    rewrite (foldl_pointwise _
               (NoteLevelInterpreter.interpret_note random_random "melody") _ _
               (fun st i => interpret_note_role random_random role "melody"
                              st i Hvt)).
    destruct (foldl _ _ _) as [[self' notes'] cache']. reflexivity.
  - unfold RuleManager.apply_rules. destruct voice; cbn in *.
    rewrite Hvt. cbn.
    destruct (RuleManager.rule_sets rm !! "melody"); [|reflexivity].
    destruct (foldl _ _ _) as [[[rm' notes'] k'] n']. reflexivity.
Qed.

(** A voice that was never analyzed keeps the role "unknown" and is
    interpreted with the default melody rules. *)
Lemma other_roles_use_the_melody_rules_witness :
  RuleManager.voice_type_of
    (MusicalVoice.role
       (MusicalVoice.set_notes [plain_note (F := float) 60 0 480]
          (MusicalVoice.__init__ 0 0))) = "melody".
Proof.
  refine (proj1 (other_roles_use_the_melody_rules (fun _ => lit 1 2)
            (interpreter_with [plain_note 60 0 480])
            (RuleManager.register_rule "melody"
               (Rules.mk_rule "long_note" true
                  (Rules.LongNoteRule Rules.LongNote_defaults))
               RuleManager.__init__)
            (MusicalVoice.set_notes [plain_note 60 0 480]
               (MusicalVoice.__init__ 0 0))
            scenario_B_context 0 _ _ _)).
  - apply built_register, built_init.
  - vm_compute. discriminate.
  - vm_compute. discriminate.
Defined.

(** *** The safety pass (C1, C7) *)

Section SafetyPass.
Context {F : Type} `{!PyFloat F}.
Local Abbreviation note_t := (NoteProperties.t F).

(** The pass writes [adjusted_duration] only. *)
Lemma validate_note_original (tpb : Z) (note : note_t) :
  original_duration (NoteLevelInterpreter.validate_note tpb note).1
  = original_duration note.
Proof.
  unfold NoteLevelInterpreter.validate_note.
  destruct (NoteLevelInterpreter.is_checked tpb note); [|reflexivity].
  destruct (_ <? _); reflexivity.
Qed.

Lemma is_checked_validate_note (tpb : Z) (note : note_t) :
  NoteLevelInterpreter.is_checked tpb (NoteLevelInterpreter.validate_note tpb note).1
  = NoteLevelInterpreter.is_checked tpb note.
Proof.
  unfold NoteLevelInterpreter.is_checked.
  rewrite validate_note_original. reflexivity.
Qed.

Lemma min_duration_validate_note (tpb : Z) (note : note_t) :
  NoteLevelInterpreter.min_duration tpb (NoteLevelInterpreter.validate_note tpb note).1
  = NoteLevelInterpreter.min_duration tpb note.
Proof.
  unfold NoteLevelInterpreter.min_duration.
  rewrite validate_note_original. reflexivity.
Qed.

(** After the pass, a checked note is at or above its floor. *)
Lemma validate_note_floor (tpb : Z) (note : note_t) :
  NoteLevelInterpreter.is_checked tpb note = true ->
  NoteLevelInterpreter.min_duration tpb note
  <= adjusted_duration (NoteLevelInterpreter.validate_note tpb note).1.
Proof.
  intros Hc. unfold NoteLevelInterpreter.validate_note. rewrite Hc.
  destruct (Z.ltb_spec (adjusted_duration note)
              (NoteLevelInterpreter.min_duration tpb note)); cbn; lia.
Qed.

(** Under the outer test the last branch of the tier cascade is dead:
    only the 90 %, 80 % and 70 % tiers are ever used. *)
Lemma min_percent_checked (tpb : Z) (note : note_t) :
  NoteLevelInterpreter.is_checked tpb note = true ->
  let rel := fdiv (of_int (original_duration note)) (of_int tpb) in
  NoteLevelInterpreter.min_percent rel
  = if fleb rel (lit 625 10000) then lit 9 10
    else if fleb rel (lit 125 1000) then lit 8 10
    else lit 7 10.
Proof.
  unfold NoteLevelInterpreter.is_checked, NoteLevelInterpreter.min_percent.
  intros [_ Hc]%andb_true_iff. cbn. rewrite Hc. reflexivity.
Qed.

(** A second run of the pass finds the note it has just fixed in order. *)
Lemma validate_note_idempotent (tpb : Z) (note : note_t) :
  NoteLevelInterpreter.validate_note tpb (NoteLevelInterpreter.validate_note tpb note).1
  = ((NoteLevelInterpreter.validate_note tpb note).1, NoteLevelInterpreter.Unchanged).
Proof.
  pose proof (is_checked_validate_note tpb note) as Hc.
  pose proof (min_duration_validate_note tpb note) as Hm.
  pose proof (validate_note_floor tpb note) as Hf.
  unfold NoteLevelInterpreter.validate_note at 1. rewrite Hc, Hm.
  destruct (NoteLevelInterpreter.is_checked tpb note) eqn:E.
  - specialize (Hf eq_refl).
    destruct (Z.ltb_spec
                (adjusted_duration (NoteLevelInterpreter.validate_note tpb note).1)
                (NoteLevelInterpreter.min_duration tpb note)); [lia|reflexivity].
  - reflexivity.
Qed.

Lemma validate_voice_idempotent (tpb : Z) (voice : MusicalVoice.t F) :
  NoteLevelInterpreter.validate_voice tpb
    (NoteLevelInterpreter.validate_voice tpb voice).1
  = ((NoteLevelInterpreter.validate_voice tpb voice).1,
     map (fun _ => NoteLevelInterpreter.Unchanged) (MusicalVoice.notes voice)).
Proof.
  unfold NoteLevelInterpreter.validate_voice. destruct voice as [? ? ns ? ? ? ? ? ?].
  cbn. unfold MusicalVoice.set_notes. cbn.
  assert (forall l : list note_t,
            map (NoteLevelInterpreter.validate_note tpb)
                (map fst (map (NoteLevelInterpreter.validate_note tpb) l))
            = map (fun n => ((NoteLevelInterpreter.validate_note tpb n).1,
                             NoteLevelInterpreter.Unchanged)) l) as E.
  { induction l as [|n l IH]; cbn; [reflexivity|].
    rewrite validate_note_idempotent, IH. reflexivity. }
  rewrite E, !map_map. cbn. reflexivity.
Qed.

Lemma count_unchanged (f : NoteLevelInterpreter.correction -> bool)
    (cs : list NoteLevelInterpreter.correction) :
  f NoteLevelInterpreter.Unchanged = false ->
  Forall (fun c => c = NoteLevelInterpreter.Unchanged) cs ->
  NoteLevelInterpreter.count f cs = 0.
Proof.
  intros Hf Hcs. unfold NoteLevelInterpreter.count.
  induction Hcs as [|c cs -> _ IH]; [reflexivity|].
  rewrite filter_cons_False by (rewrite Hf; discriminate). exact IH.
Qed.

(** C1, amended: after the pass every note whose original duration is at
    most a quarter of a beat ([original_duration / ticks_per_beat <= 0.25],
    [ticks_per_beat] not 0) has [adjusted_duration >= floor], where
    [floor = max(max(2, int(ticks_per_beat * rel * 0.5)),
                 int(original_duration * pct))]
    and [pct] is 0.9 for [rel <= 0.0625], 0.8 for [rel <= 0.125] and 0.7
    otherwise; on such a note the pass sets [adjusted_duration] to the
    floor exactly when it is below it, and the correction is critical
    exactly when the old value is below half the floor
    ([old < floor * 0.5]).  (Whatever the float arithmetic.) *)
Theorem validation_floor_for_short_notes
    (self : NoteLevelInterpreter.t F) (voice : MusicalVoice.t F)
    (note : NoteProperties.t F) :
  voice ∈ NoteLevelInterpreter.voices
            (NoteLevelInterpreter._validate_and_fix_note_durations self) ->
  note ∈ MusicalVoice.notes voice ->
  NoteLevelInterpreter.is_checked (NoteLevelInterpreter.ticks_per_beat self) note
  = true ->
  let tpb := NoteLevelInterpreter.ticks_per_beat self in
  let rel := fdiv (of_int (original_duration note)) (of_int tpb) in
  let pct := if fleb rel (lit 625 10000) then lit 9 10
             else if fleb rel (lit 125 1000) then lit 8 10
             else lit 7 10 in
  let floor := Z.max (Z.max 2 (py_int (fmul (fmul (of_int tpb) rel) (lit 5 10))))
                     (py_int (fmul (of_int (original_duration note)) pct)) in
  floor <= adjusted_duration note
  /\ NoteLevelInterpreter.min_duration tpb note = floor
  /\ (forall before : NoteProperties.t F,
        NoteLevelInterpreter.is_checked tpb before = true ->
        let m := NoteLevelInterpreter.min_duration tpb before in
        let r := NoteLevelInterpreter.validate_note tpb before in
        (adjusted_duration before < m ->
           adjusted_duration r.1 = m
           /\ r.2 <> NoteLevelInterpreter.Unchanged
           /\ (r.2 = NoteLevelInterpreter.CriticallyCorrected
               <-> fltb (of_int (adjusted_duration before))
                        (fmul (of_int m) (lit 5 10)) = true))
        /\ (m <= adjusted_duration before ->
              r = (before, NoteLevelInterpreter.Unchanged))).
Proof.
  intros Hv Hn Hc tpb rel pct floor.
  assert (NoteLevelInterpreter.min_duration tpb note = floor) as Hfloor.
  { unfold NoteLevelInterpreter.min_duration, floor, pct, rel.
    rewrite (min_percent_checked tpb note Hc). reflexivity. }
  split; [|split; [exact Hfloor|]].
  - rewrite <- Hfloor.
    assert (exists v0, voice = (NoteLevelInterpreter.validate_voice tpb v0).1)
      as [v0 ->].
    { revert Hv. unfold NoteLevelInterpreter._validate_and_fix_note_durations.
      fold tpb. destruct (0 <? _); destruct self; cbn;
        rewrite map_map; intros (v0 & -> & _)%list_elem_of_fmap; eauto. }
    destruct v0 as [? ? ns ? ? ? ? ? ?]. cbn in Hn.
    rewrite map_map in Hn. apply list_elem_of_fmap in Hn as (n0 & -> & _).
    rewrite min_duration_validate_note.
    apply validate_note_floor.
    rewrite <- is_checked_validate_note. exact Hc.
  - intros before Hb m r. unfold r, NoteLevelInterpreter.validate_note.
    rewrite Hb. fold m. split.
    + intros Hlt. apply Z.ltb_lt in Hlt. rewrite Hlt. cbn.
      split; [reflexivity|].
      destruct (fltb _ _); split; try discriminate; try reflexivity;
        split; congruence.
    + intros Hge. apply Z.ltb_ge in Hge. rewrite Hge. reflexivity.
Qed.

(** The pass returns the interpreter it was given when no note needs a
    correction. *)
Lemma validate_nothing_to_fix (self : NoteLevelInterpreter.t F) :
  (forall v, v ∈ NoteLevelInterpreter.voices self ->
     NoteLevelInterpreter.validate_voice
       (NoteLevelInterpreter.ticks_per_beat self) v
     = (v, map (fun _ => NoteLevelInterpreter.Unchanged) (MusicalVoice.notes v))) ->
  NoteLevelInterpreter._validate_and_fix_note_durations self = self.
Proof.
  intros Hfix. unfold NoteLevelInterpreter._validate_and_fix_note_durations.
  set (tpb := NoteLevelInterpreter.ticks_per_beat self) in *.
  assert (map (NoteLevelInterpreter.validate_voice tpb)
              (NoteLevelInterpreter.voices self)
          = map (fun v => (v, map (fun _ => NoteLevelInterpreter.Unchanged)
                                  (MusicalVoice.notes v)))
                (NoteLevelInterpreter.voices self)) as E.
  { apply map_ext_in. intros v Hv. apply Hfix, list_elem_of_In, Hv. }
  rewrite E, !map_map. cbn. rewrite map_id.
  rewrite (count_unchanged NoteLevelInterpreter.is_correction); [| reflexivity |].
  - cbn. destruct self; reflexivity.
  - apply Forall_concat, Forall_fmap, Forall_forall. intros v _.
    apply Forall_fmap, Forall_forall. reflexivity.
Qed.

(** C7: the safety pass is idempotent.  Run on its own result it makes no
    correction (every note is reported [Unchanged]) and returns the
    interpreter it was given: no [adjusted_duration] changes, nor
    anything else. *)
Theorem validation_is_idempotent
    (self : NoteLevelInterpreter.t F) :
  let once := NoteLevelInterpreter._validate_and_fix_note_durations self in
  NoteLevelInterpreter._validate_and_fix_note_durations once = once
  /\ Forall (fun v =>
       Forall (fun n =>
                 NoteLevelInterpreter.validate_note
                   (NoteLevelInterpreter.ticks_per_beat once) n
                 = (n, NoteLevelInterpreter.Unchanged))
              (MusicalVoice.notes v))
       (NoteLevelInterpreter.voices once).
Proof.
  cbv zeta.
  set (tpb := NoteLevelInterpreter.ticks_per_beat self).
  assert (NoteLevelInterpreter.ticks_per_beat
            (NoteLevelInterpreter._validate_and_fix_note_durations self) = tpb)
    as Htpb.
  { unfold NoteLevelInterpreter._validate_and_fix_note_durations.
    destruct (0 <? _); reflexivity. }
  assert (NoteLevelInterpreter.voices
            (NoteLevelInterpreter._validate_and_fix_note_durations self)
          = map (fun v => (NoteLevelInterpreter.validate_voice tpb v).1)
                (NoteLevelInterpreter.voices self)) as Hvs.
  { unfold NoteLevelInterpreter._validate_and_fix_note_durations.
    fold tpb. destruct (0 <? _); cbn; apply map_map. }
  split.
  - apply validate_nothing_to_fix. rewrite Htpb, Hvs.
    intros v (v0 & -> & _)%list_elem_of_fmap.
    rewrite validate_voice_idempotent. f_equal.
    destruct v0; cbn. rewrite !map_map. reflexivity.
  - rewrite Htpb, Hvs. apply Forall_fmap, Forall_forall. intros v _.
    destruct v as [? ? ns ? ? ? ? ? ?]. cbn. rewrite map_map.
    apply Forall_fmap, Forall_forall. intros n _. cbn.
    apply validate_note_idempotent.
Qed.

End SafetyPass.

(** C1, as stated, fails: a whole-beat note (480 ticks at 480 ticks per
    beat) whose [adjusted_duration] has dropped to 100 comes out of the
    pass unchanged, below the floor the claim computes for its tier
    ([max(240, int(480 * 0.6)) = 288]): the pass only looks at notes of at
    most a quarter of a beat. *)
Lemma long_note_stays_below_its_floor :
  let self := interpreter_with [shortened_long_note (F := float)] in
  let self' := NoteLevelInterpreter._validate_and_fix_note_durations self in
  map (fun v => map adjusted_duration (MusicalVoice.notes v))
      (NoteLevelInterpreter.voices self') = [[100]]
  /\ NoteLevelInterpreter.min_duration 480 (shortened_long_note (F := float)) = 288
  /\ NoteLevelInterpreter.min_percent (F := float) (fdiv (of_int 480) (of_int 480))
     = lit 6 10
  /\ ~ (NoteLevelInterpreter.min_duration 480 (shortened_long_note (F := float))
        <= 100).
Proof.
  split; [vm_compute; reflexivity|].
  split; [vm_compute; reflexivity|].
  split; [vm_compute; reflexivity|].
  vm_compute. intros C. apply C. reflexivity.
Qed.

(** A sixteenth of a beat cut to 5 ticks is raised to its floor 27. *)
Lemma validation_floor_for_short_notes_witness :
  27 <= adjusted_duration
          (NoteLevelInterpreter.validate_note 480
             (shortened_short_note (F := float))).1.
Proof.
  refine (proj1 (validation_floor_for_short_notes
            (interpreter_with [shortened_short_note (F := float)])
            (NoteLevelInterpreter.validate_voice 480
               (MusicalVoice.set_notes [shortened_short_note]
                  (MusicalVoice.__init__ 0 0))).1
            (NoteLevelInterpreter.validate_note 480 shortened_short_note).1
            _ _ _)).
  - vm_compute. apply list_elem_of_here.
  - vm_compute. apply list_elem_of_here.
  - vm_compute. reflexivity.
Defined.


(** *** The original fields are never written (C8) *)

Section Frame.
Context {F : Type} `{!PyFloat F}.
Local Abbreviation note_t := (NoteProperties.t F).
Local Abbreviation voice_t := (MusicalVoice.t F).

#[local] Instance same_original_equiv : Equivalence (same_original (F := F)).
Proof.
  split.
  - intros n. repeat split.
  - intros a b (?&?&?&?&?&?). repeat split; congruence.
  - intros a b c (?&?&?&?&?&?) (?&?&?&?&?&?). repeat split; congruence.
Qed.

#[local] Instance notes_frame_preorder : PreOrder (notes_frame (F := F)).
Proof.
  split.
  - intros l. apply Forall_Forall2_diag, Forall_forall. reflexivity.
  - intros a b c Hab Hbc. unfold notes_frame in *.
    eapply Forall2_trans; [|exact Hab|exact Hbc].
    intros x y z Hxy Hyz. etransitivity; eassumption.
Qed.

Lemma same_original_start (v : Z) (n : note_t) :
  same_original n (set_adjusted_start_time v n).
Proof. repeat split. Qed.
Lemma same_original_duration (v : Z) (n : note_t) :
  same_original n (set_adjusted_duration v n).
Proof. repeat split. Qed.
Lemma same_original_velocity (v : Z) (n : note_t) :
  same_original n (set_adjusted_velocity v n).
Proof. repeat split. Qed.

(** Writing back a note that differs in adjusted fields only. *)
Lemma frame_insert (notes : list note_t) (i : nat) (n n' : note_t) :
  notes !! i = Some n -> same_original n n' ->
  notes_frame notes (<[i := n']> notes).
Proof.
  intros Hi Hs. unfold notes_frame.
  rewrite <- (list_insert_id notes i n Hi) at 1.
  apply Forall2_insert; [|exact Hs].
  apply Forall_Forall2_diag, Forall_forall. reflexivity.
Qed.

(** Chains of attribute assignments to one note. *)
Ltac same_orig :=
  repeat match goal with
         | |- same_original ?n ?n => reflexivity
         | |- same_original ?n (set_adjusted_start_time _ ?m) =>
             transitivity m; [|apply same_original_start]
         | |- same_original ?n (set_adjusted_duration _ ?m) =>
             transitivity m; [|apply same_original_duration]
         | |- same_original ?n (set_adjusted_velocity _ ?m) =>
             transitivity m; [|apply same_original_velocity]
         | |- same_original ?n (if ?b then _ else _) => destruct b
         | |- same_original ?n (Rules.delay_and_accent _ _ ?m) =>
             unfold Rules.delay_and_accent
         end.

(** A rule body: case analysis down to the store updates. *)
Ltac frame_rule :=
  intros;
  repeat match goal with
         | |- context [match ?l !! ?i with _ => _ end] =>
             let E := fresh "E" in destruct (l !! i) eqn:E
         | |- context [if ?b then _ else _] => destruct b
         | |- context [let '(_, _) := ?p in _] => destruct p
         end;
  cbn [fst snd];
  try reflexivity;
  try (eapply frame_insert; [eassumption|same_orig; fail]).

Lemma PhraseStartRule_frame p i notes ctx :
  notes_frame notes (Rules.PhraseStartRule_apply (F := F) p i notes ctx).1.
Proof. unfold Rules.PhraseStartRule_apply. frame_rule. Qed.

Lemma PhraseEndRule_frame p i notes ctx :
  notes_frame notes (Rules.PhraseEndRule_apply (F := F) p i notes ctx).1.
Proof. unfold Rules.PhraseEndRule_apply. frame_rule. Qed.

(** A write through [note.next_note]. *)
Lemma frame_neighbour (notes L : list note_t) (link : option nat)
    (f : note_t -> Z) :
  notes_frame notes L ->
  notes_frame notes
    (match link with
     | Some j =>
         match L !! j with
         | Some nx => <[j := set_adjusted_velocity (f nx) nx]> L
         | None => L
         end
     | None => L
     end).
Proof.
  intros HL. destruct link as [j|]; [|exact HL].
  destruct (L !! j) as [nx|] eqn:Ej; [|exact HL].
  etransitivity; [exact HL|].
  eapply frame_insert; [eassumption|apply same_original_velocity].
Qed.

Lemma PreLeapRule_frame p i notes ctx :
  notes_frame notes (Rules.PreLeapRule_apply (F := F) p i notes ctx).1.
Proof.
  unfold Rules.PreLeapRule_apply.
  destruct (notes !! i) as [note|] eqn:E; [|reflexivity].
  destruct (_ && _); [|reflexivity]. cbn [fst].
  apply frame_neighbour.
  eapply frame_insert; [eassumption|same_orig].
Qed.

Lemma LocalPeakRule_frame p i notes ctx :
  notes_frame notes (Rules.LocalPeakRule_apply (F := F) p i notes ctx).1.
Proof. unfold Rules.LocalPeakRule_apply. frame_rule. Qed.

Lemma DownbeatRule_frame p i notes ctx :
  notes_frame notes (Rules.DownbeatRule_apply (F := F) p i notes ctx).1.
Proof. unfold Rules.DownbeatRule_apply. frame_rule. Qed.

Lemma ShortNoteRule_frame p i notes ctx r :
  Rules.ShortNoteRule_apply (F := F) p i notes ctx = Some r ->
  notes_frame notes r.1.
Proof.
  unfold Rules.ShortNoteRule_apply.
  destruct (notes !! i) as [note|] eqn:E; [|intros [= <-]; reflexivity].
  destruct (_ =? 0); [discriminate|].
  destruct (fltb _ _); intros [= <-]; [|reflexivity].
  eapply frame_insert; [eassumption|same_orig].
Qed.

Lemma LongNoteRule_frame p i notes ctx :
  notes_frame notes (Rules.LongNoteRule_apply (F := F) p i notes ctx).1.
Proof. unfold Rules.LongNoteRule_apply. frame_rule. Qed.

Lemma AccelerandoRule_frame p i notes ctx :
  notes_frame notes (Rules.AccelerandoRule_apply (F := F) p i notes ctx).1.
Proof. unfold Rules.AccelerandoRule_apply. frame_rule. Qed.

Lemma SequenceAccelerationRule_frame p st i notes ctx :
  notes_frame notes
    (Rules.SequenceAccelerationRule_apply (F := F) p st i notes ctx).1.2.
Proof. unfold Rules.SequenceAccelerationRule_apply. frame_rule. Qed.

Lemma DirectionalRule_frame p i notes ctx :
  notes_frame notes (Rules.DirectionalRule_apply (F := F) p i notes ctx).1.
Proof. unfold Rules.DirectionalRule_apply. frame_rule. Qed.

Lemma BassDownbeatRule_frame p i notes ctx :
  notes_frame notes (Rules.BassDownbeatRule_apply (F := F) p i notes ctx).1.
Proof. unfold Rules.BassDownbeatRule_apply. frame_rule. Qed.

Lemma BassShortNoteRule_frame p i notes ctx :
  notes_frame notes (Rules.BassShortNoteRule_apply (F := F) p i notes ctx).1.
Proof. unfold Rules.BassShortNoteRule_apply. frame_rule. Qed.

Lemma BassRepeatedNotesRule_frame rnd p st i notes ctx k :
  notes_frame notes
    (Rules.BassRepeatedNotesRule_apply (F := F) rnd p st i notes ctx k).1.1.2.
Proof.
  unfold Rules.BassRepeatedNotesRule_apply, Rules.random_uniform.
  destruct (notes !! i) as [note|] eqn:E; [|reflexivity].
  destruct (_ && _); [|reflexivity].
  repeat match goal with
         | |- context [if ?b then _ else _] => destruct b
         end;
    cbn [fst snd]; (eapply frame_insert; [eassumption|same_orig]).
Qed.

Lemma BassPhraseEndRule_frame p i notes ctx :
  notes_frame notes (Rules.BassPhraseEndRule_apply (F := F) p i notes ctx).1.
Proof. unfold Rules.BassPhraseEndRule_apply. frame_rule. Qed.

Lemma InnerVoiceBaseVelocityRule_frame p i notes ctx :
  notes_frame notes
    (Rules.InnerVoiceBaseVelocityRule_apply (F := F) p i notes ctx).1.
Proof. unfold Rules.InnerVoiceBaseVelocityRule_apply. frame_rule. Qed.

Lemma InnerContourRule_frame p i notes ctx :
  notes_frame notes (Rules.InnerContourRule_apply (F := F) p i notes ctx).1.
Proof. unfold Rules.InnerContourRule_apply. frame_rule. Qed.

Lemma InnerConsonantRule_frame p i notes ctx :
  notes_frame notes (Rules.InnerConsonantRule_apply (F := F) p i notes ctx).1.
Proof. unfold Rules.InnerConsonantRule_apply. frame_rule. Qed.

Lemma InnerFlowTimingRule_frame rnd p i notes ctx k :
  notes_frame notes
    (Rules.InnerFlowTimingRule_apply (F := F) rnd p i notes ctx k).1.1.
Proof.
  unfold Rules.InnerFlowTimingRule_apply, Rules.random_uniform_int.
  frame_rule.
Qed.

Lemma InnerShortNoteRule_frame p i notes ctx :
  notes_frame notes (Rules.InnerShortNoteRule_apply (F := F) p i notes ctx).1.
Proof. unfold Rules.InnerShortNoteRule_apply. frame_rule. Qed.

(** Whatever its class, a rule that returns leaves the original fields of
    every note of the voice as they were. *)
Lemma apply_frame rnd (rule : Rules.InterpretationRule) i notes ctx k
    rule' notes' k' b :
  Rules.apply (F := F) rnd rule i notes ctx k = Some (rule', notes', k', b) ->
  notes_frame notes notes'.
Proof.
  unfold Rules.apply, Rules.stateless.
  destruct (Rules.impl rule) eqn:Ei.
  all: try (intros [= <- <- <- <-]).
  - apply PhraseStartRule_frame.
  - apply PhraseEndRule_frame.
  - apply PreLeapRule_frame.
  - apply LocalPeakRule_frame.
  - apply DownbeatRule_frame.
  - destruct (Rules.ShortNoteRule_apply _ _ _ _) as [r|] eqn:Er; [|discriminate].
    intros [= <- <- <- <-]. eapply ShortNoteRule_frame, Er.
  - apply LongNoteRule_frame.
  - apply AccelerandoRule_frame.
  - pose proof (SequenceAccelerationRule_frame p st i notes ctx) as Hf.
    destruct (Rules.SequenceAccelerationRule_apply _ _ _ _ _) as [[st' ns] b'].
    intros [= <- <- <- <-]. exact Hf.
  - apply DirectionalRule_frame.
  - apply BassDownbeatRule_frame.
  - apply BassShortNoteRule_frame.
  - pose proof (BassRepeatedNotesRule_frame rnd p st i notes ctx k) as Hf.
    destruct (Rules.BassRepeatedNotesRule_apply _ _ _ _ _ _ _)
      as [[[st' ns] k1] b'].
    intros [= <- <- <- <-]. exact Hf.
  - apply BassPhraseEndRule_frame.
  - apply InnerVoiceBaseVelocityRule_frame.
  - apply InnerContourRule_frame.
  - apply InnerConsonantRule_frame.
  - pose proof (InnerFlowTimingRule_frame rnd p i notes ctx k) as Hf.
    destruct (Rules.InnerFlowTimingRule_apply _ _ _ _ _ _) as [[ns k1] b'].
    intros [= <- <- <- <-]. exact Hf.
  - apply InnerShortNoteRule_frame.
Qed.

Lemma apply_rules_to_note_frame rnd vt rules i notes ctx k stats :
  notes_frame notes
    (RuleManager.apply_rules_to_note (F := F) rnd vt rules i notes ctx k stats)
      .1.1.1.2.
Proof.
  revert notes k stats.
  induction rules as [|rule rest IH]; intros notes k stats; cbn; [reflexivity|].
  destruct (Rules.enabled rule).
  - destruct (Rules.apply rnd rule i notes ctx k) as [[[[rule' notes'] k'] b]|] eqn:Ea.
    + pose proof (apply_frame _ _ _ _ _ _ _ _ _ _ Ea) as H1.
      match goal with
      | |- context [RuleManager.apply_rules_to_note rnd vt rest i notes' ctx k' ?s] =>
          pose proof (IH notes' k' s) as H2;
          destruct (RuleManager.apply_rules_to_note rnd vt rest i notes' ctx k' s)
            as [[[[? ?] ?] ?] ?]
      end.
      cbn in * |- *. etransitivity; eassumption.
    + pose proof (IH notes k stats) as H2.
      destruct (RuleManager.apply_rules_to_note rnd vt rest i notes ctx k stats)
        as [[[[? ?] ?] ?] ?]. exact H2.
  - pose proof (IH notes k stats) as H2.
    destruct (RuleManager.apply_rules_to_note rnd vt rest i notes ctx k stats)
      as [[[[? ?] ?] ?] ?]. exact H2.
Qed.

Lemma interpret_note_frame rnd role
    (st : NoteLevelInterpreter.t F * list note_t * list (Z * F)) i :
  notes_frame st.1.2 (NoteLevelInterpreter.interpret_note rnd role st i).1.2.
Proof.
  destruct st as [[self notes] cache]. unfold NoteLevelInterpreter.interpret_note.
  destruct (notes !! i) as [note|]; [|reflexivity].
  destruct (PyDict.get _ cache).
  - destruct (RuleManager.rule_sets _ !! _) as [rules|]; [|reflexivity].
    match goal with
    | |- context [RuleManager.apply_rules_to_note rnd ?vt rules i notes ?c ?k ?s] =>
        pose proof (apply_rules_to_note_frame rnd vt rules i notes c k s) as Hf;
        destruct (RuleManager.apply_rules_to_note rnd vt rules i notes c k s)
          as [[[[? ?] ?] ?] ?]
    end.
    exact Hf.
  - destruct (RuleManager.rule_sets _ !! _) as [rules|]; [|reflexivity].
    match goal with
    | |- context [RuleManager.apply_rules_to_note rnd ?vt rules i notes ?c ?k ?s] =>
        pose proof (apply_rules_to_note_frame rnd vt rules i notes c k s) as Hf;
        destruct (RuleManager.apply_rules_to_note rnd vt rules i notes c k s)
          as [[[[? ?] ?] ?] ?]
    end.
    exact Hf.
Qed.

Lemma interpret_voice_frame rnd (self : NoteLevelInterpreter.t F) (voice : voice_t) :
  notes_frame (MusicalVoice.notes voice)
    (MusicalVoice.notes (NoteLevelInterpreter._interpret_voice rnd self voice).2).
Proof.
  unfold NoteLevelInterpreter._interpret_voice.
  assert (forall l (st : NoteLevelInterpreter.t F * list note_t * list (Z * F)),
            notes_frame st.1.2
              (foldl (NoteLevelInterpreter.interpret_note rnd
                        (MusicalVoice.role voice)) st l).1.2) as Hloop.
  { induction l as [|i l IH]; intros st; cbn; [reflexivity|].
    etransitivity; [apply interpret_note_frame|apply IH]. }
  match goal with
  | |- context [foldl ?f ?st ?l] =>
      pose proof (Hloop l st) as Hf; destruct (foldl f st l) as [[? ?] ?]
  end.
  destruct voice; exact Hf.
Qed.

Lemma interpret_voices_frame rnd (self : NoteLevelInterpreter.t F) :
  voices_frame (NoteLevelInterpreter.voices self)
    (NoteLevelInterpreter.voices (NoteLevelInterpreter.interpret_voices rnd self)).
Proof.
  unfold NoteLevelInterpreter.interpret_voices.
  assert (forall l (self : NoteLevelInterpreter.t F) done done0,
            voices_frame done0 done ->
            voices_frame (done0 ++ l)
              (foldl (fun '(self, done) voice =>
                        let '(self, voice) :=
                          NoteLevelInterpreter._interpret_voice rnd self voice in
                        (self, done ++ [voice])) (self, done) l).2) as Hloop.
  { induction l as [|v l IH]; intros s done done0 Hd; cbn.
    - rewrite app_nil_r. exact Hd.
    - pose proof (interpret_voice_frame rnd s v) as Hv.
      destruct (NoteLevelInterpreter._interpret_voice rnd s v) as [s' v'].
      replace (done0 ++ v :: l) with ((done0 ++ [v]) ++ l)
        by (rewrite <- app_assoc; reflexivity).
      apply IH. apply Forall2_app; [exact Hd|]. constructor; [exact Hv|constructor]. }
  assert (voices_frame (F := F) [] []) as H0 by constructor.
  pose proof (Hloop (NoteLevelInterpreter.voices self) self [] [] H0) as Hf.
  destruct (foldl _ _ _) as [s vs]. exact Hf.
Qed.

Lemma validate_frame (self : NoteLevelInterpreter.t F) :
  voices_frame (NoteLevelInterpreter.voices self)
    (NoteLevelInterpreter.voices
       (NoteLevelInterpreter._validate_and_fix_note_durations self)).
Proof.
  assert (NoteLevelInterpreter.voices
            (NoteLevelInterpreter._validate_and_fix_note_durations self)
          = map (fun v => (NoteLevelInterpreter.validate_voice
                             (NoteLevelInterpreter.ticks_per_beat self) v).1)
                (NoteLevelInterpreter.voices self)) as ->.
  { unfold NoteLevelInterpreter._validate_and_fix_note_durations.
    destruct (0 <? _); cbn; apply map_map. }
  unfold voices_frame. apply Forall2_fmap_r, Forall_Forall2_diag, Forall_forall.
  intros v _. destruct v as [? ? ns ? ? ? ? ? ?]. cbn. rewrite map_map.
  apply Forall2_fmap_r, Forall_Forall2_diag, Forall_forall. intros n _.
  unfold NoteLevelInterpreter.validate_note, compose.
  destruct (NoteLevelInterpreter.is_checked
              (NoteLevelInterpreter.ticks_per_beat self) n); [|reflexivity].
  destruct (adjusted_duration n <? _);
    [apply same_original_duration|reflexivity].
Qed.

(** C8: a complete run ([interpret]: structure analysis, rule application
    over all voices, then the validation pass) leaves [pitch], [velocity],
    [original_start_time], [original_duration], [track] and [channel] of
    every note of every voice as they were, whatever the rule
    configuration, the random numbers and the faults met while building
    the agogic map. *)
Theorem interpret_preserves_original_fields
    (np_sin : F -> F) (np_pi : F) (random_random : nat -> F)
    (fl : OrchestralConductor.faults) (r1 r2 r3 : F)
    (self : NoteLevelInterpreter.t F) :
  voices_frame
    (NoteLevelInterpreter.voices self)
    (NoteLevelInterpreter.voices
       (NoteLevelInterpreter.interpret np_sin np_pi random_random fl r1 r2 r3 self)).
Proof.
  unfold NoteLevelInterpreter.interpret.
  set (self1 := NoteLevelInterpreter.set_orchestral_conductor _ self).
  assert (NoteLevelInterpreter.voices self = NoteLevelInterpreter.voices self1)
    as -> by reflexivity.
  pose proof (interpret_voices_frame random_random self1) as H1.
  pose proof (validate_frame
                (NoteLevelInterpreter.interpret_voices random_random self1)) as H2.
  unfold voices_frame in * |- *.
  eapply Forall2_trans; [|exact H1|exact H2].
  intros x y z Hxy Hyz. cbv beta in Hxy, Hyz |- *.
  transitivity (MusicalVoice.notes y); assumption.
Qed.

End Frame.

(** *** Stable sorting *)

Section SortFacts.
Context {A : Type} (le : A -> A -> bool).
Hypothesis le_total : forall a b, le a b = true \/ le b a = true.
Hypothesis le_trans : forall a b c, le a b = true -> le b c = true -> le a c = true.

Lemma insert_sorted_perm (x : A) (l : list A) :
  PyList.insert_sorted le x l ≡ₚ x :: l.
Proof.
  induction l as [|y l IH]; cbn; [reflexivity|].
  destruct (le x y); [reflexivity|].
  rewrite IH. apply Permutation_swap.
Qed.

Lemma sorted_perm (l : list A) : PyList.sorted le l ≡ₚ l.
Proof.
  unfold PyList.sorted.
  induction l as [|x l IH]; cbn; [reflexivity|].
  rewrite insert_sorted_perm, IH. reflexivity.
Qed.

Lemma insert_sorted_sorted (x : A) (l : list A) :
  StronglySorted (fun a b => le a b = true) l ->
  StronglySorted (fun a b => le a b = true) (PyList.insert_sorted le x l).
Proof.
  induction 1 as [|y l Hl IH Hy]; cbn.
  - repeat constructor.
  - destruct (le x y) eqn:E.
    + constructor; [constructor; assumption|].
      constructor; [exact E|].
      eapply Forall_impl; [exact Hy|]. intros z Hz. eapply le_trans; eassumption.
    + constructor; [exact IH|].
      rewrite insert_sorted_perm. constructor; [|exact Hy].
      destruct (le_total x y) as [H1|H1]; [congruence|exact H1].
Qed.

Lemma sorted_sorted (l : list A) :
  StronglySorted (fun a b => le a b = true) (PyList.sorted le l).
Proof.
  unfold PyList.sorted.
  induction l as [|x l IH]; cbn; [constructor|].
  apply insert_sorted_sorted, IH.
Qed.

(** Sorting a sorted list changes nothing. *)
Lemma sorted_of_sorted (l : list A) :
  StronglySorted (fun a b => le a b = true) l -> PyList.sorted le l = l.
Proof.
  unfold PyList.sorted.
  induction 1 as [|x l Hl IH Hx]; cbn; [reflexivity|].
  rewrite IH. destruct l as [|y l]; [reflexivity|]. cbn.
  apply Forall_cons in Hx as [-> _]. reflexivity.
Qed.

End SortFacts.

(** *** Phrase detection (C2) *)

Section Phrases.
Context {F : Type} `{!PyFloat F}.
Local Abbreviation note_t := (NoteProperties.t F).

Lemma by_start_total (a b : note_t) :
  MusicalVoice.by_start a b = true \/ MusicalVoice.by_start b a = true.
Proof. unfold MusicalVoice.by_start. lia. Qed.

Lemma by_start_trans (a b c : note_t) :
  MusicalVoice.by_start a b = true -> MusicalVoice.by_start b c = true ->
  MusicalVoice.by_start a c = true.
Proof. unfold MusicalVoice.by_start. lia. Qed.

(** The three criteria, spelled out. *)
Lemma phrase_ends_before_iff (tpb : Z) (prev cur : note_t) :
  MusicalVoice.phrase_ends_before tpb prev cur = true
  <-> (tpb < original_start_time cur
             - (original_start_time prev + original_duration prev)
       \/ tpb * 2 < original_duration prev
       \/ 7 < Z.abs (pitch cur - pitch prev)).
Proof.
  unfold MusicalVoice.phrase_ends_before, MusicalVoice.is_gap,
    MusicalVoice.is_long_note, MusicalVoice.is_large_interval.
  rewrite !orb_true_iff, !Z.ltb_lt. tauto.
Qed.

Lemma ends_before_b_iff (tpb : Z) (sorted_notes : list note_t) (j : nat) :
  ends_before_b tpb sorted_notes j = true <-> ends_before tpb sorted_notes j.
Proof.
  unfold ends_before_b, ends_before. destruct j as [|j'].
  - split; [discriminate|]. intros (?&?&?&_). lia.
  - replace (S j' - 1)%nat with j' by lia.
    destruct (sorted_notes !! j') as [p|] eqn:Ep;
      destruct (sorted_notes !! S j') as [c|] eqn:Ec.
    + rewrite phrase_ends_before_iff. split.
      * intros Hc. exists p, c. repeat split; [lia|exact Hc].
      * intros (p'&c'&_&[= <-]&[= <-]&Hc). exact Hc.
    + split; [discriminate|]. intros (?&?&_&_&?&_). discriminate.
    + split; [discriminate|]. intros (?&?&_&?&_). discriminate.
    + split; [discriminate|]. intros (?&?&_&?&_). discriminate.
Qed.

(** The loop over the notes is the scan over their positions. *)
Lemma detect_loop_scan (tpb : Z) (sorted_notes : list note_t) :
  forall (rest : list note_t) (prev : note_t) (i cps : nat) phrases,
    sorted_notes !! i = head rest ->
    (forall k, sorted_notes !! (i + k)%nat = rest !! k) ->
    sorted_notes !! (i - 1)%nat = Some prev -> (0 < i)%nat ->
    MusicalVoice.detect_loop tpb prev rest i cps phrases
    = scan_positions (ends_before_b tpb sorted_notes) (length rest) i cps phrases.
Proof.
  induction rest as [|cur rest IH]; intros prev i cps phrases Hh Hk Hp Hi;
    [reflexivity|].
  cbn [MusicalVoice.detect_loop scan_positions length].
  assert (ends_before_b tpb sorted_notes i
          = MusicalVoice.phrase_ends_before tpb prev cur) as ->.
  { unfold ends_before_b. destruct i as [|i']; [lia|].
    replace (S i' - 1)%nat with i' in Hp by lia. rewrite Hp, Hh. reflexivity. }
  assert (forall cps' ph',
            MusicalVoice.detect_loop tpb cur rest (S i) cps' ph'
            = scan_positions (ends_before_b tpb sorted_notes) (length rest)
                (S i) cps' ph') as Hrec.
  { intros cps' ph'. apply IH.
    - specialize (Hk 1%nat). replace (i + 1)%nat with (S i) in Hk by lia.
      rewrite Hk. destruct rest; reflexivity.
    - intros k. specialize (Hk (S k)).
      replace (i + S k)%nat with (S i + k)%nat in Hk by lia. exact Hk.
    - replace (S i - 1)%nat with i by lia. rewrite Hh. reflexivity.
    - lia. }
  destruct (MusicalVoice.phrase_ends_before tpb prev cur); apply Hrec.
Qed.

(** What the scan registers. *)
Lemma scan_positions_spec (brk : nat -> bool) :
  forall (m i cps : nat) (phrases : list MusicalVoice.phrase),
    (cps < i)%nat -> (forall j, (cps < j < i)%nat -> brk j = false) ->
    let r := scan_positions brk m i cps phrases in
    ((r.1 = cps /\ forall j, (i <= j < i + m)%nat -> brk j = false)
     \/ ((i <= r.1 < i + m)%nat /\ brk r.1 = true
         /\ forall j, (r.1 < j < i + m)%nat -> brk j = false))
    /\ forall s e k,
         (s, e, k) ∈ r.2 <->
         (s, e, k) ∈ phrases
         \/ (k = "standard" /\ (i <= S e < i + m)%nat /\ brk (S e) = true
             /\ (2 < S e - s)%nat
             /\ (s = cps \/ ((i <= s)%nat /\ brk s = true))
             /\ forall j, (s < j <= e)%nat -> brk j = false).
Proof.
  induction m as [|m IH]; intros i cps phrases Hlt Hpre; cbv zeta;
    cbn [scan_positions].
  - cbn. split; [left; split; [reflexivity|intros; lia]|].
    intros s e k. split; [auto|]. intros [?|(_&?&_)]; [assumption|lia].
  - destruct (brk i) eqn:Ebi.
    + set (phrases1 := if 2 <? Z.of_nat i - Z.of_nat cps
                       then phrases ++ [(cps, (i - 1)%nat, "standard")]
                       else phrases).
      assert (forall s e k, (s, e, k) ∈ phrases1 <->
                (s, e, k) ∈ phrases
                \/ (s = cps /\ e = (i - 1)%nat /\ k = "standard"
                    /\ (2 < i - cps)%nat)) as Hph1.
      { intros s e k. unfold phrases1.
        destruct (Z.ltb_spec 2 (Z.of_nat i - Z.of_nat cps)).
        - rewrite elem_of_app, list_elem_of_singleton. split.
          + intros [?|[= -> -> ->]]; [auto|]. right. repeat split; lia.
          + intros [?|(->& -> & -> &_)]; auto.
        - split; [auto|]. intros [?|(_&_&_&?)]; [assumption|lia]. }
      assert (i < S i)%nat as Hi1 by lia.
      assert (forall j, (i < j < S i)%nat -> brk j = false) as Hi2
        by (intros; lia).
      pose proof (IH (S i) i phrases1 Hi1 Hi2) as [Hcps Hphr]. clear Hi1 Hi2.
      split.
      * right. destruct Hcps as [[-> Hno]|(Hr&Hb&Hno)].
        -- split; [lia|]. split; [exact Ebi|]. intros j Hj. apply Hno. lia.
        -- split; [lia|]. split; [exact Hb|]. intros j Hj. apply Hno. lia.
      * intros s e k. rewrite Hphr, Hph1. split.
        -- intros [[?|(-> & -> & -> & ?)]|(-> & ? & ? & ? & Hs & Hno)].
           ++ left. assumption.
           ++ right. replace (S (i - 1)) with i by lia.
              split; [reflexivity|]. split; [lia|]. split; [exact Ebi|].
              split; [lia|]. split; [left; reflexivity|].
              intros j Hj. apply Hpre. lia.
           ++ right. split; [reflexivity|]. split; [lia|].
              split; [assumption|]. split; [lia|]. split; [|exact Hno].
              right. destruct Hs as [->|[? ?]]; split; (lia || assumption).
        -- intros [?|(-> & ? & Hb & ? & Hs & Hno)]; [left; left; assumption|].
           destruct (decide (S e = i)) as [He|He].
           ++ left. right. destruct Hs as [->|[? ?]]; [|lia].
              repeat split; lia.
           ++ right. split; [reflexivity|]. split; [lia|].
              split; [assumption|]. split; [lia|]. split; [|exact Hno].
              destruct Hs as [->|[? ?]].
              ** exfalso. rewrite (Hno i) in Ebi by lia. discriminate.
              ** destruct (decide (s = i)); [left; assumption|right].
                 split; [lia|assumption].
    + assert (cps < S i)%nat as Hi1 by lia.
      assert (forall j, (cps < j < S i)%nat -> brk j = false) as Hi2.
      { intros j Hj. destruct (decide (j = i)) as [->|]; [exact Ebi|].
        apply Hpre. lia. }
      pose proof (IH (S i) cps phrases Hi1 Hi2) as [Hcps Hphr]. clear Hi1 Hi2.
      split.
      * destruct Hcps as [[-> Hno]|(Hr&Hb&Hno)].
        -- left. split; [reflexivity|]. intros j Hj.
           destruct (decide (j = i)) as [->|]; [exact Ebi|]. apply Hno. lia.
        -- right. split; [lia|]. split; [exact Hb|]. intros j Hj. apply Hno. lia.
      * intros s e k. rewrite Hphr. split.
        -- intros [?|(-> & ? & ? & ? & Hs & Hno)]; [left; assumption|].
           right. split; [reflexivity|]. split; [lia|].
           split; [assumption|]. split; [lia|]. split; [|exact Hno].
           destruct Hs as [->|[? ?]]; [left; reflexivity|right].
           split; [lia|assumption].
        -- intros [?|(-> & ? & Hb & ? & Hs & Hno)]; [left; assumption|].
           right.
           assert (S e <> i) by (intros Heq; rewrite Heq in Hb; congruence).
           split; [reflexivity|]. split; [lia|].
           split; [assumption|]. split; [lia|]. split; [|exact Hno].
           destruct Hs as [->|[? Hbs]]; [left; reflexivity|right].
           assert (s <> i) by (intros Heq; rewrite Heq in Hbs; congruence).
           split; [lia|assumption].
Qed.

Lemma ends_before_b_range (tpb : Z) (sorted_notes : list note_t) (j : nat) :
  ends_before_b tpb sorted_notes j = true ->
  (0 < j < length sorted_notes)%nat.
Proof.
  unfold ends_before_b. destruct j as [|j']; [discriminate|].
  destruct (sorted_notes !! j'); [|discriminate].
  destruct (sorted_notes !! S j') eqn:E; [|discriminate].
  intros _. apply lookup_lt_Some in E. lia.
Qed.

(** C2, amended: [_detect_phrases] scans the notes in start-time order
    (a stable sort by [original_start_time]) and ends the current phrase
    before a note exactly when the gap from the previous note's end
    exceeds one beat, or the previous note lasts more than two beats, or
    the pitch interval to the previous note exceeds 7 semitones; there is
    no downbeat criterion.  The registered phrases of a fresh voice are
    exactly the segments [(s, e)] between two consecutive such boundaries
    (the start and the end of the voice included) that hold at least 3
    notes; the segment that reaches the last note has kind "final" (it,
    too, only when it holds at least 3 notes), the others "standard". *)
Theorem phrase_detection_by_three_criteria (tpb : Z) (notes : list note_t) :
  let sorted_notes := PyList.sorted MusicalVoice.by_start notes in
  let n := length sorted_notes in
  sorted_notes ≡ₚ notes
  /\ StronglySorted (fun a b => MusicalVoice.by_start a b = true) sorted_notes
  /\ (forall prev cur : note_t,
        MusicalVoice.phrase_ends_before tpb prev cur = true
        <-> (tpb < original_start_time cur
                   - (original_start_time prev + original_duration prev)
             \/ tpb * 2 < original_duration prev
             \/ 7 < Z.abs (pitch cur - pitch prev)))
  /\ forall s e k,
       (s, e, k) ∈ MusicalVoice.detect_phrases_of tpb notes []
       <-> ((s <= e < n)%nat
            /\ (s = 0%nat \/ ends_before tpb sorted_notes s)
            /\ (forall j, (s < j <= e)%nat -> ~ ends_before tpb sorted_notes j)
            /\ (3 <= S e - s)%nat
            /\ ((S e = n /\ k = "final")
                \/ (ends_before tpb sorted_notes (S e) /\ k = "standard"))).
Proof.
  intros sorted_notes n.
  split; [apply sorted_perm|].
  split; [apply sorted_sorted; [apply by_start_total|apply by_start_trans]|].
  split; [apply phrase_ends_before_iff|].
  intros s e k. unfold MusicalVoice.detect_phrases_of. fold sorted_notes.
  set (brk := ends_before_b tpb sorted_notes).
  assert (forall j, ends_before tpb sorted_notes j <-> brk j = true) as Hb
    by (intros j; symmetry; apply ends_before_b_iff).
  assert (forall j, brk j = true -> (0 < j < n)%nat) as Hrange
    by (intros j; apply ends_before_b_range).
  assert (forall j, ~ ends_before tpb sorted_notes j <-> brk j = false) as Hnb.
  { intros j. rewrite Hb. destruct (brk j); split; congruence. }
  setoid_rewrite Hnb. rewrite !Hb. clear Hb Hnb.
  destruct sorted_notes as [|first rest] eqn:Es.
  { cbn in n. split; [intros Hin; inversion Hin|]. intros ([_ ?]&_). lia. }
  rewrite (detect_loop_scan tpb (first :: rest) rest first 1 0 []);
    [|destruct rest; reflexivity|intros; reflexivity|reflexivity|lia].
  fold brk.
  assert (0 < 1)%nat as H01 by lia.
  assert (forall j, (0 < j < 1)%nat -> brk j = false) as Hnone by (intros; lia).
  pose proof (scan_positions_spec brk (length rest) 1 0 [] H01 Hnone) as [HA HB].
  clear H01 Hnone.
  destruct (scan_positions brk (length rest) 1 0 []) as [cps ph]. cbn [fst snd] in HA, HB.
  assert (n = S (length rest)) as Hn by reflexivity.
  assert ((s, e, k) ∈ (if 2 <? Z.of_nat (S (length rest)) - Z.of_nat cps
                        then ph ++ [(cps, (S (length rest) - 1)%nat, "final")]
                        else ph)
          <-> (s, e, k) ∈ ph
              \/ (s = cps /\ S e = n /\ k = "final" /\ (2 < n - cps)%nat)) as ->.
  { destruct (Z.ltb_spec 2 (Z.of_nat (S (length rest)) - Z.of_nat cps)).
    - rewrite elem_of_app, list_elem_of_singleton. split.
      + intros [?|[= -> -> ->]]; [auto|]. right. repeat split; lia.
      + intros [?|(-> & ? & -> & _)]; [auto|]. right. f_equal. f_equal. lia.
    - split; [auto|]. intros [?|(_&_&_&?)]; [assumption|lia]. }
  rewrite HB. clear HB. split.
  - intros [[Hin|(-> & ? & Hbe & ? & Hs & Hno)]|(-> & He & -> & ?)].
    + inversion Hin.
    + split; [lia|]. split; [destruct Hs as [->|[_ ?]]; auto|].
      split; [exact Hno|]. split; [lia|]. right. split; [exact Hbe|reflexivity].
    + split; [lia|]. split.
      { destruct HA as [[-> _]|(_ & ? & _)]; auto. }
      split.
      { intros j Hj. destruct HA as [[-> Hno]|(_ & _ & Hno)]; apply Hno; lia. }
      split; [lia|]. left. split; [exact He|reflexivity].
  - intros (Hse & Hs & Hno & H3 & [[He ->]|[Hbe ->]]).
    + right. split; [|split; [exact He|split; [reflexivity|]]].
      * destruct HA as [[-> Hnone]|(Hc & Hbc & Hafter)].
        -- destruct Hs as [->|Hbs]; [reflexivity|].
           pose proof (Hrange _ Hbs). rewrite Hnone in Hbs by lia. discriminate.
        -- destruct (lt_eq_lt_dec s cps) as [[Hlt| ->]|Hgt]; [| reflexivity |].
           ++ rewrite Hno in Hbc by lia. discriminate.
           ++ destruct Hs as [->|Hbs]; [lia|].
              rewrite Hafter in Hbs by lia. discriminate.
      * assert (s = cps) as ->; [|lia].
        destruct HA as [[-> Hnone]|(Hc & Hbc & Hafter)].
        -- destruct Hs as [->|Hbs]; [reflexivity|].
           pose proof (Hrange _ Hbs). rewrite Hnone in Hbs by lia. discriminate.
        -- destruct (lt_eq_lt_dec s cps) as [[Hlt| ->]|Hgt]; [| reflexivity |].
           ++ rewrite Hno in Hbc by lia. discriminate.
           ++ destruct Hs as [->|Hbs]; [lia|].
              rewrite Hafter in Hbs by lia. discriminate.
    + left. right. pose proof (Hrange _ Hbe).
      split; [reflexivity|]. split; [lia|]. split; [exact Hbe|].
      split; [lia|]. split; [|exact Hno].
      destruct Hs as [->|Hbs]; [left; reflexivity|right].
      pose proof (Hrange _ Hbs). split; [lia|exact Hbs].
Qed.

End Phrases.

(** C2, as stated, fails: with five quarter notes in a row, the fifth
    note starts a measure (a downbeat) when the current phrase already
    holds four notes, yet the source does not end the phrase there: it
    registers the single phrase (0, 4, "final"), where the criteria of the
    claim give (0, 3, "standard"). *)
Lemma downbeat_does_not_end_the_phrase :
  MusicalVoice.phrases (analyzed_voice (F := float) 0 five_quarters)
  = [(0%nat, 4%nat, "final")]
  /\ MusicalVoice.detect_phrases_of (F := float) 480 five_quarters []
     = [(0%nat, 4%nat, "final")]
  /\ claimed_detect_phrases (F := float) 480 five_quarters
     = [(0%nat, 3%nat, "standard")]
  /\ (forall n : NoteProperties.t float,
        five_quarters !! 4%nat = Some n ->
        is_downbeat (MusicalVoice.metric_of 480 n) = true)
  /\ MusicalVoice.detect_phrases_of (F := float) 480 five_quarters []
     <> claimed_detect_phrases (F := float) 480 five_quarters.
Proof.
  split; [vm_compute; reflexivity|].
  split; [vm_compute; reflexivity|].
  split; [vm_compute; reflexivity|].
  split; [intros n [= <-]; vm_compute; reflexivity|].
  intros E. vm_compute in E. congruence.
Qed.


(** *** One midpoint per wide gap (C9) *)

Section Midpoints.
Local Abbreviation point := (Dynamics.point (F := Q)).
Local Abbreviation le := (Dynamics.by_offset (F := Q)).
Local Abbreviation sortedP := (StronglySorted (fun a b : point => le a b = true)).
Local Arguments Dynamics.by_offset : simpl never.
Local Arguments Dynamics.wide_gap : simpl never.
Local Arguments Dynamics.mid_point : simpl never.

Lemma by_offset_le (a b : point) : le a b = true <-> (a.1 <= b.1)%Q.
Proof. apply Qle_bool_iff. Qed.

Lemma by_offset_gt (a b : point) : le a b = false <-> (b.1 < a.1)%Q.
Proof.
  rewrite <- not_true_iff_false, by_offset_le. split.
  - apply Qnot_le_lt.
  - apply Qlt_not_le.
Qed.

Lemma by_offset_total (a b : point) : le a b = true \/ le b a = true.
Proof.
  rewrite !by_offset_le. destruct (Qlt_le_dec b.1 a.1) as [H|H]; [|auto].
  right. apply Qlt_le_weak, H.
Qed.

Lemma by_offset_trans (a b c : point) :
  le a b = true -> le b c = true -> le a c = true.
Proof. rewrite !by_offset_le. apply Qle_trans. Qed.

Lemma wide_gap_unfold (prev curr : point) :
  Dynamics.wide_gap prev curr = negb (Qle_bool (curr.1 - prev.1) 8).
Proof. reflexivity. Qed.

Lemma wide_gap_lt (prev curr : point) :
  Dynamics.wide_gap prev curr = true -> (8 < curr.1 - prev.1)%Q.
Proof.
  rewrite wide_gap_unfold, negb_true_iff.
  intros H. apply Qnot_le_lt. intros C.
  apply Qle_bool_iff in C. congruence.
Qed.

(** The midpoint lies strictly between its neighbours, half-way. *)
Lemma mid_point_between (prev curr : point) :
  Dynamics.wide_gap prev curr = true ->
  ((Dynamics.mid_point prev curr).1 == (prev.1 + curr.1) / 2)%Q
  /\ (prev.1 < (Dynamics.mid_point prev curr).1)%Q
  /\ ((Dynamics.mid_point prev curr).1 < curr.1)%Q.
Proof.
  intros Hw%wide_gap_lt. destruct prev as [po pv], curr as [co cv]. cbn in *.
  assert ((po + (co - po) / inject_Z 2 == (po + co) / 2)%Q) as E
    by (change (inject_Z 2) with 2%Q; field).
  split; [exact E|]. rewrite E.
  split.
  - apply Qlt_shift_div_l; [reflexivity|]. lra.
  - apply Qlt_shift_div_r; [reflexivity|]. lra.
Qed.

(** The value of the midpoint: the mean of the two values, cut toward 0. *)
Lemma mid_point_value (prev curr : point) :
  (Dynamics.mid_point prev curr).2 = (prev.2 + curr.2) ÷ 2.
Proof.
  destruct prev as [po pv], curr as [co cv].
  unfold Dynamics.mid_point, py_int. cbn.
  unfold Qle_bool, Qfloor. cbn.
  change (Z.pos (1 * (1 * 2))) with 2. change (Z.pos (1 * 2)) with 2.
  replace (pv * 2 + (cv - pv) * 1 * 1) with (pv + cv) by lia.
  replace (0 * 2) with 0 by lia.
  replace ((pv + cv) * 1) with (pv + cv) by lia.
  destruct (Z.leb_spec 0 (pv + cv)) as [H|H]; cbn.
  - rewrite Z.quot_div_nonneg by lia. reflexivity.
  - rewrite <- (Z.opp_involutive (pv + cv)) at 2.
    rewrite Z.quot_opp_l by lia.
    rewrite Z.quot_div_nonneg by lia. reflexivity.
Qed.

Lemma insert_sorted_front (x : point) (l : list point) :
  Forall (fun y => le x y = true) l ->
  PyList.insert_sorted le x l = x :: l.
Proof.
  intros Hl. destruct l as [|y l]; [reflexivity|]. cbn.
  apply Forall_cons in Hl as [-> _]. reflexivity.
Qed.

(** Later points, inserted into a list that starts with an earlier
    point, go behind it. *)
Lemma foldr_insert_behind (m : point) (acc later : list point) :
  Forall (fun y => le y m = false) later ->
  foldr (PyList.insert_sorted le) (m :: acc) later
  = m :: foldr (PyList.insert_sorted le) acc later.
Proof.
  induction 1 as [|y later Hy _ IH]; cbn; [reflexivity|].
  rewrite IH. cbn. rewrite Hy. reflexivity.
Qed.

(** Every midpoint of a sorted list lies strictly after its first point. *)
Lemma interpolated_after_head (p : point) (l : list point) :
  sortedP (p :: l) ->
  Forall (fun x => (p.1 < x.1)%Q) (Dynamics.interpolated_points (p :: l)).
Proof.
  revert p. induction l as [|q l IH]; intros p Hs; [constructor|].
  cbn [Dynamics.interpolated_points].
  apply StronglySorted_inv in Hs as [Hs Hp].
  apply Forall_app. split.
  - destruct (Dynamics.wide_gap p q) eqn:Ew; [|constructor].
    constructor; [|constructor]. apply (mid_point_between p q Ew).
  - apply Forall_cons in Hp as [Hpq _]. apply by_offset_le in Hpq.
    eapply Forall_impl; [apply IH, Hs|]. cbn. intros x Hx.
    eapply Qle_lt_trans; eassumption.
Qed.

Lemma with_midpoints_head (p : point) (l : list point) :
  exists tl, Dynamics.with_one_midpoint_per_wide_gap (p :: l) = p :: tl.
Proof. cbn. eauto. Qed.

(** Step 4 on a sorted list: extending by the midpoints and sorting again
    puts each midpoint between its two neighbours. *)
Lemma sorted_with_interpolated (l : list point) :
  sortedP l ->
  foldr (PyList.insert_sorted le)
        (PyList.sorted le (Dynamics.interpolated_points l)) l
  = Dynamics.with_one_midpoint_per_wide_gap l.
Proof.
  induction 1 as [|p l Hl IH Hp]; [reflexivity|].
  destruct l as [|q l]; [reflexivity|].
  assert (Dynamics.interpolated_points (p :: q :: l)
          = (if Dynamics.wide_gap p q then [Dynamics.mid_point p q] else [])
            ++ Dynamics.interpolated_points (q :: l)) as -> by reflexivity.
  assert (Dynamics.with_one_midpoint_per_wide_gap (p :: q :: l)
          = p :: (if Dynamics.wide_gap p q then [Dynamics.mid_point p q] else [])
                 ++ Dynamics.with_one_midpoint_per_wide_gap (q :: l)) as ->
    by reflexivity.
  pose proof (interpolated_after_head q l Hl) as Hafter.
  pose proof Hp as Hp'. apply Forall_cons in Hp' as [Hpq _].
  destruct (with_midpoints_head q l) as [tl Etl].
  cbn [foldr].
  destruct (Dynamics.wide_gap p q) eqn:Ew.
  - destruct (mid_point_between p q Ew) as (_ & Hpm & Hmq).
    set (m := Dynamics.mid_point p q) in *.
    cbn [app]. unfold PyList.sorted at 1. cbn [foldr].
    fold (PyList.sorted le (Dynamics.interpolated_points (q :: l))).
    rewrite (insert_sorted_front m
               (PyList.sorted le (Dynamics.interpolated_points (q :: l)))).
    2:{ rewrite (sorted_perm le). eapply Forall_impl; [exact Hafter|].
        cbn. intros x Hx. apply by_offset_le.
        apply Qlt_le_weak. eapply Qlt_trans; eassumption. }
    change (PyList.insert_sorted le q
              (foldr (PyList.insert_sorted le)
                 (m :: PyList.sorted le (Dynamics.interpolated_points (q :: l))) l))
      with (foldr (PyList.insert_sorted le)
              (m :: PyList.sorted le (Dynamics.interpolated_points (q :: l)))
              (q :: l)).
    rewrite foldr_insert_behind.
    2:{ apply StronglySorted_inv in Hl as [_ Hq].
        constructor; [apply by_offset_gt, Hmq|].
        eapply Forall_impl; [exact Hq|]. cbn. intros y Hy.
        apply by_offset_gt. apply by_offset_le in Hy.
        eapply Qlt_le_trans; eassumption. }
    rewrite IH. cbn.
    assert (le p m = true) as -> by (apply by_offset_le, Qlt_le_weak, Hpm).
    reflexivity.
  - cbn [app].
    change (PyList.insert_sorted le q
              (foldr (PyList.insert_sorted le)
                 (PyList.sorted le (Dynamics.interpolated_points (q :: l))) l))
      with (foldr (PyList.insert_sorted le)
              (PyList.sorted le (Dynamics.interpolated_points (q :: l)))
              (q :: l)).
    rewrite IH, Etl. cbn. rewrite Hpq. reflexivity.
Qed.

Lemma add_contour_points_sorted (l : list point) :
  sortedP l ->
  Dynamics.add_contour_points l = Dynamics.with_one_midpoint_per_wide_gap l.
Proof.
  intros Hs. unfold Dynamics.add_contour_points.
  rewrite (sorted_of_sorted le l Hs).
  unfold PyList.sorted at 1. rewrite foldr_app.
  apply sorted_with_interpolated, Hs.
Qed.

(** The filter keeps the points in order. *)
Lemma sortedP_snoc (l : list point) (p : point) :
  sortedP l -> Forall (fun x => le x p = true) l -> sortedP (l ++ [p]).
Proof.
  induction 1 as [|x l Hl IH Hx]; intros Hp; cbn.
  - repeat constructor.
  - apply Forall_cons in Hp as [Hxp Hp]. constructor; [apply IH, Hp|].
    apply Forall_app. split; [exact Hx|]. constructor; [exact Hxp|constructor].
Qed.

Lemma sortedP_removelast (l : list point) : sortedP l -> sortedP (removelast l).
Proof.
  induction 1 as [|x l Hl IH Hx]; cbn; [constructor|].
  destruct l as [|y l]; [constructor|].
  constructor; [exact IH|].
  apply Forall_forall. intros z Hz.
  apply (proj1 (Forall_forall _ _) Hx). apply list_elem_of_In.
  apply list_elem_of_In in Hz.
  clear -Hz. revert y Hz. induction l as [|a l IH]; intros y Hz; cbn in *.
  - destruct Hz.
  - destruct Hz as [<-|Hz]; [left; reflexivity|]. right. apply IH, Hz.
Qed.

Lemma removelast_In (l : list point) (z : point) :
  In z (removelast l) -> In z l.
Proof.
  induction l as [|a l IH]; cbn; [auto|].
  destruct l as [|b l]; [intros []|].
  intros [<-|Hz]; [left; reflexivity|]. right. apply IH, Hz.
Qed.

Lemma filter_points_sorted (raw : list point) :
  sortedP (Dynamics.filter_points raw).
Proof.
  unfold Dynamics.filter_points.
  pose proof (sorted_sorted le by_offset_total by_offset_trans raw) as Hs.
  set (l := PyList.sorted le raw) in *. clearbody l.
  assert (forall (l : list point) (st : list point * option Q),
            sortedP l -> sortedP st.1 ->
            Forall (fun x => Forall (fun y => le x y = true) l) st.1 ->
            sortedP (foldl Dynamics.filter_step st l).1) as Hloop.
  { clear. induction l as [|p l IH]; intros [filtered lt] Hl Hf Hle;
      cbn [foldl]; [exact Hf|].
    cbn [fst] in Hf, Hle.
    apply StronglySorted_inv in Hl as [Hl Hp].
    assert (Forall (fun x => le x p = true) filtered) as Hfp.
    { eapply Forall_impl; [exact Hle|]. cbn.
      intros x Hx. apply Forall_cons in Hx as [Hx _]. exact Hx. }
    assert (Forall (fun x => Forall (fun y => le x y = true) l) filtered) as Hfl.
    { eapply Forall_impl; [exact Hle|]. cbn.
      intros x Hx. apply Forall_cons in Hx as [_ Hx]. exact Hx. }
    assert (forall pre, sortedP pre -> (forall z, In z pre -> In z filtered) ->
              sortedP (foldl Dynamics.filter_step
                         (pre ++ [p], Some p.1) l).1) as Happend.
    { intros pre Hpre Hsub. apply IH; [exact Hl| |]; cbn.
      - apply sortedP_snoc; [exact Hpre|]. apply Forall_forall.
        intros z Hz. apply (proj1 (Forall_forall _ _) Hfp).
        apply list_elem_of_In, Hsub, list_elem_of_In, Hz.
      - apply Forall_app. split.
        + apply Forall_forall. intros z Hz.
          apply (proj1 (Forall_forall _ _) Hfl).
          apply list_elem_of_In, Hsub, list_elem_of_In, Hz.
        + constructor; [exact Hp|constructor]. }
    destruct p as [time value]. unfold Dynamics.filter_step at 2.
    match goal with
    | |- context [if ?c then (filtered ++ _, _) else _] => destruct c
    end.
    - apply (Happend filtered Hf). auto.
    - destruct (last filtered) as [[? last_value]|].
      + destruct (10 <? Z.abs (last_value - value)).
        * apply (Happend (removelast filtered)).
          -- apply sortedP_removelast, Hf.
          -- apply removelast_In.
        * apply IH; assumption.
      + apply IH; assumption. }
  apply Hloop; [exact Hs|constructor|constructor].
Qed.

(** C9: in the score-phrase-based strategy, the list returned for a voice
    is the filtered point list with exactly one point inserted between
    every two adjacent anchor points more than 8 quarter notes apart and
    nothing else; that point sits at the temporal midpoint, strictly
    between the two, and carries the mean of their values (cut toward
    zero).  Two points 40 beats apart that differ by 60 get the one
    midpoint (20, 80). *)
Theorem one_midpoint_per_wide_gap (raw : list point) :
  Dynamics.finish_voice raw
  = Dynamics.with_one_midpoint_per_wide_gap (Dynamics.filter_points raw)
  /\ (forall prev curr : point,
        Dynamics.wide_gap prev curr = true <-> (8 < curr.1 - prev.1)%Q)
  /\ (forall prev curr : point,
        Dynamics.wide_gap prev curr = true ->
        ((Dynamics.mid_point prev curr).1 == (prev.1 + curr.1) / 2)%Q
        /\ (prev.1 < (Dynamics.mid_point prev curr).1)%Q
        /\ ((Dynamics.mid_point prev curr).1 < curr.1)%Q
        /\ (Dynamics.mid_point prev curr).2 = (prev.2 + curr.2) ÷ 2)
  /\ Dynamics.finish_voice [(0%Q, 50); (40%Q, 110)]
     = [(0%Q, 50); (Dynamics.mid_point (0%Q, 50) (40%Q, 110)); (40%Q, 110)]
  /\ ((Dynamics.mid_point (F := Q) (0, 50%Z) (40, 110%Z)).1 == 20)%Q
  /\ (Dynamics.mid_point (F := Q) (0%Q, 50) (40%Q, 110)).2 = 80.
Proof.
  split.
  { unfold Dynamics.finish_voice.
    apply add_contour_points_sorted, filter_points_sorted. }
  split.
  { intros prev curr. split; [apply wide_gap_lt|].
    intros H. rewrite wide_gap_unfold. apply negb_true_iff.
    apply not_true_iff_false. intros C. apply Qle_bool_iff in C.
    apply Qle_not_lt in C. apply C, H. }
  split.
  { intros prev curr Hw. destruct (mid_point_between prev curr Hw) as (?&?&?).
    repeat split; try assumption. apply mid_point_value. }
  split; [vm_compute; reflexivity|].
  split; [vm_compute; reflexivity|vm_compute; reflexivity].
Qed.

End Midpoints.

(** *** The agogic map (C6) *)

Section AgogicMap.
Local Abbreviation conductor := (OrchestralConductor.t R).
Local Open Scope R_scope.

Lemma Rltb_true (a b : R) : Rltb a b = true <-> a < b.
Proof. unfold Rltb. destruct (Rlt_dec a b); split; (congruence || lra). Qed.

Lemma Rleb_true (a b : R) : Rleb a b = true <-> a <= b.
Proof. unfold Rleb. destruct (Rle_dec a b); split; (congruence || lra). Qed.

(** Python's [min] and [max] on reals. *)
Lemma fmin_R (a b : R) : fmin a b = Rmin a b.
Proof.
  unfold fmin. cbn. unfold Rltb, Rmin.
  destruct (Rlt_dec b a), (Rle_dec a b); lra.
Qed.

Lemma fmax_R (a b : R) : fmax a b = Rmax a b.
Proof.
  unfold fmax. cbn. unfold Rltb, Rmax.
  destruct (Rlt_dec a b), (Rle_dec a b); lra.
Qed.

Lemma fabs_R (a : R) : fabs a = Rabs a.
Proof.
  unfold fabs. cbn. unfold Rltb, Rabs.
  destruct (Rlt_dec a 0), (Rcase_abs a); lra.
Qed.

Lemma lit_R (p q : Z) : lit (F := R) p q = IZR p / IZR q.
Proof. reflexivity. Qed.

Lemma in_unit_0 : in_unit 0.
Proof. unfold in_unit. lra. Qed.

(** Reading and writing the wave. *)
Lemma wave_get_in_unit (w : list R) (k : Z) :
  Forall in_unit w -> in_unit (OrchestralConductor.wave_get w k).
Proof.
  intros Hw. unfold OrchestralConductor.wave_get.
  destruct (w !! Z.to_nat k) as [v|] eqn:E; cbn; [|apply in_unit_0].
  eapply Forall_lookup_1; eassumption.
Qed.

Lemma wave_set_in_unit (w : list R) (k : Z) (v : R) :
  Forall in_unit w -> in_unit v ->
  Forall in_unit (OrchestralConductor.wave_set w k v).
Proof. intros Hw Hv. apply Forall_insert; assumption. Qed.

Lemma wave_set_length (w : list R) (k : Z) (v : R) :
  length (OrchestralConductor.wave_set w k v) = length w.
Proof. apply length_insert. Qed.

(** Raising a value by a non-negative amount, capped at 1; lowering it,
    capped at -1. *)
Lemma raise_in_unit (x d : R) :
  in_unit x -> 0 <= d -> in_unit (fmin (fadd x d) (of_int 1)).
Proof.
  unfold in_unit. intros Hx Hd. rewrite fmin_R. cbn.
  unfold Rmin. destruct (Rle_dec (x + d) 1); lra.
Qed.

Lemma lower_in_unit (x d : R) :
  in_unit x -> 0 <= d -> in_unit (fmax (fsub x d) (of_int (-1))).
Proof.
  unfold in_unit. intros Hx Hd. rewrite fmax_R. cbn.
  unfold Rmax. destruct (Rle_dec (x - d) (-1)); lra.
Qed.

Lemma factor_nonneg (a b e : R) :
  0 <= a -> 0 <= b -> 0 <= e ->
  0 <= fmin (of_int 1) (fadd a (fmul e b)).
Proof.
  intros Ha Hb He. rewrite fmin_R. cbn. unfold Rmin.
  destruct (Rle_dec 1 (a + e * b)); [lra|]. nra.
Qed.

Section Overlays.
Variable self : conductor.
Variable mc : Z.
Hypothesis expr_nonneg : 0 <= OrchestralConductor.expressiveness self.

Lemma emphasize_phrase_in_unit (w : list R) (se : Z * Z) :
  Forall in_unit w ->
  Forall in_unit (OrchestralConductor.emphasize_phrase self mc w se).
Proof.
  intros Hw. unfold OrchestralConductor.emphasize_phrase. destruct se as [s e].
  cbv zeta.
  set (pef := fmin (of_int 1) _).
  assert (0 <= pef) as Hpef.
  { apply factor_nonneg; [rewrite lit_R; lra|rewrite lit_R; lra|exact expr_nonneg]. }
  match goal with
  | |- Forall in_unit (if ?c1 then if ?c2 then OrchestralConductor.wave_set ?W _ _ else _ else _) =>
      assert (Forall in_unit W) as HW; [|destruct c1; [|exact HW]; destruct c2; [|exact HW]]
  end.
  - destruct (_ && _); [|exact Hw]. destruct (_ && _); [|exact Hw].
    match goal with
    | |- Forall in_unit (OrchestralConductor.wave_set ?W' _ _) => assert (Forall in_unit W') as Hw'
    end.
    { apply wave_set_in_unit; [exact Hw|].
      apply raise_in_unit; [apply wave_get_in_unit, Hw|].
      rewrite lit_R. cbn. nra. }
    apply wave_set_in_unit; [exact Hw'|].
    apply raise_in_unit; [apply wave_get_in_unit, Hw'|].
    rewrite lit_R. cbn. nra.
  - apply wave_set_in_unit; [exact HW|].
    apply lower_in_unit; [apply wave_get_in_unit, HW|].
    rewrite lit_R. cbn. nra.
Qed.

Lemma emphasize_cadence_in_unit (w : list R) (cadence : Z) :
  Forall in_unit w ->
  Forall in_unit (OrchestralConductor.emphasize_cadence self mc w cadence).
Proof.
  intros Hw. unfold OrchestralConductor.emphasize_cadence.
  destruct (_ && _); [|exact Hw].
  cbv zeta.
  set (cf := fmin (of_int 1) _).
  assert (0 <= cf) as Hcf.
  { apply factor_nonneg; [rewrite lit_R; lra|rewrite lit_R; lra|exact expr_nonneg]. }
  match goal with
  | |- Forall in_unit (if _ then OrchestralConductor.wave_set ?W' _ _ else _) =>
      assert (Forall in_unit W') as Hw'
  end.
  { apply wave_set_in_unit; [exact Hw|].
    apply raise_in_unit; [apply wave_get_in_unit, Hw|].
    rewrite lit_R. cbn. nra. }
  destruct (_ <? _)%Z; [|exact Hw'].
  apply wave_set_in_unit; [exact Hw'|].
  apply raise_in_unit; [apply wave_get_in_unit, Hw'|].
  rewrite lit_R. cbn. nra.
Qed.

Lemma reinforce_gravity_in_unit (w : list R) (ms : Z * R) :
  0 <= ms.2 -> Forall in_unit w ->
  Forall in_unit (OrchestralConductor.reinforce_gravity self mc w ms).
Proof.
  intros Hs Hw. unfold OrchestralConductor.reinforce_gravity.
  destruct ms as [m strength]. cbn in Hs.
  destruct (_ && _); [|exact Hw].
  assert (0 <= fmul (fmul strength (OrchestralConductor.expressiveness self))
                    (lit 4 10)) as Hg.
  { rewrite lit_R. cbn. nra. }
  destruct (fltb _ _).
  - apply wave_set_in_unit; [exact Hw|].
    apply raise_in_unit; [apply wave_get_in_unit, Hw|exact Hg].
  - destruct (fltb _ _); [|exact Hw].
    apply wave_set_in_unit; [exact Hw|].
    apply lower_in_unit; [apply wave_get_in_unit, Hw|exact Hg].
Qed.

End Overlays.

(** The largest and the smallest element bound every element. *)
Lemma np_max_ge (l : list R) (c : R) :
  c ∈ l -> c <= OrchestralConductor.np_max l.
Proof.
  unfold OrchestralConductor.np_max. destruct l as [|x r]; [inversion 1|].
  assert (forall r a, a <= foldl fmax a r
                      /\ forall c, c ∈ r -> c <= foldl fmax a r) as H.
  { clear. induction r as [|y r IH]; intros a; cbn [foldl].
    - split; [lra|]. inversion 1.
    - destruct (IH (fmax a y)) as [H1 H2]. rewrite fmax_R in *.
      pose proof (Rmax_l a y). pose proof (Rmax_r a y).
      split; [lra|]. intros c [->|Hc]%elem_of_cons; [lra|]. apply H2, Hc. }
  intros [->|Hc]%elem_of_cons; [apply (proj1 (H r x))|apply (proj2 (H r x)), Hc].
Qed.

Lemma np_min_le (l : list R) (c : R) :
  c ∈ l -> OrchestralConductor.np_min l <= c.
Proof.
  unfold OrchestralConductor.np_min. destruct l as [|x r]; [inversion 1|].
  assert (forall r a, foldl fmin a r <= a
                      /\ forall c, c ∈ r -> foldl fmin a r <= c) as H.
  { clear. induction r as [|y r IH]; intros a; cbn [foldl].
    - split; [lra|]. inversion 1.
    - destruct (IH (fmin a y)) as [H1 H2]. rewrite fmin_R in *.
      pose proof (Rmin_l a y). pose proof (Rmin_r a y).
      split; [lra|]. intros c [->|Hc]%elem_of_cons; [lra|]. apply H2, Hc. }
  intros [->|Hc]%elem_of_cons; [apply (proj1 (H r x))|apply (proj2 (H r x)), Hc].
Qed.

(** Normalising to the amplitude. *)
Lemma normalize_in_unit (combined : list R) (amplitude : R) :
  0 < amplitude <= 1 ->
  let max_val := fmax (fabs (OrchestralConductor.np_max combined))
                      (fabs (OrchestralConductor.np_min combined)) in
  Forall in_unit
    (if fltb (of_int 0) max_val
     then map (fun c => fmul (fdiv c max_val) amplitude) combined
     else combined).
Proof.
  intros Ha max_val.
  assert (forall c, c ∈ combined -> Rabs c <= max_val) as Hb.
  { intros c Hc. unfold max_val. rewrite fmax_R, !fabs_R.
    pose proof (np_max_ge combined c Hc). pose proof (np_min_le combined c Hc).
    pose proof (Rmax_l (Rabs (OrchestralConductor.np_max combined))
                  (Rabs (OrchestralConductor.np_min combined))).
    pose proof (Rmax_r (Rabs (OrchestralConductor.np_max combined))
                  (Rabs (OrchestralConductor.np_min combined))).
    pose proof (Rle_abs (OrchestralConductor.np_max combined)).
    pose proof (Rle_abs (- OrchestralConductor.np_min combined)).
    rewrite Rabs_Ropp in *.
    unfold Rabs at 1. destruct (Rcase_abs c); lra. }
  clearbody max_val.
  destruct (fltb (of_int 0) max_val) eqn:E; apply Forall_forall.
  - apply Rltb_true in E. cbn in E.
    intros v (c & -> & Hc)%list_elem_of_fmap. specialize (Hb c Hc).
    cbn. unfold in_unit.
    assert (- max_val <= c <= max_val) as Hc'.
    { revert Hb. unfold Rabs. destruct (Rcase_abs c); lra. }
    assert (c = c / max_val * max_val) as Hq by (field; lra).
    revert Hq. generalize (c / max_val). intros q Hq.
    assert (-1 <= q <= 1) as Hq' by nra.
    nra.
  - assert (~ 0 < max_val) as Hn.
    { intros C. apply Rltb_true in C. cbn in E. congruence. }
    intros c Hc. specialize (Hb c Hc). unfold in_unit.
    revert Hb. unfold Rabs. destruct (Rcase_abs c); lra.
Qed.

Lemma seq_map_length {A : Type} (f : nat -> A) (n : nat) :
  length (map f (seq 0 n)) = n.
Proof. rewrite length_map, length_seq. reflexivity. Qed.

(** The simple wave and the alternating values. *)
Lemma simple_wave_spec (raises : bool) (len : Z) (amplitude : R) :
  amplitude <= 1 ->
  let w := OrchestralConductor._generate_simple_wave sin PI raises len amplitude in
  length w = Z.to_nat (if (len <=? 0)%Z then 16%Z else len)
  /\ Forall in_unit w.
Proof.
  intros Ha. unfold OrchestralConductor._generate_simple_wave.
  set (a := if fleb amplitude (of_int 0) then lit 5 10 else amplitude).
  assert (0 < a <= 1) as Ha'.
  { unfold a. destruct (fleb amplitude (of_int 0)) eqn:E.
    - rewrite lit_R. lra.
    - assert (~ amplitude <= 0) as Hn.
      { intros C. apply Rleb_true in C. cbn in E. congruence. }
      lra. }
  clearbody a.
  destruct raises; (split; [apply seq_map_length|]);
    apply Forall_forall; intros v (i & -> & _)%list_elem_of_fmap;
    unfold in_unit.
  - destruct (_ =? _)%Z; rewrite lit_R; cbn; lra.
  - cbn. pose proof (SIN_bound (2 * PI * IZR (Z.of_nat i) / 8)). nra.
Qed.

Lemma np_linspace_length (a b : R) (n : nat) :
  (0 < n)%nat -> length (OrchestralConductor.np_linspace a b n) = n.
Proof.
  intros Hn. unfold OrchestralConductor.np_linspace.
  destruct n as [|[|n]]; [lia|reflexivity|]. apply seq_map_length.
Qed.

Lemma wave_function_spec (fl : OrchestralConductor.faults) (r1 r2 r3 : R)
    (len : Z) (amplitude frequency complexity : R) :
  amplitude <= 1 ->
  let w := OrchestralConductor._generate_wave_function sin PI fl r1 r2 r3
             len amplitude frequency complexity in
  length w = Z.to_nat (if (len <=? 0)%Z then 16%Z else len)
  /\ Forall in_unit w.
Proof.
  intros Ha. unfold OrchestralConductor._generate_wave_function.
  set (len' := if (len <=? 0)%Z then 16%Z else len).
  assert (0 < len')%Z as Hlen by (unfold len'; destruct (Z.leb_spec len 0); lia).
  set (a := if fleb amplitude (of_int 0) then lit 5 10 else amplitude).
  assert (0 < a <= 1) as Ha'.
  { unfold a. destruct (fleb amplitude (of_int 0)) eqn:E.
    - rewrite lit_R. lra.
    - assert (~ amplitude <= 0) as Hn.
      { intros C. apply Rleb_true in C. cbn in E. congruence. }
      lra. }
  destruct (OrchestralConductor.complex_wave_raises fl).
  - pose proof (simple_wave_spec (OrchestralConductor.simple_wave_raises fl)
                  len' a (proj2 Ha')) as [H1 H2].
    split; [|exact H2]. rewrite H1.
    destruct (Z.leb_spec len' 0); [lia|reflexivity].
  - match goal with
    | |- context [if fltb (of_int 0) (fmax (fabs (OrchestralConductor.np_max ?c)) _)
                  then _ else _] => set (combined := c)
    end.
    assert (length combined = Z.to_nat len') as Hc.
    { unfold combined.
      match goal with |- length (if ?c then _ else _) = _ => destruct c end;
        rewrite length_map; apply np_linspace_length; lia. }
    split.
    + match goal with |- length (if ?c then _ else _) = _ => destruct c end;
        [rewrite length_map|]; exact Hc.
    + apply (normalize_in_unit combined a Ha').
Qed.

(** The dictionary built from a wave has exactly the keys
    [0 .. measure_count - 1], in order. *)
Lemma map_of_wave_keys (mc : Z) (w : list R) :
  map fst (OrchestralConductor.map_of_wave mc w)
  = map Z.of_nat (seq 0 (Z.to_nat mc)).
Proof.
  unfold OrchestralConductor.map_of_wave. rewrite map_map. reflexivity.
Qed.

Lemma map_of_wave_get (mc : Z) (w : list R) (m : Z) :
  (0 <= m < mc)%Z ->
  PyDict.get m (OrchestralConductor.map_of_wave mc w)
  = Some (OrchestralConductor.wave_get w m).
Proof.
  intros Hm. unfold OrchestralConductor.map_of_wave.
  assert (forall n start,
            (Z.of_nat start <= m < Z.of_nat start + Z.of_nat n)%Z ->
            PyDict.get m
              (map (fun i : nat => (Z.of_nat i,
                                    OrchestralConductor.wave_get w (Z.of_nat i)))
                   (seq start n))
            = Some (OrchestralConductor.wave_get w m)) as H.
  { induction n as [|n IH]; intros start Hr; [lia|]. cbn.
    destruct (Z.eqb_spec m (Z.of_nat start)) as [->|Hne]; [reflexivity|].
    apply IH. lia. }
  apply H. lia.
Qed.

Lemma map_of_wave_get_range (mc : Z) (w : list R) (m : Z) (v : R) :
  PyDict.get m (OrchestralConductor.map_of_wave mc w) = Some v ->
  (0 <= m < mc)%Z.
Proof.
  unfold OrchestralConductor.map_of_wave.
  assert (forall n start,
            PyDict.get m
              (map (fun i : nat => (Z.of_nat i,
                                    OrchestralConductor.wave_get w (Z.of_nat i)))
                   (seq start n)) = Some v ->
            (Z.of_nat start <= m < Z.of_nat start + Z.of_nat n)%Z) as H.
  { induction n as [|n IH]; intros start; cbn; [discriminate|].
    destruct (Z.eqb_spec m (Z.of_nat start)) as [->|Hne]; [lia|].
    intros Hg. apply IH in Hg. lia. }
  intros Hg. apply H in Hg. lia.
Qed.

Lemma foldl_in_unit {B : Type} (f : list R -> B -> list R) (l : list B)
    (P : B -> Prop) (w : list R) :
  (forall w b, P b -> Forall in_unit w -> Forall in_unit (f w b)) ->
  Forall P l -> Forall in_unit w -> Forall in_unit (foldl f w l).
Proof.
  intros Hf Hl. revert w. induction Hl as [|b l Hb _ IH]; intros w Hw; cbn;
    [exact Hw|].
  apply IH, Hf; assumption.
Qed.

(** C6: after [create_agogic_map], whichever of its [try] blocks raised
    (complex wave, simple wave, the construction itself, the fallback's
    simple wave) and whatever the configuration, [measure_count] is
    positive and the agogic map has exactly the keys
    [0 .. measure_count - 1], each with a value (no gap, nothing else).
    Every stored value lies in [-1, 1] when the configuration is within
    its documented ranges: [expressiveness] not negative, [wave_strength]
    at most 1, gravity strengths not negative.  Floats are read as reals
    and [numpy.sin] as the sine. *)
Theorem agogic_map_is_dense_and_bounded
    (fl : OrchestralConductor.faults) (r1 r2 r3 : R) (oc : conductor) :
  let oc' := OrchestralConductor.create_agogic_map sin PI fl r1 r2 r3 oc in
  let mc := OrchestralConductor.measure_count (OrchestralConductor.stats oc') in
  ((0 < mc)%Z
   /\ map fst (OrchestralConductor.agogic_map oc')
      = map Z.of_nat (seq 0 (Z.to_nat mc))
   /\ (forall m, (0 <= m < mc)%Z ->
         exists v, PyDict.get m (OrchestralConductor.agogic_map oc') = Some v)
   /\ (forall m v, PyDict.get m (OrchestralConductor.agogic_map oc') = Some v ->
         (0 <= m < mc)%Z))
  /\ (0 <= OrchestralConductor.expressiveness oc ->
      OrchestralConductor.wave_strength oc <= 1 ->
      Forall (fun ms : Z * R => 0 <= ms.2)
        (OrchestralConductor.gravity_centers oc) ->
      forall m v, PyDict.get m (OrchestralConductor.agogic_map oc') = Some v ->
        in_unit v).
Proof.
  intros oc' mc.
  set (mc0 := OrchestralConductor.measure_count (OrchestralConductor.stats oc)).
  set (mc1 := if (mc0 <=? 0)%Z then 16%Z else mc0).
  assert (0 < mc1)%Z as Hmc1 by (unfold mc1; destruct (Z.leb_spec mc0 0); lia).
  assert (exists w,
            (0 <= OrchestralConductor.expressiveness oc ->
             OrchestralConductor.wave_strength oc <= 1 ->
             Forall (fun ms : Z * R => 0 <= ms.2)
               (OrchestralConductor.gravity_centers oc) ->
             Forall in_unit w)
            /\ OrchestralConductor.agogic_map oc'
               = OrchestralConductor.map_of_wave mc1 w
            /\ mc = mc1) as (w & Hw & Hmap & Hmc).
  { unfold mc, oc', OrchestralConductor.create_agogic_map. fold mc0. fold mc1.
    destruct (OrchestralConductor.map_construction_raises fl).
    - unfold OrchestralConductor._create_fallback_agogic_map.
      assert (OrchestralConductor.measure_count
                (OrchestralConductor.stats
                   (if (mc0 <=? 0)%Z
                    then OrchestralConductor.set_measure_count 16 oc else oc))
              = mc1) as Hm.
      { unfold mc1. destruct (mc0 <=? 0)%Z; reflexivity. }
      assert (OrchestralConductor.wave_strength
                (if (mc0 <=? 0)%Z
                 then OrchestralConductor.set_measure_count 16 oc else oc)
              = OrchestralConductor.wave_strength oc) as Hs
        by (destruct (mc0 <=? 0)%Z; reflexivity).
      rewrite Hm, Hs.
      assert ((if (mc1 <=? 0)%Z then 16%Z else mc1) = mc1) as Hm1
        by (destruct (Z.leb_spec mc1 0); [lia|reflexivity]).
      rewrite Hm1.
      eexists. split; [|split; [reflexivity|]].
      + intros _ Hws _. apply simple_wave_spec. rewrite lit_R. cbn. lra.
      + cbn. exact Hm.
    - eexists. split; [|split; [reflexivity|]].
      + intros He Hws Hgc.
        assert (OrchestralConductor.gravity_centers
                  (if (mc0 <=? 0)%Z
                   then OrchestralConductor.set_measure_count 16 oc else oc)
                = OrchestralConductor.gravity_centers oc) as ->
          by (destruct (mc0 <=? 0)%Z; reflexivity).
        assert (0 <= OrchestralConductor.expressiveness
                       (if (mc0 <=? 0)%Z
                        then OrchestralConductor.set_measure_count 16 oc else oc))
          as He' by (destruct (mc0 <=? 0)%Z; exact He).
        apply (foldl_in_unit _ _ (fun ms : Z * R => 0 <= ms.2)).
        * intros w0 b Hb Hw0. apply reinforce_gravity_in_unit; assumption.
        * exact Hgc.
        * apply (foldl_in_unit _ _ (fun _ => True)).
          -- intros w0 b _ Hw0. apply emphasize_cadence_in_unit; assumption.
          -- apply Forall_forall. auto.
          -- apply (foldl_in_unit _ _ (fun _ => True)).
             ++ intros w0 b _ Hw0. apply emphasize_phrase_in_unit; assumption.
             ++ apply Forall_forall. auto.
             ++ apply wave_function_spec.
                destruct (mc0 <=? 0)%Z; exact Hws.
      + cbn. unfold mc1. destruct (mc0 <=? 0)%Z; reflexivity. }
  rewrite Hmc, Hmap.
  split.
  - split; [exact Hmc1|]. split; [apply map_of_wave_keys|].
    split.
    + intros m Hm. exists (OrchestralConductor.wave_get w m).
      apply map_of_wave_get, Hm.
    + intros m v Hg. exact (map_of_wave_get_range _ _ _ _ Hg).
  - intros He Hws Hgc m v Hg.
    pose proof (map_of_wave_get_range _ _ _ _ Hg) as Hr.
    rewrite (map_of_wave_get mc1 w m Hr) in Hg. injection Hg as <-.
    apply wave_get_in_unit, Hw; assumption.
Qed.

End AgogicMap.

(** An eight-measure conductor with one phrase, one cadence and one
    gravity center: measure 3 has a value, and it lies in [-1, 1]. *)
Lemma agogic_map_is_dense_and_bounded_witness :
  let oc := OrchestralConductor.set_structure [(0, 3)] [3] [(3, lit 9 10)]
              1 1 8 (default_conductor (F := R)) in
  exists v : R,
    PyDict.get 3
      (OrchestralConductor.agogic_map
         (OrchestralConductor.create_agogic_map sin PI
            OrchestralConductor.no_fault 0%R 0%R 0%R oc)) = Some v
    /\ in_unit v.
Proof.
  intros oc.
  assert (0 <= OrchestralConductor.expressiveness oc)%R as H1.
  { change (0 <= IZR 7 / IZR 10)%R. lra. }
  assert (OrchestralConductor.wave_strength oc <= 1)%R as H2.
  { change (IZR 8 / IZR 10 <= 1)%R. lra. }
  assert (Forall (fun ms : Z * R => (0 <= ms.2)%R)
            (OrchestralConductor.gravity_centers oc)) as H3.
  { change (Forall (fun ms : Z * R => (0 <= ms.2)%R) [(3, (IZR 9 / IZR 10)%R)]).
    constructor; [cbn; lra|constructor]. }
  destruct (agogic_map_is_dense_and_bounded OrchestralConductor.no_fault
              0%R 0%R 0%R oc) as ((_ & _ & Hd & _) & Hb).
  destruct (Hd 3) as [v Hv]; [change (0 <= 3 < 8); lia|].
  exists v. split; [exact Hv|exact (Hb H1 H2 H3 3 v Hv)].
Defined.

(** Outside those ranges the values leave [-1, 1].  The interpreter
    builds its conductor with [wave_strength = rubato_strength * 0.9];
    here both wave generators fail, so the base wave alternates between
    [+0.5] and [-0.5] times the amplitude and the sine is never called.
    With expressiveness [-8], rubato [0.6] and the default structure of
    sixteen measures, loop A stores [-0.27 - 0.25 * (-8) = 1.73] in
    measures 1 and 9.  With expressiveness [0.5], rubato [4] and every
    [try] block failing, the fallback map alternates between [1.26] and
    [-1.26]. *)
Lemma agogic_values_leave_the_unit_interval :
  let wave_fails := OrchestralConductor.mk_faults true true false false in
  let all_fail := OrchestralConductor.mk_faults true true true true in
  let agogic_map_of fl expressiveness wave_strength :=
    OrchestralConductor.agogic_map
      (OrchestralConductor.create_agogic_map (F := Q) (fun x => x) 3 fl 0 0 0
         (OrchestralConductor.analyze_structure []
            (OrchestralConductor.__init__ expressiveness wave_strength 1)))%Q in
  (exists v, PyDict.get 1 (agogic_map_of wave_fails (-8) (54 # 100))%Q = Some v
             /\ (v == 173 # 100)%Q /\ (1 < v)%Q)
  /\ (exists v, PyDict.get 9 (agogic_map_of wave_fails (-8) (54 # 100))%Q = Some v
                /\ (v == 173 # 100)%Q /\ (1 < v)%Q)
  /\ (exists v, PyDict.get 0 (agogic_map_of all_fail (5 # 10) (36 # 10))%Q = Some v
                /\ (v == 126 # 100)%Q /\ (1 < v)%Q)
  /\ (exists v, PyDict.get 1 (agogic_map_of all_fail (5 # 10) (36 # 10))%Q = Some v
                /\ (v == -126 # 100)%Q /\ (v < -1)%Q).
Proof.
  cbv zeta.
  repeat split; eexists; (split; [vm_compute; reflexivity|split; reflexivity]).
Qed.



(** *** Shared phrase boundaries and cadences (C5) *)

Section Structure.
Context {F : Type} `{!PyFloat F}.
Local Abbreviation boundary := OrchestralConductor.boundary.

Lemma group_loop_app (bs cur : list boundary) (grouped : list (list boundary)) :
  OrchestralConductor.group_loop bs cur grouped
  = grouped ++ OrchestralConductor.group_loop bs cur [].
Proof.
  revert cur grouped. induction bs as [|b bs IH]; intros cur grouped; cbn.
  - destruct cur; [rewrite app_nil_r|]; reflexivity.
  - destruct (last cur) as [prev|]; [|apply IH].
    destruct (_ <=? _); [apply IH|].
    rewrite (IH [b] (grouped ++ [cur])), (IH [b] [cur]).
    rewrite <- app_assoc. reflexivity.
Qed.

(** One step of the loop, with the finished groups taken out. *)
Lemma group_loop_step (b : boundary) (bs cur : list boundary) :
  OrchestralConductor.group_loop (b :: bs) cur []
  = match last cur with
    | None => OrchestralConductor.group_loop bs (cur ++ [b]) []
    | Some prev =>
        if Z.abs (OrchestralConductor.b_start b - OrchestralConductor.b_start prev) <=? 1
        then OrchestralConductor.group_loop bs (cur ++ [b]) []
        else cur :: OrchestralConductor.group_loop bs [b] []
    end.
Proof.
  cbn. destruct (last cur) as [prev|]; [|reflexivity].
  destruct (_ <=? _); [reflexivity|]. apply group_loop_app.
Qed.

Lemma last_None_nil {A : Type} (l : list A) : last l = None -> l = [].
Proof. apply last_None. Qed.

Lemma group_loop_concat (bs cur : list boundary) :
  concat (OrchestralConductor.group_loop bs cur []) = cur ++ bs.
Proof.
  revert cur. induction bs as [|b bs IH]; intros cur.
  - cbn. destruct cur; cbn; [reflexivity|]. rewrite !app_nil_r. reflexivity.
  - rewrite group_loop_step.
    destruct (last cur) as [prev|] eqn:El.
    + destruct (_ <=? _).
      * rewrite IH, <- app_assoc. reflexivity.
      * cbn [concat]. rewrite IH. reflexivity.
    + rewrite IH, <- app_assoc. reflexivity.
Qed.

Lemma group_loop_head (bs cur : list boundary) :
  cur <> [] ->
  exists ext gs, OrchestralConductor.group_loop bs cur [] = (cur ++ ext) :: gs.
Proof.
  revert cur. induction bs as [|b bs IH]; intros cur Hne.
  - exists [], []. cbn. destruct cur; [congruence|]. rewrite app_nil_r. reflexivity.
  - rewrite group_loop_step.
    assert (cur ++ [b] <> []) as Hne' by (destruct cur; discriminate).
    destruct (last cur) as [prev|] eqn:El.
    + destruct (_ <=? _).
      * destruct (IH _ Hne') as (ext & gs & ->).
        exists (b :: ext), gs. rewrite <- app_assoc. reflexivity.
      * exists [], (OrchestralConductor.group_loop bs [b] []).
        rewrite app_nil_r. reflexivity.
    + destruct (IH _ Hne') as (ext & gs & ->).
      exists (b :: ext), gs. rewrite <- app_assoc. reflexivity.
Qed.

Lemma group_loop_nonempty (bs cur : list boundary) :
  Forall (fun g => g <> []) (OrchestralConductor.group_loop bs cur []).
Proof.
  revert cur. induction bs as [|b bs IH]; intros cur.
  - cbn. destruct cur; repeat constructor. discriminate.
  - rewrite group_loop_step.
    destruct (last cur) as [prev|] eqn:El; [|apply IH].
    destruct (_ <=? _); [apply IH|].
    constructor; [|apply IH]. intros ->. discriminate.
Qed.

Lemma chained_nil : chained [].
Proof. intros i a b Ha. rewrite lookup_nil in Ha. discriminate. Qed.

Lemma chained_singleton (b : boundary) : chained [b].
Proof. intros i x y _ Hy. destruct i; discriminate. Qed.

Lemma chained_snoc (cur : list boundary) (prev b : boundary) :
  chained cur -> last cur = Some prev ->
  Z.abs (OrchestralConductor.b_start b - OrchestralConductor.b_start prev) <= 1 ->
  chained (cur ++ [b]).
Proof.
  intros Hc Hl Hb i x y Hx Hy.
  destruct (decide (S i < length cur)%nat) as [Hlt|Hge].
  - rewrite lookup_app_l in Hx by lia. rewrite lookup_app_l in Hy by lia.
    eapply Hc; eassumption.
  - pose proof (lookup_lt_Some _ _ _ Hy) as Hlen.
    rewrite length_app in Hlen. cbn in Hlen.
    assert (S i = length cur) as Hi by lia.
    rewrite lookup_app_l in Hx by lia.
    rewrite last_lookup, <- Hi in Hl. cbn in Hl.
    rewrite lookup_app_r in Hy by lia.
    rewrite Hi, Nat.sub_diag in Hy. cbn in Hy.
    congruence.
Qed.

Lemma group_loop_chained (bs cur : list boundary) :
  chained cur -> Forall chained (OrchestralConductor.group_loop bs cur []).
Proof.
  revert cur. induction bs as [|b bs IH]; intros cur Hc.
  - cbn. destruct cur; repeat constructor. exact Hc.
  - rewrite group_loop_step.
    destruct (last cur) as [prev|] eqn:El.
    + destruct (Z.leb_spec
                  (Z.abs (OrchestralConductor.b_start b
                          - OrchestralConductor.b_start prev)) 1).
      * apply IH. eapply chained_snoc; eassumption.
      * constructor; [exact Hc|]. apply IH, chained_singleton.
    + apply last_None_nil in El. subst cur. apply IH, chained_singleton.
Qed.

Lemma separated_nil : separated [].
Proof. intros i g1 g2 a b H. rewrite lookup_nil in H. discriminate. Qed.

Lemma separated_singleton (g : list boundary) : separated [g].
Proof. intros i g1 g2 a b _ H. destruct i; discriminate. Qed.

Lemma separated_cons (g1 g2 : list boundary) (gs : list (list boundary)) :
  (forall a b, last g1 = Some a -> head g2 = Some b ->
     1 < Z.abs (OrchestralConductor.b_start b - OrchestralConductor.b_start a)) ->
  separated (g2 :: gs) -> separated (g1 :: g2 :: gs).
Proof.
  intros H12 Hs i x y a b Hx Hy Ha Hb. destruct i as [|i].
  - cbn in Hx, Hy. injection Hx as <-. injection Hy as <-. apply H12; assumption.
  - cbn in Hx, Hy. eapply Hs; eassumption.
Qed.

Lemma group_loop_separated (bs cur : list boundary) :
  separated (OrchestralConductor.group_loop bs cur []).
Proof.
  revert cur. induction bs as [|b bs IH]; intros cur.
  - cbn. destruct cur; [apply separated_nil|apply separated_singleton].
  - rewrite group_loop_step.
    destruct (last cur) as [prev|] eqn:El; [|apply IH].
    destruct (Z.leb_spec
                (Z.abs (OrchestralConductor.b_start b
                        - OrchestralConductor.b_start prev)) 1); [apply IH|].
    pose proof (IH [b]) as Hs.
    destruct (group_loop_head bs [b]) as (ext & gs & E); [discriminate|].
    rewrite E in Hs |- *.
    apply separated_cons; [|exact Hs].
    intros a b' Ha Hb'. cbn in Hb'. congruence.
Qed.

(** The loop over the groups. *)
Lemma process_groups_spec (n : nat) (groups : list (list boundary))
    (pb : list (Z * Z)) (cs : list Z) (gc : list (Z * F)) :
  foldl (OrchestralConductor.process_group n) (pb, cs, gc) groups
  = (pb ++ map (OrchestralConductor.group_phrase (F := F))
             (List.filter (OrchestralConductor.group_promoted n) groups),
     cs ++ map (fun g => (OrchestralConductor.group_phrase (F := F) g).2)
             (List.filter (cadence_group (F := F) n) groups),
     foldl (fun gc g =>
              PyDict.set (OrchestralConductor.group_phrase (F := F) g).2
                (OrchestralConductor.cadence_gravity n g) gc)
           gc (List.filter (cadence_group (F := F) n) groups)).
Proof.
  revert pb cs gc. induction groups as [|g groups IH]; intros pb cs gc.
  - cbn. rewrite !app_nil_r. reflexivity.
  - cbn [foldl List.filter].
    assert (cadence_group n g
            = OrchestralConductor.group_promoted n g
              && OrchestralConductor.is_cadence (F := F) n g) as -> by reflexivity.
    unfold OrchestralConductor.process_group at 2.
    destruct (OrchestralConductor.group_promoted n g); cbn [andb]; [|apply IH].
    destruct (OrchestralConductor.group_phrase g) as [ps pe] eqn:Eg.
    destruct (OrchestralConductor.is_cadence n g).
    + rewrite IH. cbn [map foldl]. rewrite Eg. cbn [snd].
      rewrite <- !app_assoc. reflexivity.
    + rewrite IH. cbn [map]. rewrite Eg.
      rewrite <- !app_assoc. reflexivity.
Qed.

End Structure.

Section Agreement.
Local Abbreviation boundary := OrchestralConductor.boundary.

Lemma group_promoted_iff (n : nat) (g : list boundary) :
  OrchestralConductor.group_promoted n g = true
  <-> Z.max 1 (Z.of_nat n / 3) <= Z.of_nat (length g).
Proof. unfold OrchestralConductor.group_promoted. apply Z.leb_le. Qed.

(** In exact arithmetic the cadence test compares counts. *)
Lemma is_cadence_iff (n : nat) (g : list boundary) :
  (0 < n)%nat ->
  OrchestralConductor.is_cadence (F := Q) n g = true
  <-> (n <= 2 * length g)%nat.
Proof.
  intros Hn. unfold OrchestralConductor.is_cadence,
    OrchestralConductor.cadence_likelihood, lit. cbn.
  rewrite Qle_bool_iff.
  destruct n as [|k]; [lia|].
  unfold Qle, Qdiv, Qmult, Qinv, inject_Z.
  change (Z.of_nat (S k)) with (Z.pos (Pos.of_succ_nat k)). cbn.
  rewrite Nat.add_0_r. lia.
Qed.

Lemma is_cadence_promoted (n : nat) (g : list boundary) :
  (0 < n)%nat ->
  OrchestralConductor.is_cadence (F := Q) n g = true ->
  OrchestralConductor.group_promoted n g = true.
Proof.
  intros Hn Hc. apply is_cadence_iff in Hc; [|exact Hn].
  apply group_promoted_iff.
  pose proof (Z.div_le_upper_bound (Z.of_nat n) 3 (Z.of_nat (length g))).
  assert (Z.of_nat n / 3 <= Z.of_nat (length g)) by (apply Z.div_le_upper_bound; lia).
  lia.
Qed.

Lemma cadence_gravity_Q (n : nat) (g : list boundary) :
  (OrchestralConductor.cadence_gravity (F := Q) n g
   == Qmin 1 ((7 # 10) + (3 # 10) * (inject_Z (Z.of_nat (length g))
                                     / inject_Z (Z.of_nat n))))%Q.
Proof.
  unfold OrchestralConductor.cadence_gravity,
    OrchestralConductor.cadence_likelihood, fmin, lit. cbn.
  set (r := (inject_Z (Z.of_nat (length g)) / inject_Z (Z.of_nat n))%Q).
  assert ((inject_Z 7 / inject_Z 10 + r * (inject_Z 3 / inject_Z 10)
           == (7 # 10) + (3 # 10) * r)%Q) as E.
  { assert ((inject_Z 7 / inject_Z 10 == 7 # 10)%Q) as -> by reflexivity.
    assert ((inject_Z 3 / inject_Z 10 == 3 # 10)%Q) as -> by reflexivity.
    ring. }
  change (inject_Z 1) with 1%Q.
  destruct (Qle_bool 1 _) eqn:El; cbn [negb].
  - apply Qle_bool_iff in El. rewrite E in El.
    symmetry. apply Q.min_l. exact El.
  - assert (~ (1 <= inject_Z 7 / inject_Z 10 + r * (inject_Z 3 / inject_Z 10))%Q)
      as Hn by (rewrite <- Qle_bool_iff; congruence).
    rewrite E in Hn |- *.
    symmetry. apply Q.min_r. apply Qnot_le_lt in Hn. apply Qlt_le_weak, Hn.
Qed.

End Agreement.

(** C5, as the code has it: the boundaries sorted by start measure are
    cut into runs in which every start is within one measure of the start
    before it (consecutive runs are more than one measure apart); a run
    is promoted to a shared phrase boundary exactly when it has at least
    [max(1, voices // 3)] members; a promoted run is a cadence exactly
    when its members are at least half as many as the voices (in exact
    arithmetic, which already implies promotion), and the cadence gets
    the gravity [min(1, 0.7 + 0.3 * members / voices)]. *)
Theorem shared_boundaries_and_cadences {F : Type} `{!PyFloat F}
    (voices : list (MusicalVoice.t F)) (self : OrchestralConductor.t F) :
  voices <> [] ->
  OrchestralConductor.collect_boundaries voices <> [] ->
  let n := length voices in
  let sorted_boundaries :=
    PyList.sorted OrchestralConductor.by_start_measure
      (OrchestralConductor.collect_boundaries voices) in
  let groups := OrchestralConductor.group_boundaries sorted_boundaries in
  let self' := OrchestralConductor.analyze_structure voices self in
  (concat groups = sorted_boundaries
   /\ Forall (fun g => g <> [] /\ chained g) groups
   /\ separated groups)
  /\ OrchestralConductor.phrase_boundaries self'
     = map (OrchestralConductor.group_phrase (F := F))
         (List.filter (OrchestralConductor.group_promoted n) groups)
  /\ (forall g, OrchestralConductor.group_promoted n g = true
                <-> Z.max 1 (Z.of_nat n / 3) <= Z.of_nat (length g))
  /\ OrchestralConductor.cadences self'
     = OrchestralConductor.cadences self
       ++ map (fun g => (OrchestralConductor.group_phrase (F := F) g).2)
            (List.filter (cadence_group (F := F) n) groups)
  /\ OrchestralConductor.gravity_centers self'
     = foldl (fun gc g =>
                PyDict.set (OrchestralConductor.group_phrase (F := F) g).2
                  (OrchestralConductor.cadence_gravity n g) gc)
         (OrchestralConductor.gravity_centers self)
         (List.filter (cadence_group (F := F) n) groups)
  /\ (forall g, OrchestralConductor.is_cadence (F := Q) n g = true
                <-> (n <= 2 * length g)%nat)
  /\ (forall g, cadence_group (F := Q) n g
                = OrchestralConductor.is_cadence (F := Q) n g)
  /\ (forall g,
        (OrchestralConductor.cadence_gravity (F := Q) n g
         == Qmin 1 ((7 # 10) + (3 # 10) * (inject_Z (Z.of_nat (length g))
                                           / inject_Z (Z.of_nat n))))%Q).
Proof.
  intros Hv Hb n sorted_boundaries groups self'.
  assert (0 < n)%nat as Hn.
  { unfold n. destruct voices; [congruence|cbn; lia]. }
  split; [|split; [|split; [|split; [|split; [|split; [|split]]]]]].
  - unfold groups, OrchestralConductor.group_boundaries.
    split; [apply (group_loop_concat sorted_boundaries [])|].
    split; [|apply group_loop_separated].
    apply Forall_and. split; [apply group_loop_nonempty|].
    apply group_loop_chained, chained_nil.
  - unfold self', OrchestralConductor.analyze_structure.
    destruct voices as [|v vs]; [congruence|].
    destruct (OrchestralConductor.collect_boundaries (v :: vs)) as [|b0 bs] eqn:Ec;
      [congruence|].
    fold n. cbv zeta. rewrite process_groups_spec. reflexivity.
  - intros g. apply group_promoted_iff.
  - unfold self', OrchestralConductor.analyze_structure.
    destruct voices as [|v vs]; [congruence|].
    destruct (OrchestralConductor.collect_boundaries (v :: vs)) as [|b0 bs] eqn:Ec;
      [congruence|].
    fold n. cbv zeta. rewrite process_groups_spec. reflexivity.
  - unfold self', OrchestralConductor.analyze_structure.
    destruct voices as [|v vs]; [congruence|].
    destruct (OrchestralConductor.collect_boundaries (v :: vs)) as [|b0 bs] eqn:Ec;
      [congruence|].
    fold n. cbv zeta. rewrite process_groups_spec. reflexivity.
  - intros g. apply is_cadence_iff, Hn.
  - intros g. unfold cadence_group.
    destruct (OrchestralConductor.is_cadence (F := Q) n g) eqn:E.
    + rewrite (is_cadence_promoted n g Hn E). reflexivity.
    + apply andb_false_r.
  - intros g. apply cadence_gravity_Q.
Qed.

(** With four voices, of which only the first has a phrase, that phrase
    is promoted to a shared boundary: the threshold is
    [max(1, 4 // 3) = 1], although the comment beside it asks for at
    least a third of the voices and one voice of four is fewer than
    ceil(4 / 3) = 2. *)
Lemma one_voice_of_four_is_promoted :
  OrchestralConductor.group_boundaries
    (PyList.sorted OrchestralConductor.by_start_measure
       (OrchestralConductor.collect_boundaries (four_voices (F := float))))
  = [[(0, 0, 0%nat, "final"%string)]]
  /\ claimed_group_promoted (length (four_voices (F := float)))
       [(0, 0, 0%nat, "final"%string)] = false
  /\ OrchestralConductor.phrase_boundaries
       (OrchestralConductor.analyze_structure (four_voices (F := float))
          default_conductor)
     = [(0, 0)].
Proof. vm_compute. split; [|split]; reflexivity. Qed.

Lemma shared_boundaries_and_cadences_witness :
  OrchestralConductor.phrase_boundaries
    (OrchestralConductor.analyze_structure (four_voices (F := float))
       default_conductor)
  = map (OrchestralConductor.group_phrase (F := float))
      (List.filter (OrchestralConductor.group_promoted 4)
         (OrchestralConductor.group_boundaries
            (PyList.sorted OrchestralConductor.by_start_measure
               (OrchestralConductor.collect_boundaries
                  (four_voices (F := float)))))).
Proof.
  refine (proj1 (proj2 (shared_boundaries_and_cadences
                          (four_voices (F := float)) default_conductor _ _))).
  - vm_compute. discriminate.
  - vm_compute. discriminate.
Defined.

(* ================================================================== *)
(** * Further properties of the pipeline *)
(* ================================================================== *)

(** *** Exact arithmetic: comparisons and [int()] *)

Section ExactArithmetic.
Local Open Scope Q_scope.

Lemma fltb_Q (x y : Q) : fltb x y = true <-> x < y.
Proof.
  cbn. rewrite negb_true_iff. split.
  - intros E. apply Qnot_le_lt. intros C. apply Qle_bool_iff in C. congruence.
  - intros L. destruct (Qle_bool y x) eqn:E; [|reflexivity].
    apply Qle_bool_iff in E. exfalso. apply (Qlt_not_le _ _ L E).
Qed.

Lemma fltb_Q_false (x y : Q) : fltb x y = false <-> y <= x.
Proof.
  cbn. rewrite negb_false_iff. apply Qle_bool_iff.
Qed.

Lemma fleb_Q (x y : Q) : fleb x y = true <-> x <= y.
Proof. cbn. apply Qle_bool_iff. Qed.

Lemma fleb_Q_false (x y : Q) : fleb x y = false <-> y < x.
Proof.
  cbn. split.
  - intros E. apply Qnot_le_lt. intros C. apply Qle_bool_iff in C. congruence.
  - intros L. destruct (Qle_bool x y) eqn:E; [|reflexivity].
    apply Qle_bool_iff in E. exfalso. apply (Qlt_not_le _ _ L E).
Qed.

Lemma feqb_Q (x y : Q) : feqb x y = true <-> x == y.
Proof. cbn. apply Qeq_bool_iff. Qed.

Lemma lit_Q (p q : Z) : lit (F := Q) p q = inject_Z p / inject_Z q.
Proof. reflexivity. Qed.

(** [int(x)] truncates toward zero. *)
Lemma py_int_Q_nonneg (x : Q) :
  0 <= x -> py_int x = Qfloor x /\ (0 <= py_int x)%Z /\ inject_Z (py_int x) <= x.
Proof.
  intros Hx. unfold py_int.
  assert (fltb x (of_int 0) = false) as -> by (apply fltb_Q_false; exact Hx).
  cbn. split; [reflexivity|]. split.
  - change 0%Z with (Qfloor (inject_Z 0)). rewrite <- (Qfloor_Z 0) at 1.
    apply Qfloor_resp_le. exact Hx.
  - apply Qfloor_le.
Qed.

Lemma py_int_Q_neg (x : Q) :
  x < 0 -> py_int x = Qceiling x /\ (py_int x <= 0)%Z /\ x <= inject_Z (py_int x).
Proof.
  intros Hx. unfold py_int.
  assert (fltb x (of_int 0) = true) as -> by (apply fltb_Q; exact Hx).
  cbn. split; [reflexivity|]. split.
  - change (- Qfloor (- x))%Z with (Qceiling x).
    rewrite <- (Qceiling_Z 0). apply Qceiling_resp_le. apply Qlt_le_weak, Hx.
  - change (- Qfloor (- x))%Z with (Qceiling x). apply Qle_ceiling.
Qed.

Lemma py_int_Q_sign (x : Q) :
  (0 <= x -> (0 <= py_int x)%Z /\ inject_Z (py_int x) <= x)
  /\ (x <= 0 -> (py_int x <= 0)%Z /\ x <= inject_Z (py_int x)).
Proof.
  split; intros Hx.
  - apply py_int_Q_nonneg, Hx.
  - destruct (Qlt_le_dec x 0) as [L|G].
    + apply py_int_Q_neg, L.
    + destruct (py_int_Q_nonneg x G) as (E & _ & H2).
      assert (x == 0) as E0 by (apply Qle_antisym; assumption).
      rewrite E. rewrite (Qfloor_comp x 0 E0).
      change (Qfloor 0) with 0%Z. split; [lia|]. rewrite E0. apply Qle_refl.
Qed.

(** [int()] is monotone against integers. *)
Lemma py_int_Q_le (x : Q) (z : Z) : x <= inject_Z z -> (py_int x <= z)%Z.
Proof.
  intros Hx. destruct (Qlt_le_dec x 0) as [L|G].
  - destruct (py_int_Q_neg x L) as (-> & _).
    rewrite <- (Qceiling_Z z). apply Qceiling_resp_le, Hx.
  - destruct (py_int_Q_nonneg x G) as (-> & _).
    rewrite <- (Qfloor_Z z). apply Qfloor_resp_le, Hx.
Qed.

Lemma py_int_Q_ge (x : Q) (z : Z) : inject_Z z <= x -> (z <= py_int x)%Z.
Proof.
  intros Hx. destruct (Qlt_le_dec x 0) as [L|G].
  - destruct (py_int_Q_neg x L) as (-> & _).
    rewrite <- (Qceiling_Z z). apply Qceiling_resp_le, Hx.
  - destruct (py_int_Q_nonneg x G) as (-> & _).
    rewrite <- (Qfloor_Z z). apply Qfloor_resp_le, Hx.
Qed.

Lemma py_int_Q_of_int (z : Z) : py_int (inject_Z z) = z.
Proof.
  apply Z.le_antisymm.
  - apply py_int_Q_le, Qle_refl.
  - apply py_int_Q_ge, Qle_refl.
Qed.

Lemma py_int_Q_comp (x y : Q) : x == y -> py_int x = py_int y.
Proof.
  intros E. apply Z.le_antisymm.
  - destruct (Qlt_le_dec y 0) as [L|G].
    + apply py_int_Q_le. rewrite E. apply (py_int_Q_neg y L).
    + destruct (py_int_Q_nonneg y G) as (Ey & _).
      assert (0 <= x) as Gx by (rewrite E; exact G).
      destruct (py_int_Q_nonneg x Gx) as (Ex & _).
      rewrite Ex, Ey, (Qfloor_comp x y E). lia.
  - destruct (Qlt_le_dec x 0) as [L|G].
    + apply py_int_Q_le. rewrite <- E. apply (py_int_Q_neg x L).
    + destruct (py_int_Q_nonneg x G) as (Ex & _).
      assert (0 <= y) as Gy by (rewrite <- E; exact G).
      destruct (py_int_Q_nonneg y Gy) as (Ey & _).
      rewrite Ex, Ey, (Qfloor_comp x y E). lia.
Qed.

(** [int(-x) = -int(x)]. *)
Lemma py_int_Q_opp (x : Q) : py_int (- x) = (- py_int x)%Z.
Proof.
  destruct (Qlt_le_dec x 0) as [L|G].
  - destruct (py_int_Q_neg x L) as (-> & _).
    assert (0 <= - x) as G by (apply (Qopp_le_compat x 0), Qlt_le_weak, L).
    destruct (py_int_Q_nonneg (- x) G) as (-> & _).
    unfold Qceiling. lia.
  - destruct (py_int_Q_nonneg x G) as (-> & _).
    destruct (Qlt_le_dec (- x) 0) as [L'|G'].
    + destruct (py_int_Q_neg (- x) L') as (-> & _).
      unfold Qceiling. rewrite (Qfloor_comp (- - x) x (Qopp_involutive x)).
      reflexivity.
    + destruct (py_int_Q_nonneg (- x) G') as (-> & _).
      assert (x == 0) as E0.
      { apply Qle_antisym; [|exact G].
        apply Qopp_le_compat in G'. rewrite Qopp_involutive in G'. exact G'. }
      rewrite (Qfloor_comp (- x) 0), (Qfloor_comp x 0); [reflexivity|exact E0|].
      rewrite E0. reflexivity.
Qed.

Lemma inject_Z_nonneg (m : Z) : (0 <= m)%Z -> 0 <= inject_Z m.
Proof. intros H. unfold Qle. cbn. lia. Qed.

Lemma inject_Z_nonpos (m : Z) : (m <= 0)%Z -> inject_Z m <= 0.
Proof. intros H. unfold Qle. cbn. lia. Qed.

End ExactArithmetic.

(** *** The interpretation context (rule_base.py) *)

Section TimingLimits.
Local Open Scope Q_scope.

Lemma scaled_within (m : Z) (s : Q) :
  0 <= s <= 1 ->
  ((0 <= m)%Z -> (0 <= py_int (inject_Z m * s)%Q <= m)%Z)
  /\ ((m <= 0)%Z -> (m <= py_int (inject_Z m * s)%Q <= 0)%Z).
Proof.
  intros [Hs0 Hs1]. split; intros Hm.
  - assert (0 <= inject_Z m) as Hq by (apply inject_Z_nonneg, Hm).
    split.
    + apply py_int_Q_ge. change (inject_Z 0) with 0. nra.
    + apply py_int_Q_le. nra.
  - assert (inject_Z m <= 0) as Hq by (apply inject_Z_nonpos, Hm).
    split.
    + apply py_int_Q_ge. nra.
    + apply py_int_Q_le. change (inject_Z 0) with 0. nra.
Qed.

(** [InterpretationContext]: with a non-negative resolution and rubato
    strength and a bias in [-1, 1], the acceleration limit lies in
    [-max_timing_change, 0] and the delay limit in [0, max_timing_change];
    a bias of 1 switches acceleration off, a bias of -1 switches delay
    off; and [get_timing_adjustment] of a factor in [-1, 1] stays within
    the two limits, negative factors never delaying and non-negative
    factors never accelerating. *)
Theorem timing_adjustment_within_limits
    (tpb : Z) (e r a d bias factor : Q) :
  (0 <= tpb)%Z -> 0 <= r -> -1 <= bias <= 1 -> -1 <= factor <= 1 ->
  let ctx := InterpretationContext.__init__ tpb e r a d bias in
  let adj := InterpretationContext.get_timing_adjustment ctx factor in
  (- InterpretationContext.max_timing_change ctx
   <= InterpretationContext.max_acceleration ctx <= 0)%Z
  /\ (0 <= InterpretationContext.max_delay ctx
      <= InterpretationContext.max_timing_change ctx)%Z
  /\ (InterpretationContext.max_acceleration ctx <= adj
      <= InterpretationContext.max_delay ctx)%Z
  /\ (factor < 0 -> (adj <= 0)%Z)
  /\ (0 <= factor -> (0 <= adj)%Z)
  /\ (bias == 1 -> InterpretationContext.max_acceleration ctx = 0%Z)
  /\ (bias == -1 -> InterpretationContext.max_delay ctx = 0%Z).
Proof.
  intros Htpb Hr [Hb0 Hb1] [Hf0 Hf1] ctx adj.
  set (x := fmul (fmul (of_int tpb) (lit 1 10)) r).
  set (M := py_int x).
  assert (0 <= x) as Hx.
  { unfold x.
    change (0 <= inject_Z tpb * (1 # 10) * r).
    apply Qmult_le_0_compat; [|exact Hr].
    apply Qmult_le_0_compat; [apply inject_Z_nonneg, Htpb|discriminate]. }
  assert (0 <= M)%Z as HM by (apply py_int_Q_nonneg, Hx).
  assert (InterpretationContext.max_timing_change ctx = M) as Emtc by reflexivity.
  assert (py_int (fmul x (of_int (-1))) = (- M)%Z) as Eacc0.
  { rewrite (py_int_Q_comp (fmul x (of_int (-1))) (- x)); [apply py_int_Q_opp|].
    change (x * (-1 # 1) == - x). ring. }
  assert ((- M <= InterpretationContext.max_acceleration ctx <= 0)%Z
          /\ (bias == 1 -> InterpretationContext.max_acceleration ctx = 0%Z)) as [Hacc Hacc1].
  { change (InterpretationContext.max_acceleration ctx)
      with (if negb (feqb bias (of_int 0)) && fltb (of_int 0) bias
            then py_int (fmul (of_int (py_int (fmul x (of_int (-1)))))
                           (fsub (of_int 1) bias))
            else py_int (fmul x (of_int (-1)))).
    rewrite Eacc0.
    destruct (negb (feqb bias (of_int 0)) && fltb (of_int 0) bias) eqn:Ec.
    - apply andb_true_iff in Ec as [_ Hpos]. apply fltb_Q in Hpos.
      change (of_int 0) with 0 in Hpos.
      change (fmul (of_int (- M)) (fsub (of_int 1) bias))
        with (inject_Z (- M) * (1 - bias)).
      assert (0 <= 1 - bias <= 1) as Hs by lra.
      destruct (scaled_within (- M) (1 - bias) Hs) as [_ Hneg].
      split; [apply Hneg; lia|].
      intros E1. rewrite (py_int_Q_comp _ 0); [reflexivity|]. rewrite E1. ring.
    - split; [lia|]. intros E1. exfalso.
      assert (feqb bias (of_int 0) = false) as H1.
      { destruct (feqb bias (of_int 0)) eqn:E; [|reflexivity].
        apply feqb_Q in E. change (of_int 0) with 0 in E. rewrite E in E1. discriminate. }
      assert (fltb (of_int 0) bias = true) as H2.
      { apply fltb_Q. change (of_int 0) with 0. rewrite E1. reflexivity. }
      rewrite H1, H2 in Ec. discriminate. }
  assert ((0 <= InterpretationContext.max_delay ctx <= M)%Z
          /\ (bias == -1 -> InterpretationContext.max_delay ctx = 0%Z)) as [Hdel Hdel1].
  { change (InterpretationContext.max_delay ctx)
      with (if negb (feqb bias (of_int 0)) && fltb bias (of_int 0)
            then py_int (fmul (of_int M) (fadd (of_int 1) bias))
            else M).
    destruct (negb (feqb bias (of_int 0)) && fltb bias (of_int 0)) eqn:Ec.
    - apply andb_true_iff in Ec as [_ Hneg]. apply fltb_Q in Hneg.
      change (of_int 0) with 0 in Hneg.
      change (fmul (of_int M) (fadd (of_int 1) bias))
        with (inject_Z M * (1 + bias)).
      assert (0 <= 1 + bias <= 1) as Hs by lra.
      destruct (scaled_within M (1 + bias) Hs) as [Hpos _].
      split; [apply Hpos; lia|].
      intros E1. rewrite (py_int_Q_comp _ 0); [reflexivity|]. rewrite E1. ring.
    - split; [lia|]. intros E1. exfalso.
      assert (feqb bias (of_int 0) = false) as H1.
      { destruct (feqb bias (of_int 0)) eqn:E; [|reflexivity].
        apply feqb_Q in E. change (of_int 0) with 0 in E. rewrite E in E1. discriminate. }
      assert (fltb bias (of_int 0) = true) as H2.
      { apply fltb_Q. change (of_int 0) with 0. rewrite E1. reflexivity. }
      rewrite H1, H2 in Ec. discriminate. }
  assert ((InterpretationContext.max_acceleration ctx <= adj
           <= InterpretationContext.max_delay ctx)%Z
          /\ (factor < 0 -> (adj <= 0)%Z) /\ (0 <= factor -> (0 <= adj)%Z))
    as (Hadj & Hneg & Hpos).
  { unfold adj, InterpretationContext.get_timing_adjustment.
    destruct (fltb factor (of_int 0)) eqn:Ef.
    - apply fltb_Q in Ef. change (of_int 0) with 0 in Ef.
      change (fmul (of_int (InterpretationContext.max_acceleration ctx))
                (fdiv factor (of_int (-1))))
        with (inject_Z (InterpretationContext.max_acceleration ctx)
              * (factor / inject_Z (-1))).
      assert (factor / inject_Z (-1) == - factor) as Ediv
        by (change (inject_Z (-1)) with (-1 # 1); field).
      rewrite (py_int_Q_comp _ (inject_Z (InterpretationContext.max_acceleration ctx)
                                * (- factor))) by (rewrite Ediv; reflexivity).
      assert (0 <= - factor <= 1) as Hs by lra.
      destruct (scaled_within (InterpretationContext.max_acceleration ctx)
                  (- factor) Hs) as [_ H2].
      specialize (H2 (proj2 Hacc)).
      split; [lia|]. split; [intros _; lia|intros C; lra].
    - apply fltb_Q_false in Ef. change (of_int 0) with 0 in Ef.
      change (fmul (of_int (InterpretationContext.max_delay ctx)) factor)
        with (inject_Z (InterpretationContext.max_delay ctx) * factor).
      assert (0 <= factor <= 1) as Hs by lra.
      destruct (scaled_within (InterpretationContext.max_delay ctx) factor Hs)
        as [H1 _].
      specialize (H1 (proj1 Hdel)).
      split; [lia|]. split; [intros C; lra|intros _; lia]. }
  rewrite Emtc.
  split; [exact Hacc|]. split; [exact Hdel|]. split; [exact Hadj|].
  split; [exact Hneg|]. split; [exact Hpos|]. split; [exact Hacc1|exact Hdel1].
Qed.

End TimingLimits.

Lemma timing_adjustment_within_limits_witness :
  let ctx := InterpretationContext.__init__ (F := Q) 480
               (1 # 2)%Q (3 # 5)%Q (7 # 10)%Q (7 # 10)%Q (1 # 2)%Q in
  InterpretationContext.max_acceleration ctx
  <= InterpretationContext.get_timing_adjustment ctx (- (1 # 2))%Q
  <= InterpretationContext.max_delay ctx.
Proof.
  refine (proj1 (proj2 (proj2 (timing_adjustment_within_limits
            480 (1 # 2)%Q (3 # 5)%Q (7 # 10)%Q (7 # 10)%Q (1 # 2)%Q
            (- (1 # 2))%Q _ _ _ _)))).
  - lia.
  - discriminate.
  - split; discriminate.
  - split; discriminate.
Defined.

(** *** The analysis of a voice (voice_analyzer.py) *)

Section Analysis.
Context {F : Type} `{!PyFloat F}.
Local Abbreviation note_t := (NoteProperties.t F).
Local Abbreviation voice_t := (MusicalVoice.t F).

Lemma analysis_only_refl (n : note_t) : analysis_only n n.
Proof. unfold analysis_only, same_original. intuition congruence. Qed.

Lemma analysis_only_trans (a b c : note_t) :
  analysis_only a b -> analysis_only b c -> analysis_only a c.
Proof. unfold analysis_only, same_original. intuition congruence. Qed.

Lemma same_but_marks_refl (n : note_t) : same_but_marks n n.
Proof. unfold same_but_marks, analysis_only, same_original. intuition congruence. Qed.

Lemma same_but_marks_trans (a b c : note_t) :
  same_but_marks a b -> same_but_marks b c -> same_but_marks a c.
Proof. unfold same_but_marks, analysis_only, same_original. intuition congruence. Qed.

(** Lists related position by position. *)
Lemma related_map (R : note_t -> note_t -> Prop) (f : note_t -> note_t)
    (l : list note_t) :
  (forall n, R n (f n)) -> Forall2 R l (map f l).
Proof.
  intros Hf. apply Forall2_fmap_r, Forall_Forall2_diag, Forall_forall.
  intros n _. apply Hf.
Qed.

Lemma related_imap (R : note_t -> note_t -> Prop) (f : nat -> note_t -> note_t)
    (l : list note_t) :
  (forall i n, R n (f i n)) -> Forall2 R l (imap f l).
Proof.
  intros Hf. apply Forall2_same_length_lookup_2; [rewrite length_imap; reflexivity|].
  intros i x y Hx Hy. rewrite list_lookup_imap, Hx in Hy. cbn in Hy.
  injection Hy as <-. apply Hf.
Qed.

Lemma related_alter (R : note_t -> note_t -> Prop) (f : note_t -> note_t)
    (i : nat) (l : list note_t) :
  (forall n, R n n) -> (forall n, R n (f n)) -> Forall2 R l (alter f i l).
Proof.
  intros Hr Hf. apply Forall2_same_length_lookup_2; [rewrite length_alter; reflexivity|].
  intros j x y Hx Hy. destruct (decide (i = j)) as [->|Hne].
  - rewrite list_lookup_alter_eq, Hx in Hy. cbn in Hy. injection Hy as <-. apply Hf.
  - rewrite list_lookup_alter_ne in Hy by exact Hne.
    rewrite Hx in Hy. injection Hy as <-. apply Hr.
Qed.

Lemma related_insert (R : note_t -> note_t -> Prop) (i : nat) (x x' : note_t)
    (l : list note_t) :
  (forall n, R n n) -> l !! i = Some x -> R x x' -> Forall2 R l (<[i := x']> l).
Proof.
  intros Hr Hi Hx. apply Forall2_same_length_lookup_2; [rewrite length_insert; reflexivity|].
  intros j y z Hy Hz. destruct (decide (i = j)) as [->|Hne].
  - rewrite list_lookup_insert_eq in Hz by (eapply lookup_lt_Some; eassumption).
    injection Hz as <-. congruence.
  - rewrite list_lookup_insert_ne in Hz by exact Hne.
    rewrite Hy in Hz. injection Hz as <-. apply Hr.
Qed.

Lemma related_foldl {B : Type} (R : note_t -> note_t -> Prop)
    (f : list note_t -> B -> list note_t) (bs : list B) (l : list note_t) :
  (forall n, R n n) -> (forall a b c, R a b -> R b c -> R a c) ->
  (forall l b, Forall2 R l (f l b)) -> Forall2 R l (foldl f l bs).
Proof.
  intros Hr Ht Hf. revert l. induction bs as [|b bs IH]; intros l; cbn.
  - apply Forall_Forall2_diag, Forall_forall. intros n _. apply Hr.
  - eapply Forall2_trans; [exact Ht|apply Hf|apply IH].
Qed.

(** Linking and the intervals touch neither the captured nor the
    adjusted values. *)
Lemma link_notes_only (l : list note_t) :
  Forall2 analysis_only l (MusicalVoice.link_notes l).
Proof.
  unfold MusicalVoice.link_notes.
  apply related_foldl;
    [apply analysis_only_refl|apply analysis_only_trans|].
  intros l' i.
  eapply Forall2_trans; [apply analysis_only_trans| |];
    apply related_alter; try apply analysis_only_refl;
    intros n; repeat split.
Qed.

Lemma calculate_intervals_only (l : list note_t) (i : nat) :
  Forall2 analysis_only l (calculate_intervals l i).
Proof.
  unfold calculate_intervals.
  destruct (l !! i) as [self|] eqn:Ei;
    [|apply Forall_Forall2_diag, Forall_forall; intros; apply analysis_only_refl].
  eapply related_insert; [apply analysis_only_refl|exact Ei|].
  cbv zeta.
  destruct (deref l (next_note self));
    match goal with |- context [deref l ?p] => destruct (deref l p) end;
    repeat split.
Qed.

Lemma linked_notes_only (l : list note_t) :
  Forall2 analysis_only (PyList.sorted MusicalVoice.by_start l) (linked_notes l).
Proof.
  unfold linked_notes. cbv zeta.
  eapply Forall2_trans; [apply analysis_only_trans|apply link_notes_only|].
  apply related_foldl;
    [apply analysis_only_refl|apply analysis_only_trans|].
  apply calculate_intervals_only.
Qed.

(** The later steps only put marks on the notes. *)
Lemma assign_phrase_positions_marks (s : voice_t) :
  Forall2 same_but_marks (MusicalVoice.notes s)
    (MusicalVoice.notes (MusicalVoice._assign_phrase_positions s)).
Proof.
  unfold MusicalVoice._assign_phrase_positions.
  destruct (MusicalVoice.phrases s);
    [apply Forall_Forall2_diag, Forall_forall; intros; apply same_but_marks_refl|].
  cbn [MusicalVoice.notes MusicalVoice.set_notes].
  apply related_imap. intros i n.
  destruct (_ !! i) as [[a b]|]; [repeat split|apply same_but_marks_refl].
Qed.

Lemma analyze_notes_marks (tpb : Z) (v : voice_t) :
  MusicalVoice.notes v <> [] ->
  Forall2 same_but_marks (linked_notes (MusicalVoice.notes v))
    (MusicalVoice.notes (MusicalVoice.analyze tpb v)).
Proof.
  intros Hne. unfold MusicalVoice.analyze.
  destruct (MusicalVoice.notes v) as [|n0 ns0] eqn:En; [congruence|].
  cbv zeta. fold (linked_notes (n0 :: ns0)).
  set (C := linked_notes (n0 :: ns0)).
  set (avg := fdiv _ _).
  assert (forall (s : voice_t) (fl : note_t -> note_t),
            (forall n, same_but_marks n (fl n)) ->
            MusicalVoice.notes s = C ->
            Forall2 same_but_marks C
              (MusicalVoice.notes
                 (MusicalVoice._assign_phrase_positions
                    (MusicalVoice._calculate_metric_positions tpb
                       (MusicalVoice._detect_phrases tpb
                          (MusicalVoice.set_notes (map fl (MusicalVoice.notes s)) s)))))
            /\ forall d,
              Forall2 same_but_marks C
              (MusicalVoice.notes
                 (MusicalVoice._assign_phrase_positions
                    (MusicalVoice._calculate_metric_positions tpb
                       (MusicalVoice._detect_phrases tpb
                          (MusicalVoice.set_rhythmic_density d
                             (MusicalVoice.set_notes (map fl (MusicalVoice.notes s)) s)))))))
    as Hlate.
  { intros s fl Hfl Es.
    assert (forall X : voice_t,
              MusicalVoice.notes X = map fl C ->
              Forall2 same_but_marks C
                (MusicalVoice.notes
                   (MusicalVoice._assign_phrase_positions
                      (MusicalVoice._calculate_metric_positions tpb
                         (MusicalVoice._detect_phrases tpb X))))) as HX.
    { intros X EX.
      eapply Forall2_trans;
        [apply same_but_marks_trans| |apply assign_phrase_positions_marks].
      change (MusicalVoice.notes
                (MusicalVoice._calculate_metric_positions tpb
                   (MusicalVoice._detect_phrases tpb X)))
        with (map (MusicalVoice.metric_of tpb) (MusicalVoice.notes X)).
      rewrite EX.
      eapply Forall2_trans; [apply same_but_marks_trans|apply related_map, Hfl|].
      apply related_map. intros n. repeat split. }
    split; [|intros d]; apply HX; cbn [MusicalVoice.notes MusicalVoice.set_notes
      MusicalVoice.set_rhythmic_density]; rewrite Es; reflexivity. }
  assert (forall (s : voice_t) (fl : note_t -> note_t),
            (forall n, same_but_marks n (fl n)) ->
            MusicalVoice.notes s = C ->
            Forall2 same_but_marks C
              (MusicalVoice.notes
                 (MusicalVoice.set_notes (map fl (MusicalVoice.notes s)) s)))
    as Hflag.
  { intros s fl Hfl Es. cbn [MusicalVoice.notes MusicalVoice.set_notes].
    rewrite Es. apply related_map, Hfl. }
  destruct (fltb (of_int 70) avg); [|destruct (fltb avg (of_int 50))];
    cbn [MusicalVoice.role MusicalVoice.set_role];
    match goal with
    | |- context [map ?f (MusicalVoice.notes ?s)] =>
        assert (forall n, same_but_marks n (f n)) as Hf
          by (intros n; vm_compute; repeat split);
        destruct (Hlate s f Hf eq_refl) as [H1 H2];
        pose proof (Hflag s f Hf eq_refl) as H3
    end;
    destruct (tpb =? 0); try exact H3;
    match goal with
    | |- context [if ?c then _ else _] => destruct c
    end; [apply H2|apply H1|apply H2|apply H1|apply H2|apply H1].
Qed.

Lemma sorted_by_key_transfer (l l' : list note_t) :
  StronglySorted (fun a b => MusicalVoice.by_start a b = true) l ->
  Forall2 analysis_only l l' ->
  StronglySorted (fun a b => original_start_time a <= original_start_time b) l'.
Proof.
  intros Hs Hf. induction Hf as [|x y l l' Hxy Hf IH]; [constructor|].
  apply StronglySorted_inv in Hs as [Hs Hx].
  constructor; [apply IH, Hs|].
  clear IH Hs. induction Hf as [|a b l l' Hab Hf IH]; [constructor|].
  apply Forall_cons in Hx as [Hxa Hx].
  constructor; [|apply IH, Hx].
  unfold MusicalVoice.by_start in Hxa. apply Z.leb_le in Hxa.
  destruct Hxy as ((_&_&E1&_)&_), Hab as ((_&_&E2&_)&_). lia.
Qed.

Lemma analyze_notes_only (tpb : Z) (v : voice_t) :
  Forall2 analysis_only
    (PyList.sorted MusicalVoice.by_start (MusicalVoice.notes v))
    (MusicalVoice.notes (MusicalVoice.analyze tpb v)).
Proof.
  destruct (MusicalVoice.notes v) as [|n0 ns0] eqn:En.
  - unfold MusicalVoice.analyze. rewrite En. rewrite En. constructor.
  - rewrite <- En.
    eapply Forall2_trans; [apply analysis_only_trans|apply linked_notes_only|].
    eapply Forall2_impl; [apply analyze_notes_marks; congruence|].
    intros a b Hab. apply Hab.
Qed.

(** [analyze] returns the notes in start-time order (a stable sort of
    the input) and changes nothing in them but the analysis fields: the
    values captured by the constructor and the adjusted values are those
    of the input notes. *)
Theorem analyze_sorts_and_keeps (tpb : Z) (v : voice_t) :
  let before := PyList.sorted MusicalVoice.by_start (MusicalVoice.notes v) in
  let after := MusicalVoice.notes (MusicalVoice.analyze tpb v) in
  before ≡ₚ MusicalVoice.notes v
  /\ Forall2 analysis_only before after
  /\ StronglySorted
       (fun a b => original_start_time a <= original_start_time b) after
  /\ length after = length (MusicalVoice.notes v).
Proof.
  intros before after.
  pose proof (analyze_notes_only tpb v) as Hf. fold before after in Hf.
  split; [apply sorted_perm|]. split; [exact Hf|]. split.
  - eapply sorted_by_key_transfer; [|exact Hf].
    apply sorted_sorted; [apply by_start_total|apply by_start_trans].
  - rewrite <- (Forall2_length _ _ _ Hf). unfold before.
    apply Permutation_length, sorted_perm.
Qed.


(** The linking loop, after its first [k] rounds. *)
Lemma link_rounds (l : list note_t) (k : nat) (i : nat) (x : note_t) :
  foldl (fun ns j =>
           alter (set_prev_note (Some j)) (S j)
             (alter (set_next_note (Some (S j))) j ns))
        l (seq 0 k) !! i = Some x ->
  ((0 < i <= k)%nat -> prev_note x = Some (i - 1)%nat)
  /\ ((i < k)%nat -> next_note x = Some (S i)).
Proof.
  revert i x. induction k as [|k IH]; intros i x Hx; [split; lia|].
  rewrite seq_S, foldl_app in Hx. cbn [foldl] in Hx. cbn [Nat.add] in Hx.
  destruct (decide (i = S k)) as [->|Hne1].
  - rewrite list_lookup_alter_eq in Hx.
    rewrite list_lookup_alter_ne in Hx by lia.
    destruct (_ !! S k) as [y|] eqn:Ey; [|discriminate].
    cbn in Hx. injection Hx as <-. cbn.
    split; [intros _; f_equal; lia|lia].
  - rewrite list_lookup_alter_ne in Hx by lia.
    destruct (decide (i = k)) as [->|Hne2].
    + rewrite list_lookup_alter_eq in Hx.
      destruct (_ !! k) as [y|] eqn:Ey; [|discriminate].
      cbn in Hx. injection Hx as <-. cbn.
      destruct (IH k y Ey) as [Hp _].
      split; [intros ?; apply Hp; lia|reflexivity].
    + rewrite list_lookup_alter_ne in Hx by lia.
      destruct (IH i x Hx) as [Hp Hn].
      split; intros ?; [apply Hp|apply Hn]; lia.
Qed.

Lemma link_notes_links (l : list note_t) (i : nat) (x : note_t) :
  MusicalVoice.link_notes l !! i = Some x ->
  ((0 < i)%nat -> prev_note x = Some (i - 1)%nat)
  /\ ((S i < length l)%nat -> next_note x = Some (S i)).
Proof.
  intros Hx. pose proof (link_rounds l (length l - 1) i x Hx) as [Hp Hn].
  assert (i < length l)%nat as Hi.
  { rewrite (Forall2_length _ _ _ (link_notes_only l)).
    eapply lookup_lt_Some, Hx. }
  split; intros ?; [apply Hp|apply Hn]; lia.
Qed.

(** One round of the interval loop keeps links and pitches. *)
Lemma calculate_intervals_links (l : list note_t) (k : nat) :
  Forall2 (fun a b => pitch a = pitch b /\ next_note a = next_note b
                      /\ prev_note a = prev_note b)
          l (calculate_intervals l k).
Proof.
  unfold calculate_intervals.
  destruct (l !! k) as [self|] eqn:Ek;
    [|apply Forall_Forall2_diag, Forall_forall; intros; repeat split].
  eapply related_insert; [intros; repeat split|exact Ek|].
  cbv zeta.
  destruct (deref l (next_note self));
    match goal with |- context [deref l ?p] => destruct (deref l p) end;
    repeat split.
Qed.

Lemma interval_rounds_links (l : list note_t) (ks : list nat) :
  Forall2 (fun a b => pitch a = pitch b /\ next_note a = next_note b
                      /\ prev_note a = prev_note b)
          l (foldl calculate_intervals l ks).
Proof.
  apply related_foldl.
  - intros; repeat split.
  - intros a b c (?&?&?) (?&?&?). repeat split; congruence.
  - apply calculate_intervals_links.
Qed.

(** The interval loop, after its first [k] rounds, on a list whose links
    are those of [link_notes]. *)
Lemma interval_rounds (l : list note_t) (k : nat) (i : nat) (x : note_t) :
  (forall j y, l !! j = Some y ->
     ((0 < j)%nat -> prev_note y = Some (j - 1)%nat)
     /\ ((S j < length l)%nat -> next_note y = Some (S j))) ->
  (i < k)%nat ->
  foldl calculate_intervals l (seq 0 k) !! i = Some x ->
  ((0 < i)%nat ->
     exists pv, l !! (i - 1)%nat = Some pv
                /\ interval_to_prev x = pitch x - pitch pv)
  /\ ((S i < length l)%nat ->
      exists nx, l !! S i = Some nx
                 /\ interval_to_next x = pitch nx - pitch x).
Proof.
  intros Hl. revert i x. induction k as [|k IH]; intros i x Hi Hx; [lia|].
  rewrite seq_S, foldl_app in Hx. cbn [foldl Nat.add] in Hx.
  set (Ck := foldl calculate_intervals l (seq 0 k)) in *.
  pose proof (interval_rounds_links l (seq 0 k)) as Hrel. fold Ck in Hrel.
  unfold calculate_intervals in Hx.
  destruct (Ck !! k) as [self|] eqn:Ek.
  - destruct (decide (i = k)) as [->|Hne].
    + rewrite list_lookup_insert_eq in Hx
        by (eapply lookup_lt_Some; exact Ek).
      injection Hx as <-.
      destruct (Forall2_lookup_r _ _ _ _ _ Hrel Ek) as (y & Ey & Epy & Eny & Epv).
      destruct (Hl k y Ey) as [Hyp Hyn].
      assert (forall j z, Ck !! j = Some z ->
                exists z0, l !! j = Some z0 /\ pitch z0 = pitch z) as Hpitch.
      { intros j z Ez.
        destruct (Forall2_lookup_r _ _ _ _ _ Hrel Ez) as (z0 & Ez0 & Ep & _).
        exists z0. split; assumption. }
      assert (forall j, (j < length l)%nat -> exists z, Ck !! j = Some z) as Hdef.
      { intros j Hj. apply lookup_lt_is_Some.
        rewrite <- (Forall2_length _ _ _ Hrel). exact Hj. }
      cbv zeta. split.
      * intros Hk0.
        assert (prev_note self = Some (k - 1)%nat) as Eprev
          by (rewrite <- Epv; apply Hyp, Hk0).
        destruct (Hdef (k - 1)%nat) as (pv & Epvk);
          [apply lookup_lt_Some in Ey; lia|].
        destruct (Hpitch _ _ Epvk) as (pv0 & Epv0 & Epp).
        exists pv0. split; [exact Epv0|].
        destruct (deref Ck (next_note self)); cbn [prev_note set_interval_to_next];
          rewrite Eprev; cbn [deref]; rewrite Epvk; cbn; lia.
      * intros Hk1.
        assert (next_note self = Some (S k)) as Enext
          by (rewrite <- Eny; apply Hyn, Hk1).
        destruct (Hdef (S k) Hk1) as (nx & Enxk).
        destruct (Hpitch _ _ Enxk) as (nx0 & Enx0 & Epn).
        exists nx0. split; [exact Enx0|].
        rewrite Enext. cbn [deref]. rewrite Enxk.
        match goal with |- context [deref Ck ?p] => destruct (deref Ck p) end;
          cbn; lia.
    + rewrite list_lookup_insert_ne in Hx by lia.
      apply IH; [lia|exact Hx].
  - assert (i <> k) as Hne.
    { intros ->. rewrite Ek in Hx. discriminate. }
    apply IH; [lia|exact Hx].
Qed.


(** After [analyze], the note at position [i] of the voice points to its
    neighbours in start-time order: [prev_note] is the note at [i - 1]
    and [interval_to_prev] the pitch difference to it (for [i > 0]);
    [next_note] is the note at [i + 1] and [interval_to_next] the pitch
    difference to it (for every note but the last). *)
Theorem analyze_links_neighbours (tpb : Z) (v : voice_t) (i : nat)
    (note : note_t) :
  MusicalVoice.notes (MusicalVoice.analyze tpb v) !! i = Some note ->
  let after := MusicalVoice.notes (MusicalVoice.analyze tpb v) in
  ((0 < i)%nat ->
     prev_note note = Some (i - 1)%nat
     /\ exists pv, after !! (i - 1)%nat = Some pv
                   /\ interval_to_prev note = pitch note - pitch pv)
  /\ ((S i < length after)%nat ->
      next_note note = Some (S i)
      /\ exists nx, after !! S i = Some nx
                    /\ interval_to_next note = pitch nx - pitch note).
Proof.
  intros Hnote after.
  destruct (MusicalVoice.notes v) as [|n0 ns0] eqn:En.
  { exfalso. unfold MusicalVoice.analyze in Hnote. rewrite En in Hnote.
    rewrite En in Hnote. discriminate. }
  assert (MusicalVoice.notes v <> []) as Hne by congruence.
  pose proof (analyze_notes_marks tpb v Hne) as Hmarks. fold after in Hmarks.
  clear En. revert Hmarks. unfold linked_notes. cbv zeta.
  set (L := MusicalVoice.link_notes _).
  set (C := foldl calculate_intervals L _).
  intros Hmarks.
  pose proof (interval_rounds_links L (seq 0 (length L))) as HLC. fold C in HLC.
  assert (forall j y, L !! j = Some y ->
            ((0 < j)%nat -> prev_note y = Some (j - 1)%nat)
            /\ ((S j < length L)%nat -> next_note y = Some (S j))) as HL.
  { intros j y Hy. destruct (link_notes_links _ _ _ Hy) as [Hp Hn].
    split; [exact Hp|]. intros Hj. apply Hn.
    unfold L in Hj. rewrite <- (Forall2_length _ _ _ (link_notes_only _)) in Hj.
    exact Hj. }
  assert (length after = length L) as Hlen.
  { rewrite <- (Forall2_length _ _ _ Hmarks), <- (Forall2_length _ _ _ HLC).
    reflexivity. }
  assert (forall j z, after !! j = Some z ->
            exists c y, C !! j = Some c /\ L !! j = Some y
                        /\ same_but_marks c z
                        /\ pitch y = pitch c /\ next_note y = next_note c
                        /\ prev_note y = prev_note c) as Hback.
  { intros j z Hz.
    destruct (Forall2_lookup_r _ _ _ _ _ Hmarks Hz) as (c & Ec & Hcz).
    destruct (Forall2_lookup_r _ _ _ _ _ HLC Ec) as (y & Ey & Hyc).
    exists c, y. tauto. }
  assert (forall j y, L !! j = Some y ->
            exists z, after !! j = Some z /\ pitch z = pitch y) as Hfwd.
  { intros j y Hy.
    destruct (lookup_lt_is_Some_2 after j) as (z & Hz);
      [rewrite Hlen; eapply lookup_lt_Some, Hy|].
    exists z. split; [exact Hz|].
    destruct (Hback j z Hz) as (c & y' & Ec & Ey' & Hcz & Ep & _).
    rewrite Hy in Ey'. injection Ey' as <-.
    unfold same_but_marks, analysis_only, same_original in Hcz.
    destruct Hcz as (((Epc&_)&_)&_). congruence. }
  destruct (Hback i note Hnote) as (c & y & Ec & Ey & Hcn & Epy & Eny & Epvy).
  unfold same_but_marks, analysis_only, same_original in Hcn.
  destruct Hcn as (((Epc&_)&_)&Enn&Epn&Ein&Eip).
  destruct (HL i y Ey) as [Hp Hn].
  assert (i < length L)%nat as Hi by (eapply lookup_lt_Some, Ey).
  destruct (interval_rounds L (length L) i c HL Hi Ec) as [Hip Hin].
  split.
  - intros Hi0. split; [rewrite <- Epn, <- Epvy; apply Hp, Hi0|].
    destruct (Hip Hi0) as (pv & Epv & Eint).
    destruct (Hfwd _ _ Epv) as (z & Ez & Epz).
    exists z. split; [exact Ez|]. rewrite <- Eip, <- Epc, Epz. exact Eint.
  - intros Hi1. rewrite Hlen in Hi1.
    split; [rewrite <- Enn, <- Eny; apply Hn, Hi1|].
    destruct (Hin Hi1) as (nx & Enx & Eint).
    destruct (Hfwd _ _ Enx) as (z & Ez & Epz).
    exists z. split; [exact Ez|]. rewrite <- Ein, <- Epc, Epz. exact Eint.
Qed.


(** The later steps keep what the role step has set. *)
Lemma late_steps_role (tpb : Z) (X : voice_t) :
  MusicalVoice.role
    (MusicalVoice._assign_phrase_positions
       (MusicalVoice._calculate_metric_positions tpb
          (MusicalVoice._detect_phrases tpb X)))
  = MusicalVoice.role X.
Proof.
  unfold MusicalVoice._assign_phrase_positions.
  destruct (MusicalVoice.phrases _); reflexivity.
Qed.

Lemma late_steps_flags (P : note_t -> Prop) (tpb : Z) (X : voice_t) :
  (forall n pos down, P n -> P (set_metric pos down n)) ->
  (forall n pos, P n -> P (set_phrase_position pos n)) ->
  Forall P (MusicalVoice.notes X) ->
  Forall P (MusicalVoice.notes
              (MusicalVoice._assign_phrase_positions
                 (MusicalVoice._calculate_metric_positions tpb
                    (MusicalVoice._detect_phrases tpb X)))).
Proof.
  intros Hm Hp HX.
  assert (Forall P (MusicalVoice.notes
                      (MusicalVoice._calculate_metric_positions tpb
                         (MusicalVoice._detect_phrases tpb X)))) as H1.
  { change (Forall P (map (MusicalVoice.metric_of tpb) (MusicalVoice.notes X))).
    apply Forall_fmap. eapply Forall_impl; [exact HX|].
    intros n Hn. apply Hm, Hn. }
  revert H1. generalize (MusicalVoice._calculate_metric_positions tpb
                           (MusicalVoice._detect_phrases tpb X)).
  intros Y HY. unfold MusicalVoice._assign_phrase_positions.
  destruct (MusicalVoice.phrases Y); [exact HY|].
  cbn [MusicalVoice.notes MusicalVoice.set_notes].
  apply Forall_lookup_2. intros i y Hy.
  rewrite list_lookup_imap in Hy.
  destruct (MusicalVoice.notes Y !! i) as [n|] eqn:En; [|discriminate].
  cbn [fmap option_fmap option_map] in Hy. injection Hy as <-.
  pose proof (Forall_lookup_1 _ _ _ _ HY En) as Hn.
  match goal with
  | |- context [MusicalVoice.note_to_phrase ?a ?b !! i] =>
      destruct (MusicalVoice.note_to_phrase a b !! i) as [[? ?]|]
  end; [apply Hp, Hn|exact Hn].
Qed.

Lemma sum_pitches_perm (l l' : list note_t) :
  l ≡ₚ l' -> PyList.sum (map pitch l) = PyList.sum (map pitch l').
Proof.
  unfold PyList.sum.
  induction 1 as [|x k k' Hp IH|x y k|k k' k'' H1 IH1 H2 IH2]; cbn in *; lia.
Qed.

Lemma sum_pitches_linked (l : list note_t) :
  PyList.sum (map pitch (linked_notes l)) = PyList.sum (map pitch l)
  /\ length (linked_notes l) = length l.
Proof.
  pose proof (linked_notes_only l) as Hf.
  assert (map pitch (linked_notes l)
          = map pitch (PyList.sorted MusicalVoice.by_start l)) as ->.
  { induction Hf as [|x y k k' Hxy Hf IH]; [reflexivity|].
    cbn. f_equal; [|exact IH]. symmetry. apply Hxy. }
  rewrite <- (Forall2_length _ _ _ Hf).
  pose proof (sorted_perm MusicalVoice.by_start l) as Hp.
  split; [apply sum_pitches_perm, Hp|apply Permutation_length, Hp].
Qed.

End Analysis.

Section RoleByMeanPitch.
Local Abbreviation voiceQ := (MusicalVoice.t Q).
Local Abbreviation noteQ := (NoteProperties.t Q).

Lemma Q_lt_quotient (a t : Z) (p : positive) :
  (inject_Z a < inject_Z t / inject_Z (Z.pos p))%Q <-> a * Z.pos p < t.
Proof.
  unfold Qlt, Qdiv, Qmult, Qinv, inject_Z. cbn. lia.
Qed.

Lemma Q_quotient_lt (a t : Z) (p : positive) :
  (inject_Z t / inject_Z (Z.pos p) < inject_Z a)%Q <-> t < a * Z.pos p.
Proof.
  unfold Qlt, Qdiv, Qmult, Qinv, inject_Z. cbn. lia.
Qed.

(** [analyze] on a voice with notes, in exact arithmetic: the role is
    "melody" when the mean pitch exceeds 70, "bass" when it is below 50
    and "inner_voice" otherwise, and every note of the voice carries the
    flag of that role. *)
Theorem analyze_classifies_by_mean_pitch (tpb : Z) (v : voiceQ) :
  MusicalVoice.notes v <> [] ->
  let v' := MusicalVoice.analyze tpb v in
  let total := PyList.sum (map pitch (MusicalVoice.notes v)) in
  let n := Z.of_nat (length (MusicalVoice.notes v)) in
  (MusicalVoice.role v' = "melody"%string /\ 70 * n < total
   /\ Forall (fun x => is_melody x = true) (MusicalVoice.notes v'))
  \/ (MusicalVoice.role v' = "bass"%string /\ total < 50 * n
      /\ Forall (fun x => is_bass x = true) (MusicalVoice.notes v'))
  \/ (MusicalVoice.role v' = "inner_voice"%string
      /\ 50 * n <= total <= 70 * n
      /\ Forall (fun x => is_inner_voice x = true) (MusicalVoice.notes v')).
Proof.
  intros Hne v' total n.
  destruct (sum_pitches_linked (MusicalVoice.notes v)) as [Esum Elen].
  unfold v', MusicalVoice.analyze.
  destruct (MusicalVoice.notes v) as [|n0 ns0] eqn:En; [congruence|].
  cbv zeta. fold (linked_notes (n0 :: ns0)).
  set (C := linked_notes (n0 :: ns0)) in *.
  rewrite length_map, Elen, Esum. fold total. fold n.
  assert (exists p, n = Z.pos p) as [p Ep].
  { unfold n. cbn [length]. exists (Pos.of_succ_nat (length ns0)). lia. }
  rewrite Ep.
  set (avg := fdiv (of_int total) (of_int (Z.pos p))).
  assert (forall (s : voiceQ) (P : noteQ -> Prop) (fl : noteQ -> noteQ),
            (forall x, P (fl x)) ->
            (forall x pos down, P x -> P (set_metric pos down x)) ->
            (forall x pos, P x -> P (set_phrase_position pos x)) ->
            forall d,
            Forall P (MusicalVoice.notes
                        (MusicalVoice.set_notes (map fl (MusicalVoice.notes s)) s))
            /\ Forall P
                 (MusicalVoice.notes
                    (MusicalVoice._assign_phrase_positions
                       (MusicalVoice._calculate_metric_positions tpb
                          (MusicalVoice._detect_phrases tpb
                             (MusicalVoice.set_notes
                                (map fl (MusicalVoice.notes s)) s)))))
            /\ Forall P
                 (MusicalVoice.notes
                    (MusicalVoice._assign_phrase_positions
                       (MusicalVoice._calculate_metric_positions tpb
                          (MusicalVoice._detect_phrases tpb
                             (MusicalVoice.set_rhythmic_density d
                                (MusicalVoice.set_notes
                                   (map fl (MusicalVoice.notes s)) s)))))))
    as Hflags.
  { intros s P fl Hfl Hm Hp d.
    assert (Forall P (map fl (MusicalVoice.notes s))) as H0.
    { apply Forall_fmap, Forall_forall. intros x _. apply Hfl. }
    split; [exact H0|].
    split; apply late_steps_flags; assumption. }
  destruct (fltb (of_int 70) avg) eqn:E70;
    [|destruct (fltb avg (of_int 50)) eqn:E50];
    cbn [MusicalVoice.role MusicalVoice.set_role];
    match goal with
    | |- context [map ?f (MusicalVoice.notes ?s)] =>
        pose (fl := f); pose (s1 := s)
    end.
  - left. apply fltb_Q in E70. unfold avg in E70.
    apply (proj1 (Q_lt_quotient 70 total p)) in E70.
    destruct (Hflags s1 (fun x => is_melody x = true) fl) with (d := 0%Q)
      as (H1 & H2 & _);
      [intros; reflexivity|intros; assumption|intros; assumption|].
    assert (forall d, Forall (fun x => is_melody x = true)
              (MusicalVoice.notes
                 (MusicalVoice._assign_phrase_positions
                    (MusicalVoice._calculate_metric_positions tpb
                       (MusicalVoice._detect_phrases tpb
                          (MusicalVoice.set_rhythmic_density d
                             (MusicalVoice.set_notes
                                (map fl (MusicalVoice.notes s1)) s1)))))))
      as H3 by (intros d; apply (Hflags s1 (fun x => is_melody x = true) fl);
                intros; first [reflexivity|assumption]).
    split; [|split; [lia|]];
      destruct (tpb =? 0); try reflexivity; try exact H1;
      match goal with |- context [if ?c then _ else _] => destruct c end;
      rewrite ?late_steps_role; try reflexivity;
      first [exact H2|apply H3].
  - right. left. apply fltb_Q in E50. unfold avg in E50.
    apply (proj1 (Q_quotient_lt 50 total p)) in E50.
    destruct (Hflags s1 (fun x => is_bass x = true) fl) with (d := 0%Q)
      as (H1 & H2 & _);
      [intros; reflexivity|intros; assumption|intros; assumption|].
    assert (forall d, Forall (fun x => is_bass x = true)
              (MusicalVoice.notes
                 (MusicalVoice._assign_phrase_positions
                    (MusicalVoice._calculate_metric_positions tpb
                       (MusicalVoice._detect_phrases tpb
                          (MusicalVoice.set_rhythmic_density d
                             (MusicalVoice.set_notes
                                (map fl (MusicalVoice.notes s1)) s1)))))))
      as H3 by (intros d; apply (Hflags s1 (fun x => is_bass x = true) fl);
                intros; first [reflexivity|assumption]).
    split; [|split; [lia|]];
      destruct (tpb =? 0); try reflexivity; try exact H1;
      match goal with |- context [if ?c then _ else _] => destruct c end;
      rewrite ?late_steps_role; try reflexivity;
      first [exact H2|apply H3].
  - right. right.
    apply fltb_Q_false in E70. apply fltb_Q_false in E50.
    assert (~ 70 * Z.pos p < total) as N70.
    { intros C70. apply (proj2 (Q_lt_quotient 70 total p)) in C70.
      apply (Qlt_not_le _ _ C70 E70). }
    assert (~ total < 50 * Z.pos p) as N50.
    { intros C50. apply (proj2 (Q_quotient_lt 50 total p)) in C50.
      apply (Qlt_not_le _ _ C50 E50). }
    destruct (Hflags s1 (fun x => is_inner_voice x = true) fl) with (d := 0%Q)
      as (H1 & H2 & _);
      [intros; reflexivity|intros; assumption|intros; assumption|].
    assert (forall d, Forall (fun x => is_inner_voice x = true)
              (MusicalVoice.notes
                 (MusicalVoice._assign_phrase_positions
                    (MusicalVoice._calculate_metric_positions tpb
                       (MusicalVoice._detect_phrases tpb
                          (MusicalVoice.set_rhythmic_density d
                             (MusicalVoice.set_notes
                                (map fl (MusicalVoice.notes s1)) s1)))))))
      as H3 by (intros d; apply (Hflags s1 (fun x => is_inner_voice x = true) fl);
                intros; first [reflexivity|assumption]).
    split; [|split; [lia|]];
      destruct (tpb =? 0); try reflexivity; try exact H1;
      match goal with |- context [if ?c then _ else _] => destruct c end;
      rewrite ?late_steps_role; try reflexivity;
      first [exact H2|apply H3].
Qed.

End RoleByMeanPitch.


Lemma analyze_links_neighbours_witness :
  exists note : NoteProperties.t float,
    MusicalVoice.notes
      (MusicalVoice.analyze 480
         (MusicalVoice.set_notes five_quarters (MusicalVoice.__init__ 0 0)))
    !! 1%nat = Some note
    /\ prev_note note = Some 0%nat /\ next_note note = Some 2%nat.
Proof.
  destruct (MusicalVoice.notes
              (MusicalVoice.analyze (F := float) 480
                 (MusicalVoice.set_notes five_quarters
                    (MusicalVoice.__init__ 0 0)))
            !! 1%nat) as [note|] eqn:E; [|vm_compute in E; discriminate].
  exists note. split; [reflexivity|].
  destruct (analyze_links_neighbours 480
              (MusicalVoice.set_notes five_quarters (MusicalVoice.__init__ 0 0))
              1%nat note E) as [Hp Hn].
  split; [apply Hp; lia|apply Hn].
  vm_compute. lia.
Defined.

Section MetricPositions.
Local Abbreviation voiceQ := (MusicalVoice.t Q).
Local Abbreviation noteQ := (NoteProperties.t Q).

Lemma ratio_times (r t : Z) :
  0 < t -> (inject_Z r / inject_Z t * inject_Z t == inject_Z r)%Q.
Proof.
  intros Ht. field. intros C. unfold Qeq in C. cbn in C. lia.
Qed.

Lemma Q_of_Z_lt (a b : Z) : (inject_Z a < inject_Z b)%Q <-> a < b.
Proof. unfold Qlt. cbn. lia. Qed.

Lemma Q_of_Z_le (a b : Z) : (inject_Z a <= inject_Z b)%Q <-> a <= b.
Proof. unfold Qle. cbn. lia. Qed.

Lemma metric_position_range (r tpm : Z) :
  0 <= r < tpm ->
  (0 <= inject_Z r / inject_Z tpm < 1)%Q.
Proof.
  intros [H0 H1].
  assert (0 < tpm) as Ht by lia.
  pose proof (ratio_times r tpm Ht) as E.
  apply Q_of_Z_le in H0. apply Q_of_Z_lt in H1. apply Q_of_Z_lt in Ht.
  change (inject_Z 0) with 0%Q in *.
  set (q := (inject_Z r / inject_Z tpm)%Q) in *. clearbody q.
  revert E H0 H1 Ht. generalize (inject_Z r) (inject_Z tpm).
  intros R T E H0 H1 Ht. split.
  - destruct (Qlt_le_dec q 0) as [L|G]; [|exact G]. exfalso. nra.
  - destruct (Qlt_le_dec q 1) as [L|G]; [exact L|]. exfalso. nra.
Qed.

Lemma downbeat_iff (r tpb : Z) :
  0 < tpb ->
  (fltb (inject_Z r / inject_Z tpb)%Q (lit 1 10)
   || fltb (fabs (fsub (inject_Z r / inject_Z tpb)%Q (of_int 2))) (lit 1 10))
  = true
  <-> 10 * r < tpb \/ 19 * tpb < 10 * r < 21 * tpb.
Proof.
  intros Ht.
  pose proof (ratio_times r tpb Ht) as E.
  rewrite orb_true_iff, !fltb_Q.
  rewrite <- !Q_of_Z_lt, !inject_Z_mult.
  apply Q_of_Z_lt in Ht. change (inject_Z 0) with 0%Q in Ht.
  set (q := (inject_Z r / inject_Z tpb)%Q) in *. clearbody q.
  revert E Ht. generalize (inject_Z r) (inject_Z tpb).
  intros R T E HT.
  change (lit 1 10) with (1 # 10)%Q.
  change (inject_Z 10) with (10 # 1)%Q. change (inject_Z 19) with (19 # 1)%Q.
  change (inject_Z 21) with (21 # 1)%Q.
  unfold fabs.
  destruct (fltb (fsub q (of_int 2)) (of_int 0)) eqn:Es.
  - apply fltb_Q in Es. change (q - 2 < 0)%Q in Es.
    change (fopp (fsub q (of_int 2))) with (- (q - 2))%Q.
    split.
    + intros [H|H]; [left; nra|right; split; nra].
    + intros [H|[H1 H2]].
      * left. destruct (Qlt_le_dec q (1 # 10)) as [L|G]; [exact L|]. exfalso. nra.
      * right. destruct (Qlt_le_dec (- (q - 2)) (1 # 10)) as [L|G]; [exact L|].
        exfalso. nra.
  - apply fltb_Q_false in Es. change (0 <= q - 2)%Q in Es.
    change (fsub q (of_int 2)) with (q - 2)%Q.
    split.
    + intros [H|H]; [left; nra|right; split; nra].
    + intros [H|[H1 H2]].
      * left. destruct (Qlt_le_dec q (1 # 10)) as [L|G]; [exact L|]. exfalso. nra.
      * right. destruct (Qlt_le_dec (q - 2) (1 # 10)) as [L|G]; [exact L|].
        exfalso. nra.
Qed.


(** With a resolution other than 0, [analyze] ends with the three late
    steps. *)
Lemma analyze_late_steps {F : Type} `{!PyFloat F} (tpb : Z)
    (v : MusicalVoice.t F) :
  MusicalVoice.notes v <> [] -> tpb <> 0 ->
  exists X, MusicalVoice.analyze tpb v
            = MusicalVoice._assign_phrase_positions
                (MusicalVoice._calculate_metric_positions tpb
                   (MusicalVoice._detect_phrases tpb X)).
Proof.
  intros Hne Ht. unfold MusicalVoice.analyze.
  destruct (MusicalVoice.notes v) as [|n0 ns0]; [congruence|].
  cbv zeta. destruct (Z.eqb_spec tpb 0) as [->|_]; [congruence|].
  match goal with |- context [if ?c then _ else _] => destruct c end;
    eexists; reflexivity.
Qed.

Lemma metric_steps_forall {F : Type} `{!PyFloat F} (P : NoteProperties.t F -> Prop)
    (tpb : Z) (Y : MusicalVoice.t F) :
  (forall n, P (MusicalVoice.metric_of tpb n)) ->
  (forall n pos, P n -> P (set_phrase_position pos n)) ->
  Forall P (MusicalVoice.notes
              (MusicalVoice._assign_phrase_positions
                 (MusicalVoice._calculate_metric_positions tpb Y))).
Proof.
  intros Hm Hp.
  assert (Forall P (MusicalVoice.notes
                      (MusicalVoice._calculate_metric_positions tpb Y))) as H1.
  { change (Forall P (map (MusicalVoice.metric_of tpb) (MusicalVoice.notes Y))).
    apply Forall_fmap, Forall_forall. intros n _. apply Hm. }
  revert H1. generalize (MusicalVoice._calculate_metric_positions tpb Y).
  intros Z HZ. unfold MusicalVoice._assign_phrase_positions.
  destruct (MusicalVoice.phrases Z); [exact HZ|].
  cbn [MusicalVoice.notes MusicalVoice.set_notes].
  apply Forall_lookup_2. intros i y Hy.
  rewrite list_lookup_imap in Hy.
  destruct (MusicalVoice.notes Z !! i) as [n|] eqn:En; [|discriminate].
  cbn [fmap option_fmap option_map] in Hy. injection Hy as <-.
  pose proof (Forall_lookup_1 _ _ _ _ HZ En) as Hn.
  match goal with
  | |- context [MusicalVoice.note_to_phrase ?a ?b !! i] =>
      destruct (MusicalVoice.note_to_phrase a b !! i) as [[? ?]|]
  end; [apply Hp, Hn|exact Hn].
Qed.

(** [analyze] with a positive resolution, in exact arithmetic: every
    note gets the metric position [(start mod 4 tpb) / (4 tpb)], a value
    in [0, 1), and is marked as a downbeat exactly when it starts less
    than a tenth of a beat after the first beat of its measure, or less
    than a tenth of a beat away from the third. *)
Theorem analyze_metric_positions (tpb : Z) (v : voiceQ) :
  0 < tpb ->
  Forall (fun x =>
            let r := original_start_time x mod (4 * tpb) in
            metric_position x = (inject_Z r / inject_Z (4 * tpb))%Q
            /\ (0 <= metric_position x < 1)%Q
            /\ (is_downbeat x = true
                <-> 10 * r < tpb \/ 19 * tpb < 10 * r < 21 * tpb))
         (MusicalVoice.notes (MusicalVoice.analyze tpb v)).
Proof.
  intros Ht.
  destruct (MusicalVoice.notes v) as [|n0 ns0] eqn:En.
  { unfold MusicalVoice.analyze. rewrite En, En. constructor. }
  destruct (analyze_late_steps tpb v) as (X & ->); [congruence|lia|].
  apply metric_steps_forall.
  - intros n. cbv zeta.
    change (original_start_time (MusicalVoice.metric_of tpb n))
      with (original_start_time n).
    set (r := original_start_time n mod (4 * tpb)).
    assert (0 <= r < 4 * tpb) as Hr by (apply Z.mod_pos_bound; lia).
    split; [reflexivity|]. split.
    + change (metric_position (MusicalVoice.metric_of tpb n))
        with (inject_Z r / inject_Z (4 * tpb))%Q.
      apply metric_position_range, Hr.
    + change (is_downbeat (MusicalVoice.metric_of tpb n))
        with (fltb (inject_Z r / inject_Z tpb)%Q (lit 1 10)
              || fltb (fabs (fsub (inject_Z r / inject_Z tpb)%Q (of_int 2)))
                      (lit 1 10)).
      apply downbeat_iff, Ht.
  - intros n pos Hn. exact Hn.
Qed.

End MetricPositions.

Lemma analyze_metric_positions_witness :
  Forall (fun x =>
            let r := original_start_time x mod (4 * 480) in
            metric_position x = (inject_Z r / inject_Z (4 * 480))%Q
            /\ (0 <= metric_position x < 1)%Q
            /\ (is_downbeat x = true
                <-> 10 * r < 480 \/ 19 * 480 < 10 * r < 21 * 480))
    (MusicalVoice.notes
       (MusicalVoice.analyze (F := Q) 480
          (MusicalVoice.set_notes five_quarters (MusicalVoice.__init__ 0 0)))).
Proof.
  apply (analyze_metric_positions 480
           (MusicalVoice.set_notes five_quarters (MusicalVoice.__init__ 0 0))).
  lia.
Defined.

Lemma analyze_classifies_by_mean_pitch_witness :
  MusicalVoice.role
    (MusicalVoice.analyze (F := Q) 480
       (MusicalVoice.set_notes five_quarters (MusicalVoice.__init__ 0 0)))
  = "inner_voice"%string.
Proof.
  destruct (analyze_classifies_by_mean_pitch 480
              (MusicalVoice.set_notes five_quarters (MusicalVoice.__init__ 0 0)))
    as [(_ & H & _)|[(_ & H & _)|(H & _)]].
  - vm_compute. discriminate.
  - vm_compute in H. discriminate.
  - vm_compute in H. discriminate.
  - exact H.
Defined.

(** *** Detected phrases (voice_analyzer.py) *)

Section PhraseOrder.
Context {F : Type} `{!PyFloat F}.
Local Abbreviation note_t := (NoteProperties.t F).
Local Abbreviation phrase := MusicalVoice.phrase.

(** Phrases in increasing order, one after the other, each of at least
    three notes and ending before [bound]. *)
Local Abbreviation after_each_other :=
  (StronglySorted (fun p q : phrase => (p.1.2 < q.1.1)%nat)).
Local Abbreviation long_and_below bound :=
  (Forall (fun p : phrase => (p.1.1 + 2 <= p.1.2 < bound)%nat)).

Lemma after_each_other_snoc (ps : list phrase) (p : phrase) :
  after_each_other ps ->
  Forall (fun q : phrase => (q.1.2 < p.1.1)%nat) ps ->
  after_each_other (ps ++ [p]).
Proof.
  intros Hs Hf. induction Hs as [|q ps Hs IH Hq]; cbn.
  - repeat constructor.
  - apply Forall_cons in Hf as [Hqp Hf].
    constructor; [apply IH, Hf|].
    apply Forall_app. split; [exact Hq|]. repeat constructor. exact Hqp.
Qed.

Lemma scan_positions_ordered (brk : nat -> bool) :
  forall (m i cps : nat) (phrases : list phrase),
    (cps <= i)%nat ->
    after_each_other phrases -> long_and_below cps phrases ->
    Forall (fun p : phrase => p.2 = "standard"%string) phrases ->
    let r := scan_positions brk m i cps phrases in
    (r.1 <= i + m)%nat
    /\ after_each_other r.2 /\ long_and_below r.1 r.2
    /\ Forall (fun p : phrase => p.2 = "standard"%string) r.2.
Proof.
  induction m as [|m IH]; intros i cps phrases Hle Hs Hb Hk; cbv zeta;
    cbn [scan_positions].
  - cbn. split; [lia|]. split; [exact Hs|]. split; assumption.
  - destruct (brk i).
    + set (phrases1 := if 2 <? Z.of_nat i - Z.of_nat cps
                       then phrases ++ [(cps, (i - 1)%nat, "standard"%string)]
                       else phrases).
      assert (after_each_other phrases1 /\ long_and_below i phrases1
              /\ Forall (fun p : phrase => p.2 = "standard"%string) phrases1)
        as (Hs1 & Hb1 & Hk1).
      { assert (long_and_below i phrases) as Hbi.
        { eapply Forall_impl; [exact Hb|]. cbn. intros p Hp. lia. }
        unfold phrases1. destruct (Z.ltb_spec 2 (Z.of_nat i - Z.of_nat cps)).
        - split; [|split].
          + apply after_each_other_snoc; [exact Hs|].
            eapply Forall_impl; [exact Hb|]. cbn. intros p Hp. lia.
          + apply Forall_app. split; [exact Hbi|].
            repeat constructor; cbn; lia.
          + apply Forall_app. split; [exact Hk|]. repeat constructor.
        - split; [exact Hs|]. split; assumption. }
      destruct (IH (S i) i phrases1) as (H1 & H2 & H3 & H4);
        [lia|exact Hs1|exact Hb1|exact Hk1|].
      split; [lia|]. split; [exact H2|]. split; assumption.
    + destruct (IH (S i) cps phrases) as (H1 & H2 & H3 & H4);
        [lia|exact Hs|exact Hb|exact Hk|].
      split; [lia|]. split; [exact H2|]. split; assumption.
Qed.

Lemma detect_phrases_ordered (tpb : Z) (notes : list note_t) :
  let ps := MusicalVoice.detect_phrases_of tpb notes [] in
  StronglySorted (fun p q : phrase => (p.1.2 < q.1.1)%nat) ps
  /\ Forall (fun p : phrase =>
               (p.1.1 + 2 <= p.1.2 < length notes)%nat
               /\ (p.2 = "standard"%string
                   \/ (p.2 = "final"%string /\ S p.1.2 = length notes
                       /\ last ps = Some p)))
            ps.
Proof.
  intros ps. unfold ps, MusicalVoice.detect_phrases_of.
  pose proof (Permutation_length (sorted_perm MusicalVoice.by_start notes)) as Hlen.
  destruct (PyList.sorted MusicalVoice.by_start notes) as [|first rest] eqn:Es.
  { split; constructor. }
  rewrite (detect_loop_scan tpb (first :: rest) rest first 1 0 []);
    [|destruct rest; reflexivity|intros; reflexivity|reflexivity|lia].
  destruct (scan_positions_ordered (ends_before_b tpb (first :: rest))
              (length rest) 1 0 []) as (H1 & H2 & H3 & H4);
    [lia|constructor|constructor|constructor|].
  destruct (scan_positions _ _ _ _ _) as [cps ph]. cbn [fst snd] in *.
  cbn [length] in Hlen.
  assert (Forall (fun p : phrase => (p.1.1 + 2 <= p.1.2 < length notes)%nat
                                    /\ p.2 = "standard"%string) ph) as Hph.
  { apply Forall_and. split; [|exact H4].
    eapply Forall_impl; [exact H3|]. cbn. intros p Hp. lia. }
  destruct (Z.ltb_spec 2 (Z.of_nat (S (length rest)) - Z.of_nat cps)).
  - split.
    + apply after_each_other_snoc; [exact H2|].
      eapply Forall_impl; [exact H3|]. cbn. intros p Hp. lia.
    + apply Forall_app. split.
      * eapply Forall_impl; [exact Hph|]. cbn. intros p [Hp Hk]. auto.
      * constructor; [|constructor]. cbn. split; [lia|].
        right. split; [reflexivity|]. split; [lia|]. apply last_snoc.
  - split; [exact H2|].
    eapply Forall_impl; [exact Hph|]. cbn. intros p [Hp Hk]. auto.
Qed.

(** The phrases [_detect_phrases] registers on a voice without phrases:
    they come in increasing order, each starts after the one before it
    has ended, has at least three notes and lies within the notes of the
    voice; only the last one can be "final", and it then ends with the
    last note. *)
Theorem detected_phrases_follow_each_other (tpb : Z) (notes : list note_t) :
  let ps := MusicalVoice.detect_phrases_of tpb notes [] in
  StronglySorted (fun p q : phrase => (p.1.2 < q.1.1)%nat) ps
  /\ Forall (fun p : phrase =>
               (p.1.1 + 2 <= p.1.2 < length notes)%nat
               /\ (p.2 = "standard"%string
                   \/ (p.2 = "final"%string /\ S p.1.2 = length notes
                       /\ last ps = Some p)))
            ps.
Proof. apply detect_phrases_ordered. Qed.

(** Two phrases of an ordered list that cover the same position are the
    same phrase. *)
Lemma ordered_phrases_cover_once (ps : list phrase) (p q : phrase) (i : nat) :
  after_each_other ps -> p ∈ ps -> q ∈ ps ->
  (p.1.1 <= i <= p.1.2)%nat -> (q.1.1 <= i <= q.1.2)%nat -> p = q.
Proof.
  intros Hs. revert p q. induction Hs as [|r ps Hs IH Hr]; intros p q Hp Hq Hip Hiq.
  - inversion Hp.
  - apply elem_of_cons in Hp as [->|Hp]; apply elem_of_cons in Hq as [->|Hq].
    + reflexivity.
    + pose proof (proj1 (Forall_forall _ _) Hr q Hq). cbn in *. lia.
    + pose proof (proj1 (Forall_forall _ _) Hr p Hp). cbn in *. lia.
    + apply IH; assumption.
Qed.

(** The dictionary [note_to_phrase]. *)
Lemma note_to_phrase_round (n : nat) (val : nat * nat) :
  forall (len a : nat) (m : gmap nat (nat * nat)) (i : nat),
    foldl (fun m note_idx =>
             if bool_decide (note_idx < n)%nat
             then <[note_idx := val]> m else m)
          m (seq a len) !! i
    = if bool_decide ((a <= i < a + len)%nat /\ (i < n)%nat)
      then Some val else m !! i.
Proof.
  induction len as [|len IH]; intros a m i; cbn [seq foldl].
  - rewrite bool_decide_eq_false_2 by lia. reflexivity.
  - rewrite IH. destruct (decide (i = a)) as [->|Hne].
    + destruct (decide (a < n)%nat) as [Hn|Hn].
      * rewrite (bool_decide_eq_true_2 (a < n)%nat Hn).
        rewrite (bool_decide_eq_true_2 ((a <= a < a + S len)%nat /\ (a < n)%nat))
          by lia.
        case_bool_decide; [reflexivity|]. apply lookup_insert_eq.
      * rewrite (bool_decide_eq_false_2 (a < n)%nat Hn).
        rewrite !bool_decide_eq_false_2 by lia. reflexivity.
    + assert ((if bool_decide (a < n)%nat then <[a := val]> m else m) !! i
              = m !! i) as ->.
      { case_bool_decide; [|reflexivity]. apply lookup_insert_ne. lia. }
      destruct (decide ((S a <= i < S a + len)%nat /\ (i < n)%nat)) as [H1|H1].
      * rewrite !bool_decide_eq_true_2 by lia. reflexivity.
      * rewrite !bool_decide_eq_false_2 by lia. reflexivity.
Qed.

Lemma note_to_phrase_covered (n : nat) (ps : list phrase) (p : phrase) (i : nat) :
  after_each_other ps -> p ∈ ps -> (p.1.1 <= i <= p.1.2)%nat -> (i < n)%nat ->
  MusicalVoice.note_to_phrase n ps !! i = Some (p.1.1, p.1.2).
Proof.
  unfold MusicalVoice.note_to_phrase. generalize (∅ : gmap nat (nat * nat)).
  intros m0 Hs Hp Hi Hn.
  assert (forall q, q ∈ ps -> (q.1.1 <= i <= q.1.2)%nat -> q = p) as Hone.
  { intros q Hq Hiq. eapply ordered_phrases_cover_once; eassumption. }
  clear Hs. revert Hp Hone.
  induction ps as [|q ps IH] using rev_ind; intros Hp Hone; [inversion Hp|].
  rewrite foldl_app. cbn [foldl]. destruct q as [[qs qe] qk].
  rewrite note_to_phrase_round.
  destruct (decide (qs <= i <= qe)%nat) as [Hc|Hc].
  - assert ((qs, qe, qk) = p) as <-.
    { apply Hone; [apply elem_of_app; right; apply list_elem_of_singleton;
                   reflexivity|exact Hc]. }
    rewrite bool_decide_eq_true_2 by (cbn in *; lia). reflexivity.
  - rewrite bool_decide_eq_false_2 by lia.
    apply elem_of_app in Hp as [Hp|Hp].
    + apply IH; [exact Hp|]. intros r Hr. apply Hone, elem_of_app. auto.
    + apply list_elem_of_singleton in Hp. subst p. cbn in Hi. lia.
Qed.

End PhraseOrder.

Section PhrasePositions.
Local Abbreviation voiceQ := (MusicalVoice.t Q).
Local Abbreviation noteQ := (NoteProperties.t Q).

Lemma analyze_late_steps_phrases {F : Type} `{!PyFloat F} (tpb : Z)
    (v : MusicalVoice.t F) :
  MusicalVoice.notes v <> [] -> tpb <> 0 ->
  exists X, MusicalVoice.analyze tpb v
            = MusicalVoice._assign_phrase_positions
                (MusicalVoice._calculate_metric_positions tpb
                   (MusicalVoice._detect_phrases tpb X))
            /\ MusicalVoice.phrases X = MusicalVoice.phrases v.
Proof.
  intros Hne Ht. unfold MusicalVoice.analyze.
  destruct (MusicalVoice.notes v) as [|n0 ns0]; [congruence|].
  cbv zeta. destruct (Z.eqb_spec tpb 0) as [->|_]; [congruence|].
  match goal with |- context [if ?c then _ else _] => destruct c end;
    eexists; (split; [reflexivity|]);
    destruct (fltb (of_int 70) _); [|destruct (fltb _ (of_int 50))| |
                                     destruct (fltb _ (of_int 50))];
    reflexivity.
Qed.

(** [analyze] on a voice without phrases, in exact arithmetic: a note at
    position [i] of a registered phrase from [s] to [e] gets the phrase
    position [(i - s) / (e - s + 1)]: 0 for the first note of the phrase
    and less than 1 for every note, the last one included. *)
Theorem phrase_positions_stay_below_one (tpb : Z) (v : voiceQ)
    (s e : nat) (k : string) (i : nat) (x : noteQ) :
  MusicalVoice.phrases v = [] -> tpb <> 0 ->
  (s, e, k) ∈ MusicalVoice.phrases (MusicalVoice.analyze tpb v) ->
  (s <= i <= e)%nat ->
  MusicalVoice.notes (MusicalVoice.analyze tpb v) !! i = Some x ->
  phrase_position x
  = (inject_Z (Z.of_nat i - Z.of_nat s)
     / inject_Z (Z.of_nat e - Z.of_nat s + 1))%Q
  /\ (0 <= phrase_position x < 1)%Q
  /\ (i = s -> (phrase_position x == 0)%Q).
Proof.
  intros Hfresh Ht Hin Hi Hx.
  destruct (MusicalVoice.notes v) as [|n0 ns0] eqn:En.
  { exfalso. unfold MusicalVoice.analyze in Hin. rewrite En in Hin.
    rewrite Hfresh in Hin. inversion Hin. }
  destruct (analyze_late_steps_phrases tpb v) as (X & EX & EpX);
    [congruence|exact Ht|].
  rewrite EX in Hin, Hx. clear EX.
  set (Y := MusicalVoice._calculate_metric_positions tpb
              (MusicalVoice._detect_phrases tpb X)) in *.
  assert (MusicalVoice.phrases Y
          = MusicalVoice.detect_phrases_of tpb (MusicalVoice.notes X) []) as EY.
  { unfold Y. cbn. rewrite EpX, Hfresh. reflexivity. }
  destruct (detect_phrases_ordered tpb (MusicalVoice.notes X)) as [Hord _].
  rewrite <- EY in Hord. clear EY.
  assert (MusicalVoice.phrases (MusicalVoice._assign_phrase_positions Y)
          = MusicalVoice.phrases Y) as Hph.
  { unfold MusicalVoice._assign_phrase_positions.
    destruct (MusicalVoice.phrases Y) eqn:E; exact E. }
  rewrite Hph in Hin. clear Hph.
  unfold MusicalVoice._assign_phrase_positions in Hx.
  destruct (MusicalVoice.phrases Y) as [|p0 ps0] eqn:EpY; [inversion Hin|].
  cbv beta iota zeta in Hx.
  cbn [MusicalVoice.set_notes MusicalVoice.notes] in Hx.
  rewrite list_lookup_imap in Hx.
  destruct (MusicalVoice.notes Y !! i) as [y|] eqn:Ey; [|discriminate].
  cbn [fmap option_fmap option_map] in Hx.
  rewrite (note_to_phrase_covered _ _ (s, e, k) i Hord Hin Hi) in Hx
    by (eapply lookup_lt_Some, Ey).
  cbn [fst snd] in Hx. injection Hx as <-.
  cbn [phrase_position set_phrase_position].
  replace (Z.max 1 (Z.of_nat e - Z.of_nat s + 1))
    with (Z.of_nat e - Z.of_nat s + 1) by lia.
  split; [reflexivity|]. split.
  - apply metric_position_range. lia.
  - intros ->. rewrite Z.sub_diag. unfold Qeq, Qdiv, Qmult. cbn. lia.
Qed.

End PhrasePositions.

Lemma phrase_positions_stay_below_one_witness :
  exists x : NoteProperties.t Q,
    MusicalVoice.notes
      (MusicalVoice.analyze 480
         (MusicalVoice.set_notes five_quarters (MusicalVoice.__init__ 0 0)))
    !! 4%nat = Some x
    /\ phrase_position x = (inject_Z (4 - 0) / inject_Z (4 - 0 + 1))%Q.
Proof.
  destruct (MusicalVoice.notes
              (MusicalVoice.analyze (F := Q) 480
                 (MusicalVoice.set_notes five_quarters
                    (MusicalVoice.__init__ 0 0)))
            !! 4%nat) as [x|] eqn:E; [|vm_compute in E; discriminate].
  exists x. split; [reflexivity|].
  refine (proj1 (phrase_positions_stay_below_one 480
            (MusicalVoice.set_notes five_quarters (MusicalVoice.__init__ 0 0))
            0%nat 4%nat "final" 4%nat x _ _ _ _ E)).
  - reflexivity.
  - lia.
  - vm_compute. apply list_elem_of_here.
  - lia.
Defined.

(** *** The rule manager (rule_base.py) *)

Section RuleManagerFacts.
Context {F : Type} `{!PyFloat F}.
Variable random_random : nat -> F.
Local Abbreviation rule_t := (@Rules.InterpretationRule F).
Local Abbreviation note_t := (NoteProperties.t F).

(** What identifies a rule to the user: its name and whether it is
    enabled. *)
Local Abbreviation identity :=
  (fun r : rule_t => (Rules.name r, Rules.enabled r)).

Lemma apply_keeps_identity (rule rule' : rule_t) (i : nat)
    (notes notes' : list note_t) (ctx : InterpretationContext.t F)
    (rng rng' : nat) (b : bool) :
  Rules.apply random_random rule i notes ctx rng = Some (rule', notes', rng', b) ->
  identity rule' = identity rule.
Proof.
  unfold Rules.apply, Rules.stateless.
  destruct (Rules.impl rule);
    repeat match goal with
           | |- context [match ?x with Some _ => _ | None => _ end] =>
               destruct x
           | |- context [let '(_, _) := ?p in _] => destruct p
           end;
    intros [= <- _ _ _] || discriminate; reflexivity.
Qed.

Lemma apply_rules_to_note_identity (vt : string) (rules : list rule_t) (i : nat)
    (notes : list note_t) (ctx : InterpretationContext.t F) (rng : nat)
    (stats : gmap string (gmap string Z)) :
  map identity
    (RuleManager.apply_rules_to_note random_random vt rules i notes ctx rng stats).1.1.1.1
  = map identity rules.
Proof.
  revert notes rng stats.
  induction rules as [|rule rest IH]; intros notes rng stats; [reflexivity|].
  cbn [RuleManager.apply_rules_to_note].
  destruct (Rules.enabled rule) eqn:Een.
  - destruct (Rules.apply random_random rule i notes ctx rng)
      as [[[[rule' notes'] rng'] applied]|] eqn:Eap.
    + match goal with
      | |- context [RuleManager.apply_rules_to_note _ vt rest i ?n ctx ?r ?s] =>
          specialize (IH n r s);
          destruct (RuleManager.apply_rules_to_note random_random vt rest i n ctx r s)
            as [[[[rest' ?] ?] ?] ?]
      end.
      cbn [fst map] in *. rewrite IH.
      rewrite (apply_keeps_identity _ _ _ _ _ _ _ _ _ Eap). reflexivity.
    + specialize (IH notes rng stats).
      destruct (RuleManager.apply_rules_to_note random_random vt rest i notes ctx
                  rng stats) as [[[[rest' ?] ?] ?] ?].
      cbn [fst map] in *. rewrite IH. reflexivity.
  - specialize (IH notes rng stats).
    destruct (RuleManager.apply_rules_to_note random_random vt rest i notes ctx
                rng stats) as [[[[rest' ?] ?] ?] ?].
    cbn [fst map] in *. rewrite IH. reflexivity.
Qed.

(** Disabled rules are skipped: nothing changes. *)
Lemma apply_rules_to_note_disabled (vt : string) (rules : list rule_t) (i : nat)
    (notes : list note_t) (ctx : InterpretationContext.t F) (rng : nat)
    (stats : gmap string (gmap string Z)) :
  Forall (fun r => Rules.enabled r = false) rules ->
  RuleManager.apply_rules_to_note random_random vt rules i notes ctx rng stats
  = (rules, notes, rng, stats, 0).
Proof.
  induction 1 as [|rule rest Hr _ IH]; [reflexivity|].
  cbn [RuleManager.apply_rules_to_note]. rewrite Hr, IH. reflexivity.
Qed.

(** [apply_rules] never adds, removes, reorders, renames, enables or
    disables a rule, for any voice type: the rule lists keep their names
    and enabled flags (only the memory of the stateful rules changes). *)
Theorem apply_rules_keeps_the_rule_sets (self : RuleManager.t F)
    (voice : MusicalVoice.t F) (ctx : InterpretationContext.t F) (rng : nat)
    (vt : string) :
  map identity
    <$> RuleManager.rule_sets
          (RuleManager.apply_rules random_random self voice ctx rng).1.1.1 !! vt
  = map identity <$> RuleManager.rule_sets self !! vt.
Proof.
  unfold RuleManager.apply_rules. cbv zeta.
  set (t := RuleManager.voice_type_of (MusicalVoice.role voice)).
  destruct (RuleManager.rule_sets self !! t) as [rules0|] eqn:E0; [|reflexivity].
  assert (forall (idxs : list nat) (st : RuleManager.t F * list note_t * nat * Z),
            is_Some (RuleManager.rule_sets st.1.1.1 !! t) ->
            let st' :=
              foldl (fun '(self, notes, rng, count) i =>
                       let rules := default [] (RuleManager.rule_sets self !! t) in
                       let '(rules, notes, rng, stats, n) :=
                         RuleManager.apply_rules_to_note random_random t rules i
                           notes ctx rng (RuleManager.stats self) in
                       (RuleManager.mk (<[t := rules]> (RuleManager.rule_sets self))
                          stats, notes, rng, count + n))
                    st idxs in
            map identity <$> RuleManager.rule_sets st'.1.1.1 !! vt
            = map identity <$> RuleManager.rule_sets st.1.1.1 !! vt) as Hfold.
  { induction idxs as [|i idxs IH]; intros st Hsome; [reflexivity|].
    cbn [foldl]. destruct st as [[[s ns] r] c]. cbn [fst] in Hsome.
    destruct Hsome as [rules Er].
    pose proof (apply_rules_to_note_identity t rules i ns ctx r
                  (RuleManager.stats s)) as Hid.
    rewrite Er. cbn [default from_option Datatypes.id].
    destruct (RuleManager.apply_rules_to_note random_random t rules i ns ctx r
                (RuleManager.stats s)) as [[[[rules' ns'] r'] stats'] n'].
    cbn [fst] in Hid.
    cbv zeta in IH. rewrite IH.
    - cbn [fst RuleManager.rule_sets].
      destruct (decide (t = vt)) as [<-|Hne].
      + rewrite lookup_insert_eq, Er. cbn. f_equal. exact Hid.
      + rewrite lookup_insert_ne by exact Hne. reflexivity.
    - cbn [fst RuleManager.rule_sets]. rewrite lookup_insert_eq. eauto. }
  specialize (Hfold (seq 0 (length (MusicalVoice.notes voice)))
                (self, MusicalVoice.notes voice, rng, 0)).
  cbv zeta in Hfold.
  destruct (foldl _ _ _) as [[[s' ns'] r'] c'].
  cbn [fst] in *. apply Hfold. rewrite E0. eauto.
Qed.

(** A voice whose rules are all disabled comes back as it was: no note,
    no statistic and no random number is touched, and the count is 0. *)
Theorem apply_rules_with_all_rules_disabled (self : RuleManager.t F)
    (voice : MusicalVoice.t F) (ctx : InterpretationContext.t F) (rng : nat) :
  (forall rules,
     RuleManager.rule_sets self
       !! RuleManager.voice_type_of (MusicalVoice.role voice) = Some rules ->
     Forall (fun r => Rules.enabled r = false) rules) ->
  RuleManager.apply_rules random_random self voice ctx rng
  = (self, voice, rng, 0).
Proof.
  intros Hdis. unfold RuleManager.apply_rules. cbv zeta.
  set (t := RuleManager.voice_type_of (MusicalVoice.role voice)) in *.
  destruct (RuleManager.rule_sets self !! t) as [rules0|] eqn:E0; [|reflexivity].
  specialize (Hdis rules0 eq_refl).
  assert (forall (idxs : list nat) (ns : list note_t),
            foldl (fun '(self, notes, rng, count) i =>
                     let rules := default [] (RuleManager.rule_sets self !! t) in
                     let '(rules, notes, rng, stats, n) :=
                       RuleManager.apply_rules_to_note random_random t rules i
                         notes ctx rng (RuleManager.stats self) in
                     (RuleManager.mk (<[t := rules]> (RuleManager.rule_sets self))
                        stats, notes, rng, count + n))
                  (self, ns, rng, 0) idxs
            = (self, ns, rng, 0)) as Hfold.
  { induction idxs as [|i idxs IH]; intros ns; [reflexivity|].
    cbn [foldl]. rewrite E0. cbn [default from_option Datatypes.id].
    rewrite apply_rules_to_note_disabled by exact Hdis.
    rewrite insert_id by exact E0.
    replace (RuleManager.mk (RuleManager.rule_sets self) (RuleManager.stats self))
      with self by (destruct self; reflexivity).
    apply IH. }
  rewrite Hfold. f_equal. f_equal. f_equal. destruct voice; reflexivity.
Qed.

(** [register_rule] on a manager built by the constructor and earlier
    registrations: a rule for "melody", "bass" or "inner" is appended to
    the end of that list; a rule for any other voice type is dropped and
    the manager stays as it was; the other lists and the statistics are
    never touched. *)
Theorem register_rule_appends_or_ignores (rm : RuleManager.t F)
    (vt : string) (rule : rule_t) :
  manager_built rm ->
  let rm' := RuleManager.register_rule vt rule rm in
  ((vt = "melody" \/ vt = "bass" \/ vt = "inner")%string ->
     exists rules, RuleManager.rule_sets rm !! vt = Some rules
                   /\ RuleManager.rule_sets rm' !! vt = Some (rules ++ [rule]))
  /\ (~ (vt = "melody" \/ vt = "bass" \/ vt = "inner")%string -> rm' = rm)
  /\ (forall k, k <> vt ->
        RuleManager.rule_sets rm' !! k = RuleManager.rule_sets rm !! k)
  /\ RuleManager.stats rm' = RuleManager.stats rm.
Proof.
  intros Hb rm'. pose proof (manager_built_keys rm vt Hb) as Hk.
  unfold rm', RuleManager.register_rule.
  destruct (RuleManager.rule_sets rm !! vt) as [rules|] eqn:E.
  - split; [|split; [|split]].
    + intros _. exists rules. split; [reflexivity|]. cbn. apply lookup_insert_eq.
    + intros Hn. exfalso. apply Hn, Hk. eauto.
    + intros k Hne. cbn. apply lookup_insert_ne. congruence.
    + reflexivity.
  - split; [|split; [|split]].
    + intros Hv. apply Hk in Hv. destruct Hv. discriminate.
    + reflexivity.
    + reflexivity.
    + reflexivity.
Qed.

End RuleManagerFacts.

Lemma apply_rules_with_all_rules_disabled_witness :
  RuleManager.apply_rules (F := float) (fun _ => of_int 0)
    (RuleManager.register_rule "melody"
       (Rules.mk_rule "ShortNoteRule" false
          (Rules.ShortNoteRule Rules.ShortNote_defaults))
       RuleManager.__init__)
    (MusicalVoice.set_notes [plain_note 60 0 480] (MusicalVoice.__init__ 0 0))
    scenario_B_context 0%nat
  = (RuleManager.register_rule "melody"
       (Rules.mk_rule "ShortNoteRule" false
          (Rules.ShortNoteRule Rules.ShortNote_defaults))
       RuleManager.__init__,
     MusicalVoice.set_notes [plain_note 60 0 480] (MusicalVoice.__init__ 0 0),
     0%nat, 0).
Proof.
  apply (apply_rules_with_all_rules_disabled (F := float)).
  intros rules E. vm_compute in E. injection E as <-.
  repeat constructor.
Defined.

Lemma register_rule_appends_or_ignores_witness :
  RuleManager.register_rule (F := float) "strings"
    (Rules.mk_rule "ShortNoteRule" true
       (Rules.ShortNoteRule Rules.ShortNote_defaults))
    RuleManager.__init__
  = RuleManager.__init__.
Proof.
  refine (proj1 (proj2 (register_rule_appends_or_ignores (F := float)
            RuleManager.__init__ "strings"
            (Rules.mk_rule "ShortNoteRule" true
               (Rules.ShortNoteRule Rules.ShortNote_defaults))
            (built_init (F := float)))) _).
  intros [C|[C|C]]; discriminate.
Defined.

(** *** The conductor's structure (orchestral_conductor.py) *)

Section DefaultStructure.
Context {F : Type} `{!PyFloat F}.
Local Abbreviation conductor := (OrchestralConductor.t F).

(** [range(a, n, 8)]. *)
Lemma range_fuel_by_eight (n : Z) :
  forall (fuel : nat) (a : Z),
    (Z.to_nat ((n - a + 7) / 8) <= fuel)%nat ->
    PyList.range_fuel fuel a n 8
    = map (fun k : nat => a + 8 * Z.of_nat k)
          (seq 0 (Z.to_nat ((n - a + 7) / 8))).
Proof.
  induction fuel as [|fuel IH]; intros a Hf.
  - replace (Z.to_nat ((n - a + 7) / 8)) with 0%nat by lia. reflexivity.
  - cbn [PyList.range_fuel]. destruct (Z.ltb_spec a n) as [Hlt|Hge].
    + assert ((n - a + 7) / 8 = 1 + (n - (a + 8) + 7) / 8) as E.
      { replace (n - a + 7) with (1 * 8 + (n - (a + 8) + 7)) by lia.
        rewrite Z.div_add_l by lia. reflexivity. }
      assert (0 <= (n - (a + 8) + 7) / 8) as Hnn.
      { apply Z.div_pos; lia. }
      rewrite E in Hf |- *.
      replace (Z.to_nat (1 + (n - (a + 8) + 7) / 8))
        with (S (Z.to_nat ((n - (a + 8) + 7) / 8))) in Hf |- * by lia.
      cbn [seq map]. f_equal; [lia|].
      rewrite IH by lia. rewrite <- seq_shift, map_map.
      apply map_ext. intros k. lia.
    + assert ((n - a + 7) / 8 <= 0) as Hz.
      { assert ((n - a + 7) / 8 < 1); [|lia].
        apply Z.div_lt_upper_bound; lia. }
      replace (Z.to_nat ((n - a + 7) / 8)) with 0%nat by lia. reflexivity.
Qed.

Lemma range_by_eight (n : Z) :
  0 <= n ->
  PyList.range 0 n 8
  = map (fun k : nat => 8 * Z.of_nat k) (seq 0 (Z.to_nat ((n + 7) / 8))).
Proof.
  intros Hn. unfold PyList.range. rewrite range_fuel_by_eight.
  - replace (n - 0 + 7) with (n + 7) by lia. apply map_ext. intros k. lia.
  - replace (n - 0 + 7) with (n + 7) by lia. replace (n - 0) with n by lia.
    assert ((n + 7) / 8 <= n); [|lia].
    destruct (Z.eq_dec n 0) as [->|Hne]; [reflexivity|].
    apply Z.div_le_upper_bound; lia.
Qed.

(** The loop of the two default structures. *)
Lemma default_phrases_fold (last : Z) (l : list Z) :
  forall (pb : list (Z * Z)) (cs : list Z) (gc : list (Z * F)),
    let r := foldl (OrchestralConductor.default_phrase last) (pb, cs, gc) l in
    r.1.1 = pb ++ map (fun i => (i, Z.min (i + 7) last)) l
    /\ r.1.2 = cs ++ map (fun i => Z.min (i + 7) last) l.
Proof.
  induction l as [|i l IH]; intros pb cs gc; cbv zeta.
  - cbn. rewrite !app_nil_r. split; reflexivity.
  - cbn [foldl]. unfold OrchestralConductor.default_phrase at 2 4.
    cbv zeta.
    match goal with
    | |- context [foldl _ (?a, ?b, ?c) l] => destruct (IH a b c) as [E1 E2]
    end.
    rewrite E1, E2. cbn [map]. rewrite <- !app_assoc. split; reflexivity.
Qed.

(** [_create_default_structure(measure_count)] for any number of
    measures (a non-positive one counts as 16): the phrases are the
    consecutive blocks of eight measures, the last one cut at the final
    measure, so that every measure lies in the phrase that starts at the
    multiple of eight below it; each phrase end is a cadence; and the
    statistics agree with the lists. *)
Theorem default_structure_tiles_the_measures (measure_count : Z)
    (self : conductor) :
  let oc := OrchestralConductor._create_default_structure measure_count self in
  let n := if measure_count <=? 0 then 16 else measure_count in
  OrchestralConductor.phrase_boundaries oc
  = map (fun k : nat => (8 * Z.of_nat k, Z.min (8 * Z.of_nat k + 7) (n - 1)))
        (seq 0 (Z.to_nat ((n + 7) / 8)))
  /\ OrchestralConductor.cadences oc
     = map snd (OrchestralConductor.phrase_boundaries oc)
  /\ (forall m, 0 <= m < n ->
        (8 * (m / 8), Z.min (8 * (m / 8) + 7) (n - 1))
          ∈ OrchestralConductor.phrase_boundaries oc
        /\ 8 * (m / 8) <= m <= Z.min (8 * (m / 8) + 7) (n - 1))
  /\ OrchestralConductor.measure_count (OrchestralConductor.stats oc) = n
  /\ OrchestralConductor.phrase_count (OrchestralConductor.stats oc)
     = Z.of_nat (length (OrchestralConductor.phrase_boundaries oc))
  /\ OrchestralConductor.cadence_count (OrchestralConductor.stats oc)
     = Z.of_nat (length (OrchestralConductor.cadences oc)).
Proof.
  intros oc n.
  assert (0 < n) as Hn by (unfold n; destruct (Z.leb_spec measure_count 0); lia).
  unfold oc, OrchestralConductor._create_default_structure. cbv zeta. fold n.
  destruct (default_phrases_fold (n - 1) (PyList.range 0 n 8) [] [] [])
    as [E1 E2].
  destruct (foldl _ _ _) as [[pb cs] gc]. cbn [fst snd] in E1, E2.
  cbn [OrchestralConductor.phrase_boundaries OrchestralConductor.cadences
       OrchestralConductor.stats OrchestralConductor.set_structure
       OrchestralConductor.measure_count OrchestralConductor.phrase_count
       OrchestralConductor.cadence_count].
  rewrite range_by_eight in E1, E2 by lia. rewrite map_map in E1, E2.
  cbn [app] in E1, E2. subst pb cs.
  split; [reflexivity|]. split; [rewrite map_map; reflexivity|].
  split; [|split; [reflexivity|split; reflexivity]].
  intros m Hm. split.
  - apply list_elem_of_fmap. exists (Z.to_nat (m / 8)).
    assert (0 <= m / 8) by (apply Z.div_pos; lia).
    split; [rewrite Z2Nat.id by lia; reflexivity|].
    apply elem_of_seq.
    assert (m / 8 < (n + 7) / 8); [|lia].
    apply Z.div_lt_upper_bound; [lia|].
    pose proof (Z.mul_div_le (n + 7) 8). pose proof (Z.mod_pos_bound (n + 7) 8).
    pose proof (Z.div_mod (n + 7) 8). lia.
  - pose proof (Z.div_mod m 8). pose proof (Z.mod_pos_bound m 8). lia.
Qed.

(** [_create_default_structure_from_voices]: the structure counts
    [M + 1] measures, with [M] at least 16, but its loop runs over
    [range(0, M, 8)]: the phrases are the blocks of eight measures below
    [M], and the last measure [M] lies in a phrase only when [M] is not a
    multiple of eight. *)
Theorem default_structure_from_voices_last_measure
    (voices : list (MusicalVoice.t F)) (max_measure : Z) (self : conductor) :
  let oc := OrchestralConductor._create_default_structure_from_voices
              voices max_measure self in
  let M := OrchestralConductor.measure_count (OrchestralConductor.stats oc) - 1 in
  16 <= M
  /\ OrchestralConductor.phrase_boundaries oc
     = map (fun k : nat => (8 * Z.of_nat k, Z.min (8 * Z.of_nat k + 7) M))
           (seq 0 (Z.to_nat ((M + 7) / 8)))
  /\ OrchestralConductor.cadences oc
     = map snd (OrchestralConductor.phrase_boundaries oc)
  /\ ((exists se, se ∈ OrchestralConductor.phrase_boundaries oc
                  /\ se.1 <= M <= se.2)
      <-> M mod 8 <> 0).
Proof.
  intros oc M.
  unfold M, oc, OrchestralConductor._create_default_structure_from_voices.
  cbv zeta.
  set (M0 := Z.max 16 _).
  assert (16 <= M0) as HM by (unfold M0; lia). clearbody M0.
  destruct (default_phrases_fold M0 (PyList.range 0 M0 8) [] [] [])
    as [E1 E2].
  destruct (foldl _ _ _) as [[pb cs] gc]. cbn [fst snd] in E1, E2.
  cbn [OrchestralConductor.phrase_boundaries OrchestralConductor.cadences
       OrchestralConductor.stats OrchestralConductor.set_structure
       OrchestralConductor.measure_count].
  rewrite range_by_eight in E1, E2 by lia. rewrite map_map in E1, E2.
  cbn [app] in E1, E2. subst pb cs.
  replace (M0 + 1 - 1) with M0 by lia.
  split; [exact HM|]. split; [reflexivity|].
  split; [rewrite map_map; reflexivity|].
  pose proof (Z.div_mod M0 8). pose proof (Z.mod_pos_bound M0 8).
  pose proof (Z.div_mod (M0 + 7) 8). pose proof (Z.mod_pos_bound (M0 + 7) 8).
  split.
  - intros (se & Hin & Hse) Hmod.
    apply list_elem_of_fmap in Hin as (k & -> & Hk).
    apply elem_of_seq in Hk. cbn [fst snd] in Hse.
    assert (Z.of_nat k < (M0 + 7) / 8) as Hk' by lia. lia.
  - intros Hmod.
    exists (8 * (M0 / 8), Z.min (8 * (M0 / 8) + 7) M0). split.
    + apply list_elem_of_fmap. exists (Z.to_nat (M0 / 8)).
      assert (0 <= M0 / 8) by (apply Z.div_pos; lia).
      split; [rewrite Z2Nat.id by lia; reflexivity|].
      apply elem_of_seq.
      assert (M0 / 8 < (M0 + 7) / 8); [|lia].
      apply Z.div_lt_upper_bound; lia.
    + cbn [fst snd]. lia.
Qed.

Lemma foldl_max_ge {A : Type} (f : A -> Z) (l : list A) (a : Z) :
  a <= foldl (fun mm x => Z.max mm (f x)) a l.
Proof.
  revert a. induction l as [|x l IH]; intros a; cbn; [lia|].
  specialize (IH (Z.max a (f x))). lia.
Qed.

Lemma max_measure_found_nonneg (voices : list (MusicalVoice.t F)) :
  0 <= OrchestralConductor.max_measure_found voices.
Proof.
  unfold OrchestralConductor.max_measure_found.
  assert (forall a,
            a <= foldl (fun mm (voice : MusicalVoice.t F) =>
                          foldl (fun mm note =>
                                   Z.max mm
                                     (OrchestralConductor._estimate_measure_number note))
                                mm (MusicalVoice.notes voice))
                       a voices) as H.
  { induction voices as [|v vs IH]; intros a; cbn [foldl]; [lia|].
    etransitivity; [|apply IH].
    apply (foldl_max_ge OrchestralConductor._estimate_measure_number). }
  apply H.
Qed.

(** [analyze_structure], on each of its three paths (no voices, voices
    without phrases, voices with phrases): the structure counts at least
    one measure, the two counters are the lengths of the phrase and
    cadence lists, and the configuration and the agogic map are left as
    they were. *)
Theorem analyze_structure_keeps_counts (voices : list (MusicalVoice.t F))
    (self : conductor) :
  let oc := OrchestralConductor.analyze_structure voices self in
  0 < OrchestralConductor.measure_count (OrchestralConductor.stats oc)
  /\ OrchestralConductor.phrase_count (OrchestralConductor.stats oc)
     = Z.of_nat (length (OrchestralConductor.phrase_boundaries oc))
  /\ OrchestralConductor.cadence_count (OrchestralConductor.stats oc)
     = Z.of_nat (length (OrchestralConductor.cadences oc))
  /\ OrchestralConductor.expressiveness oc = OrchestralConductor.expressiveness self
  /\ OrchestralConductor.wave_strength oc = OrchestralConductor.wave_strength self
  /\ OrchestralConductor.wave_complexity oc
     = OrchestralConductor.wave_complexity self
  /\ OrchestralConductor.agogic_map oc = OrchestralConductor.agogic_map self.
Proof.
  intros oc. unfold oc, OrchestralConductor.analyze_structure.
  destruct voices as [|v vs].
  - unfold OrchestralConductor._create_default_structure. cbv zeta.
    destruct (foldl _ _ _) as [[pb cs] gc]. cbn.
    repeat split; lia.
  - cbv zeta.
    destruct (OrchestralConductor.collect_boundaries (v :: vs)) as [|b0 bs].
    + unfold OrchestralConductor._create_default_structure_from_voices.
      cbv zeta. destruct (foldl _ _ _) as [[pb cs] gc].
      cbn [OrchestralConductor.phrase_boundaries OrchestralConductor.cadences
           OrchestralConductor.stats OrchestralConductor.set_structure
           OrchestralConductor.measure_count OrchestralConductor.phrase_count
           OrchestralConductor.cadence_count OrchestralConductor.expressiveness
           OrchestralConductor.wave_strength OrchestralConductor.wave_complexity
           OrchestralConductor.agogic_map].
      repeat split; lia.
    + pose proof (max_measure_found_nonneg (v :: vs)) as Hm.
      destruct (foldl (OrchestralConductor.process_group _) _ _) as [[pb cs] gc].
      cbn [OrchestralConductor.phrase_boundaries OrchestralConductor.cadences
           OrchestralConductor.stats OrchestralConductor.set_structure
           OrchestralConductor.measure_count OrchestralConductor.phrase_count
           OrchestralConductor.cadence_count OrchestralConductor.expressiveness
           OrchestralConductor.wave_strength OrchestralConductor.wave_complexity
           OrchestralConductor.agogic_map].
      repeat split; lia.
Qed.

End DefaultStructure.

(** *** Reading the agogic map (orchestral_conductor.py) *)

Section TimingDirection.
Local Abbreviation conductorR := (OrchestralConductor.t R).
Local Open Scope R_scope.

(** [create_agogic_map] stores a wave with values in [-1, 1]. *)
Lemma create_agogic_map_as_wave
    (fl : OrchestralConductor.faults) (r1 r2 r3 : R) (oc : conductorR) :
  0 <= OrchestralConductor.expressiveness oc ->
  OrchestralConductor.wave_strength oc <= 1 ->
  Forall (fun ms : Z * R => 0 <= ms.2) (OrchestralConductor.gravity_centers oc) ->
  let oc' := OrchestralConductor.create_agogic_map sin PI fl r1 r2 r3 oc in
  exists w, Forall in_unit w
            /\ (0 < OrchestralConductor.measure_count
                      (OrchestralConductor.stats oc'))%Z
            /\ OrchestralConductor.agogic_map oc'
               = OrchestralConductor.map_of_wave
                   (OrchestralConductor.measure_count
                      (OrchestralConductor.stats oc')) w.
Proof.
  intros He Hws Hgc oc'.
  set (mc0 := OrchestralConductor.measure_count (OrchestralConductor.stats oc)).
  set (mc1 := if (mc0 <=? 0)%Z then 16%Z else mc0).
  assert (0 < mc1)%Z as Hmc1 by (unfold mc1; destruct (Z.leb_spec mc0 0); lia).
  assert (exists w, Forall in_unit w
                    /\ OrchestralConductor.agogic_map oc'
                       = OrchestralConductor.map_of_wave mc1 w
                    /\ OrchestralConductor.measure_count
                         (OrchestralConductor.stats oc') = mc1)
    as (w & Hw & Hmap & Hmc).
  { unfold oc', OrchestralConductor.create_agogic_map. fold mc0. fold mc1.
    destruct (OrchestralConductor.map_construction_raises fl).
    - unfold OrchestralConductor._create_fallback_agogic_map.
      assert (OrchestralConductor.measure_count
                (OrchestralConductor.stats
                   (if (mc0 <=? 0)%Z
                    then OrchestralConductor.set_measure_count 16 oc else oc))
              = mc1) as Hm.
      { unfold mc1. destruct (mc0 <=? 0)%Z; reflexivity. }
      assert (OrchestralConductor.wave_strength
                (if (mc0 <=? 0)%Z
                 then OrchestralConductor.set_measure_count 16 oc else oc)
              = OrchestralConductor.wave_strength oc) as Hs
        by (destruct (mc0 <=? 0)%Z; reflexivity).
      rewrite Hm, Hs.
      assert ((if (mc1 <=? 0)%Z then 16%Z else mc1) = mc1) as Hm1
        by (destruct (Z.leb_spec mc1 0); [lia|reflexivity]).
      rewrite Hm1.
      eexists. split; [|split; [reflexivity|]].
      + apply simple_wave_spec. rewrite lit_R. cbn. lra.
      + cbn. exact Hm.
    - eexists. split; [|split; [reflexivity|]].
      + assert (OrchestralConductor.gravity_centers
                  (if (mc0 <=? 0)%Z
                   then OrchestralConductor.set_measure_count 16 oc else oc)
                = OrchestralConductor.gravity_centers oc) as ->
          by (destruct (mc0 <=? 0)%Z; reflexivity).
        assert (0 <= OrchestralConductor.expressiveness
                       (if (mc0 <=? 0)%Z
                        then OrchestralConductor.set_measure_count 16 oc else oc))
          as He' by (destruct (mc0 <=? 0)%Z; exact He).
        apply (foldl_in_unit _ _ (fun ms : Z * R => 0 <= ms.2)).
        * intros w0 b Hb Hw0. apply reinforce_gravity_in_unit; assumption.
        * exact Hgc.
        * apply (foldl_in_unit _ _ (fun _ => True)).
          -- intros w0 b _ Hw0. apply emphasize_cadence_in_unit; assumption.
          -- apply Forall_forall. auto.
          -- apply (foldl_in_unit _ _ (fun _ => True)).
             ++ intros w0 b _ Hw0. apply emphasize_phrase_in_unit; assumption.
             ++ apply Forall_forall. auto.
             ++ apply wave_function_spec.
                destruct (mc0 <=? 0)%Z; exact Hws.
      + cbn. unfold mc1. destruct (mc0 <=? 0)%Z; reflexivity. }
  exists w. rewrite Hmc. split; [exact Hw|]. split; [exact Hmc1|exact Hmap].
Qed.

(** The answer is built from a stored value by capped steps. *)
Lemma timing_direction_in_unit (self : conductorR) (m : Z) (b : R) :
  (forall k v, PyDict.get k (OrchestralConductor.agogic_map self) = Some v ->
               in_unit v) ->
  in_unit (OrchestralConductor.get_timing_direction self m b).
Proof.
  intros Hmap. unfold OrchestralConductor.get_timing_direction.
  destruct (OrchestralConductor.agogic_map self) as [|[k0 v0] rest] eqn:E;
    [apply in_unit_0|].
  cbv zeta.
  set (mm := Z.max 0 (Z.min m _)).
  set (base := default (of_int 0) (PyDict.get mm ((k0, v0) :: rest))).
  assert (in_unit base) as Hbase.
  { unfold base. destruct (PyDict.get mm ((k0, v0) :: rest)) as [v|] eqn:Eg;
      [apply (Hmap mm v Eg)|apply in_unit_0]. }
  clearbody base.
  set (bp := if fltb b (of_int 0) || fltb (of_int 1) b then lit 5 10 else b).
  assert (0 <= bp <= 1) as Hbp.
  { unfold bp. destruct (fltb b (of_int 0)) eqn:E0; cbn [orb].
    - rewrite lit_R. lra.
    - destruct (fltb (of_int 1) b) eqn:E1.
      + rewrite lit_R. lra.
      + assert (~ b < 0) by (intros C; apply Rltb_true in C; cbn in E0; congruence).
        assert (~ 1 < b) by (intros C; apply Rltb_true in C; cbn in E1; congruence).
        lra. }
  clearbody bp.
  destruct (_ && fltb (lit 5 10) bp) eqn:Ec.
  - apply andb_true_iff in Ec as [_ Ec]. apply Rltb_true in Ec.
    rewrite lit_R in Ec.
    apply raise_in_unit; [exact Hbase|]. rewrite !lit_R. cbn. lra.
  - destruct (PyDict.mem mm (OrchestralConductor.gravity_centers self));
      [|exact Hbase].
    assert (0 <= fmul (fmul (fsub (lit 5 10) (fabs (fsub bp (lit 5 10))))
                         (of_int 2)) (lit 2 10)) as Hce.
    { rewrite fabs_R, !lit_R. cbn [fmul fsub of_int R_PyFloat].
      assert (Rabs (bp - 5 / 10) <= 5 / 10) as Habs
        by (unfold Rabs; destruct (Rcase_abs (bp - 5 / 10)); lra).
      revert Habs. generalize (Rabs (bp - 5 / 10)). intros a Ha. lra. }
    destruct (fltb (of_int 0) base); [apply raise_in_unit; assumption|].
    destruct (fltb base (of_int 0)); [apply lower_in_unit; assumption|].
    exact Hbase.
Qed.

Lemma max_of_positions (len : nat) :
  forall (s : nat) (a : Z),
    (a <= Z.of_nat s)%Z ->
    foldl Z.max a (map Z.of_nat (seq s len))
    = if decide (len = 0%nat) then a else (Z.of_nat s + Z.of_nat len - 1)%Z.
Proof.
  induction len as [|len IH]; intros s a Ha; [reflexivity|].
  cbn [seq map foldl]. rewrite IH by lia.
  destruct (decide (S len = 0%nat)) as [C|_]; [lia|].
  destruct (decide (len = 0%nat)) as [->|Hne]; lia.
Qed.

(** After [create_agogic_map] (configuration within its documented
    ranges, floats read as reals), [get_timing_direction] answers with a
    value in [-1, 1] for every measure number and every beat position,
    and a measure number outside [0, measure_count) is answered like the
    nearest measure inside. *)
Theorem timing_direction_stays_in_unit
    (fl : OrchestralConductor.faults) (r1 r2 r3 : R) (oc : conductorR)
    (m : Z) (b : R) :
  0 <= OrchestralConductor.expressiveness oc ->
  OrchestralConductor.wave_strength oc <= 1 ->
  Forall (fun ms : Z * R => 0 <= ms.2) (OrchestralConductor.gravity_centers oc) ->
  let oc' := OrchestralConductor.create_agogic_map sin PI fl r1 r2 r3 oc in
  let mc := OrchestralConductor.measure_count (OrchestralConductor.stats oc') in
  in_unit (OrchestralConductor.get_timing_direction oc' m b)
  /\ OrchestralConductor.get_timing_direction oc' m b
     = OrchestralConductor.get_timing_direction oc'
         (Z.max 0 (Z.min m (mc - 1))) b.
Proof.
  intros He Hws Hgc oc' mc.
  destruct (create_agogic_map_as_wave fl r1 r2 r3 oc He Hws Hgc)
    as (w & Hw & Hmc & Hmap).
  fold oc' in Hmc, Hmap. fold mc in Hmc, Hmap.
  split.
  - apply timing_direction_in_unit. intros k v Hg. rewrite Hmap in Hg.
    pose proof (map_of_wave_get_range _ _ _ _ Hg) as Hr.
    rewrite (map_of_wave_get mc w k Hr) in Hg. injection Hg as <-.
    apply wave_get_in_unit, Hw.
  - unfold OrchestralConductor.get_timing_direction. rewrite Hmap.
    unfold OrchestralConductor.map_of_wave.
    destruct (Z.to_nat mc) as [|n'] eqn:En; [lia|].
    cbn [seq map]. cbv zeta.
    rewrite map_map. cbn [fst].
    change (map (fun x : nat => Z.of_nat x) (seq 1 n'))
      with (map Z.of_nat (seq 1 n')).
    rewrite max_of_positions by lia.
    assert ((if decide (n' = 0%nat) then Z.of_nat 0
             else (Z.of_nat 1 + Z.of_nat n' - 1)%Z) = (mc - 1)%Z) as ->.
    { destruct (decide (n' = 0%nat)); lia. }
    replace (Z.max 0 (Z.min (Z.max 0 (Z.min m (mc - 1))) (mc - 1)))
      with (Z.max 0 (Z.min m (mc - 1))) by lia.
    reflexivity.
Qed.

End TimingDirection.

Lemma timing_direction_stays_in_unit_witness :
  in_unit
    (OrchestralConductor.get_timing_direction
       (OrchestralConductor.create_agogic_map sin PI
          OrchestralConductor.no_fault 0%R 0%R 0%R
          (OrchestralConductor.set_structure [(0, 3)] [3] [(3, lit 9 10)]
             1 1 8 (default_conductor (F := R))))
       20 (lit 3 4)).
Proof.
  refine (proj1 (timing_direction_stays_in_unit OrchestralConductor.no_fault
            0%R 0%R 0%R
            (OrchestralConductor.set_structure [(0, 3)] [3] [(3, lit 9 10)]
               1 1 8 (default_conductor (F := R)))
            20 (lit 3 4) _ _ _)).
  - change (0 <= IZR 7 / IZR 10)%R. lra.
  - change (IZR 8 / IZR 10 <= 1)%R. lra.
  - change (Forall (fun ms : Z * R => (0 <= ms.2)%R) [(3, (IZR 9 / IZR 10)%R)]).
    constructor; [cbn; lra|constructor].
Defined.

(** *** The filter of dynamic points (dynamics.py) *)

Section PointFilter.
Local Abbreviation point := (Dynamics.point (F := Q)).
Local Abbreviation le := (Dynamics.by_offset (F := Q)).
Local Abbreviation sortedP := (StronglySorted (fun a b : point => le a b = true)).
Local Abbreviation spaced l :=
  (forall (i : nat) (a b : point),
     l !! i = Some a -> l !! S i = Some b -> (1 <= b.1 - a.1)%Q).

Lemma spaced_snoc (l : list point) (q p : point) :
  spaced l -> last l = Some q -> (1 <= p.1 - q.1)%Q -> spaced (l ++ [p]).
Proof.
  intros Hs Hl Hp i a b Ha Hb.
  destruct (decide (S i < length l)%nat) as [Hlt|Hge].
  - rewrite lookup_app_l in Ha by lia. rewrite lookup_app_l in Hb by lia.
    eapply Hs; eassumption.
  - pose proof (lookup_lt_Some _ _ _ Hb) as Hlen.
    rewrite length_app in Hlen. cbn in Hlen.
    assert (S i = length l) as Hi by lia.
    rewrite lookup_app_l in Ha by lia.
    rewrite last_lookup, <- Hi in Hl. cbn in Hl.
    rewrite lookup_app_r in Hb by lia.
    rewrite Hi, Nat.sub_diag in Hb. cbn in Hb.
    assert (a = q) as -> by congruence. injection Hb as <-. exact Hp.
Qed.

Lemma spaced_replace_last (l : list point) (q p : point) :
  spaced l -> last l = Some q -> (q.1 <= p.1)%Q ->
  spaced (removelast l ++ [p]).
Proof.
  intros Hs Hl Hp i a b Ha Hb.
  rewrite removelast_firstn_len in Ha, Hb.
  assert (length (take (pred (length l)) l) = pred (length l)) as Hlen
    by (rewrite length_take; lia).
  assert (0 < length l)%nat as Hpos.
  { destruct l; [discriminate|cbn; lia]. }
  destruct (decide (S i < pred (length l))%nat) as [Hlt|Hge].
  - rewrite lookup_app_l in Ha by lia. rewrite lookup_app_l in Hb by lia.
    rewrite lookup_take_lt in Ha by lia. rewrite lookup_take_lt in Hb by lia.
    eapply Hs; eassumption.
  - pose proof (lookup_lt_Some _ _ _ Hb) as Hb'.
    rewrite length_app, Hlen in Hb'. cbn in Hb'.
    assert (S i = pred (length l)) as Hi by lia.
    rewrite lookup_app_l in Ha by lia.
    rewrite lookup_take_lt in Ha by lia.
    rewrite lookup_app_r in Hb by lia.
    rewrite Hlen, Hi, Nat.sub_diag in Hb. cbn in Hb. injection Hb as <-.
    rewrite last_lookup, <- Hi in Hl.
    pose proof (Hs i a q Ha Hl) as H1.
    eapply Qle_trans; [exact H1|].
    apply Qplus_le_l with (z := a.1). ring_simplify. exact Hp.
Qed.

Lemma filter_loop_spaced (all : list point) :
  forall (l : list point) (st : list point * option Q),
    sortedP l ->
    spaced st.1 ->
    st.2 = (fun p : point => p.1) <$> last st.1 ->
    (forall q, last st.1 = Some q -> Forall (fun x : point => (q.1 <= x.1)%Q) l) ->
    Forall (fun z => z ∈ all) st.1 -> Forall (fun z => z ∈ all) l ->
    let r := (foldl Dynamics.filter_step st l).1 in
    spaced r /\ Forall (fun z => z ∈ all) r
    /\ (st.1 <> [] \/ l <> [] -> r <> []).
Proof.
  induction l as [|p l IH]; intros [filtered lt] Hl Hsp Hlt Hge Hin Hinl;
    cbv zeta; cbn [foldl]; cbn [fst snd] in *.
  - split; [exact Hsp|]. split; [exact Hin|]. intros [H|H]; congruence.
  - apply StronglySorted_inv in Hl as [Hl Hp].
    apply Forall_cons in Hinl as [Hpin Hinl].
    assert (Forall (fun x : point => (p.1 <= x.1)%Q) l) as Hpl.
    { eapply Forall_impl; [exact Hp|]. cbn. intros x Hx.
      apply by_offset_le, Hx. }
    assert (forall pre : list point,
              spaced (pre ++ [p]) -> Forall (fun z => z ∈ all) pre ->
              let r := (foldl Dynamics.filter_step (pre ++ [p], Some p.1) l).1 in
              spaced r /\ Forall (fun z => z ∈ all) r
              /\ (filtered <> [] \/ p :: l <> [] -> r <> [])) as Hnew.
    { intros pre Hpre Hprein. cbv zeta.
      destruct (IH (pre ++ [p], Some p.1)) as (H1 & H2 & H3); cbn [fst snd].
      - exact Hl.
      - exact Hpre.
      - rewrite last_snoc. reflexivity.
      - intros q Hq. rewrite last_snoc in Hq. injection Hq as <-. exact Hpl.
      - apply Forall_app. split; [exact Hprein|]. constructor; [exact Hpin|constructor].
      - exact Hinl.
      - split; [exact H1|]. split; [exact H2|]. intros _. apply H3. left.
        destruct pre; discriminate. }
    destruct p as [time value].
    destruct (last filtered) as [[qt qv]|] eqn:Elast.
    + cbn in Hlt. subst lt.
      specialize (Hge _ eq_refl). apply Forall_cons in Hge as [Hqp Hge].
      cbn [fst] in Hqp.
      destruct (fleb Dynamics.min_time_distance (fsub time qt)) eqn:Efar.
      * assert (Dynamics.filter_step (filtered, Some qt) (time, value)
                = (filtered ++ [(time, value)], Some time)) as ->.
        { unfold Dynamics.filter_step. rewrite Efar. reflexivity. }
        apply (Hnew filtered).
        -- eapply spaced_snoc; [exact Hsp|exact Elast|].
           apply fleb_Q in Efar. exact Efar.
        -- exact Hin.
      * destruct (10 <? Z.abs (qv - value)) eqn:Ebig.
        -- assert (Dynamics.filter_step (filtered, Some qt) (time, value)
                   = (removelast filtered ++ [(time, value)], Some time)) as ->.
           { unfold Dynamics.filter_step. rewrite Efar, Elast, Ebig. reflexivity. }
           apply (Hnew (removelast filtered)).
           ++ eapply spaced_replace_last; [exact Hsp|exact Elast|exact Hqp].
           ++ apply Forall_forall. intros z Hz.
              apply (proj1 (Forall_forall _ _) Hin).
              apply list_elem_of_In, removelast_In, list_elem_of_In, Hz.
        -- assert (Dynamics.filter_step (filtered, Some qt) (time, value)
                   = (filtered, Some qt)) as ->.
           { unfold Dynamics.filter_step. rewrite Efar, Elast, Ebig. reflexivity. }
           destruct (IH (filtered, Some qt)) as (H1 & H2 & H3); cbn [fst snd].
           ++ exact Hl.
           ++ exact Hsp.
           ++ rewrite Elast. reflexivity.
           ++ intros q Hq. rewrite Elast in Hq. injection Hq as <-. exact Hge.
           ++ exact Hin.
           ++ exact Hinl.
           ++ split; [exact H1|]. split; [exact H2|]. intros _. apply H3. left.
              cbn. intros E. rewrite E in Elast. discriminate.
    + cbn in Hlt. subst lt. apply last_None in Elast. subst filtered.
      assert (Dynamics.filter_step ([], None) (time, value)
              = ([] ++ [(time, value)], Some time)) as -> by reflexivity.
      apply (Hnew []); [|constructor].
      intros i a b _ Hb. destruct i; discriminate.
Qed.

(** The filter that follows the sort by offset, in exact arithmetic: of
    the points it keeps, each lies at least one quarter note after the
    one before it; every kept point is one of the input points; and
    something is kept whenever there is any input. *)
Theorem filtered_points_keep_their_distance (raw : list point) :
  let kept := Dynamics.filter_points raw in
  (forall i a b, kept !! i = Some a -> kept !! S i = Some b ->
     (1 <= b.1 - a.1)%Q)
  /\ (forall p, p ∈ kept -> p ∈ raw)
  /\ (raw <> [] -> kept <> []).
Proof.
  intros kept. unfold kept, Dynamics.filter_points.
  pose proof (sorted_sorted le by_offset_total by_offset_trans raw) as Hs.
  pose proof (sorted_perm le raw) as Hperm.
  destruct (filter_loop_spaced raw (PyList.sorted le raw) ([], None))
    as (H1 & H2 & H3); cbn [fst snd].
  - exact Hs.
  - intros i a b Ha. rewrite lookup_nil in Ha. discriminate.
  - reflexivity.
  - intros q Hq. discriminate.
  - constructor.
  - apply Forall_forall. intros z Hz. rewrite <- Hperm. exact Hz.
  - split; [exact H1|]. split.
    + intros p Hp. apply (proj1 (Forall_forall _ _) H2 p Hp).
    + intros Hne. apply H3. right. intros E.
      rewrite E in Hperm. apply Permutation_nil in Hperm. congruence.
Qed.

End PointFilter.
